(** * velocitree: generative simulation of reproductive-isolation data

    A shallow embedding of [velocitree/speciation/generative.py] and
    [velocitree/speciation/regression.py].

    - Python exceptions are values of [exn]; fallible code lives in the
      [result] monad.
    - A toytree tree is a rose tree of nodes carrying the integer label
      [idx] and the branch length [dist], a binary64 float; distances
      are added and halved in binary64 arithmetic, in the order the
      code adds them.
    - NumPy floats of the score stage are extended reals ([npfloat]):
      the special values inf, -inf and nan are kept, rounding is not, so
      statements about that stage are kept to what rounding cannot
      change.
    - The two random generators (the run's [np.random.default_rng] and
      NumPy's process-global legacy state) are explicit states, threaded
      through the code that consumes them. *)

From Stdlib Require Import Floats.
From Stdlib Require Import List Arith ZArith QArith Bool String Lia.
From Stdlib Require Import Permutation Sorted.
From Stdlib Require Import Reals Lra.
Import ListNotations.

Set Implicit Arguments.
Open Scope nat_scope.

(** ** Exceptions and the error monad *)

Inductive exn : Type :=
| KeyError
| ValueError
| IndexError
| TypeError
| ZeroDivisionError.

Inductive result (A : Type) : Type :=
| Ok (a : A)
| Raise (e : exn).

Arguments Ok {A} a.
Arguments Raise {A} e.

Definition bind {A B : Type} (m : result A) (k : A -> result B) : result B :=
  match m with
  | Ok a => k a
  | Raise e => Raise e
  end.

Notation "x <- m ;; k" := (bind m (fun x => k))
  (at level 61, m at next level, right associativity).

Fixpoint mapM {A B : Type} (f : A -> result B) (l : list A) : result (list B) :=
  match l with
  | [] => Ok []
  | a :: r =>
      b <- f a ;;
      bs <- mapM f r ;;
      Ok (b :: bs)
  end.

Definition lookup_or {A : Type} (e : exn) (o : option A) : result A :=
  match o with
  | Some a => Ok a
  | None => Raise e
  end.

(** ** Trees as toytree exposes them *)

Module Toytree.

(** A [TreeNode]: its label [idx], the length [dist] of the branch
    above it, and its [children] from first to last. *)
#[warnings="-register-all"]
Inductive TreeNode : Type :=
| mkNode (i : nat) (d : float) (cs : list TreeNode).

Definition idx (n : TreeNode) : nat :=
  match n with mkNode i _ _ => i end.

Definition dist (n : TreeNode) : float :=
  match n with mkNode _ d _ => d end.

Definition children (n : TreeNode) : list TreeNode :=
  match n with mkNode _ _ cs => cs end.

(** [node.traverse()]: every node of the subtree. *)
Fixpoint traverse (n : TreeNode) : list TreeNode :=
  match n with
  | mkNode _ _ cs => n :: flat_map traverse cs
  end.

(** [node.get_leaves()]: the tips below a node, left to right. *)
Fixpoint get_leaves (n : TreeNode) : list TreeNode :=
  match n with
  | mkNode _ _ cs =>
      match cs with
      | [] => [n]
      | _ :: _ => flat_map get_leaves cs
      end
  end.

(** [len(node)] is the number of tips below it. *)
Definition len (n : TreeNode) : nat := List.length (get_leaves n).

(** [tree.ntips]. *)
Definition ntips (t : TreeNode) : nat := List.length (get_leaves t).

(** [tree.idx_dict[i]]: the node labelled [i]; [None] is a KeyError.
    toytree gives the nodes of a tree distinct labels, so at most one
    node answers. *)
Definition idx_dict (t : TreeNode) (i : nat) : option TreeNode :=
  find (fun n => idx n =? i) (traverse t).

(** The chain of nodes from the root down to the node labelled
    [target]: the [up] pointers of that node, read from the top. *)
Fixpoint path_to (target : nat) (n : TreeNode) : option (list TreeNode) :=
  match n with
  | mkNode i _ cs =>
      if i =? target then Some [n]
      else
        (fix search (l : list TreeNode) : option (list TreeNode) :=
           match l with
           | [] => None
           | c :: r =>
               match path_to target c with
               | Some p => Some (n :: p)
               | None => search r
               end
           end) cs
  end.

(** Drops the part two root paths share; what is left of each is the
    chain strictly below the most recent common ancestor. *)
Fixpoint below_ancestor (p0 p1 : list TreeNode)
  : list TreeNode * list TreeNode :=
  match p0, p1 with
  | a :: r0, b :: r1 =>
      if idx a =? idx b then below_ancestor r0 r1 else (p0, p1)
  | _, _ => (p0, p1)
  end.

(** [root.get_distance(target, target2)]: starting from 0.0, the
    branch lengths from [target2] up to the common ancestor are added
    one by one ([dist += current.dist]), then those from [target] up to
    it; every addition rounds. *)
Definition get_distance (root : TreeNode) (target target2 : nat)
  : option float :=
  match path_to target root, path_to target2 root with
  | Some p, Some p2 =>
      let '(s, s2) := below_ancestor p p2 in
      Some (fold_left PrimFloat.add
              (map dist (rev s2) ++ map dist (rev s)) 0%float)
  | _, _ => None
  end.

End Toytree.

Import Toytree.

(** ** Python built-ins used by the source *)

(** [range(n)]. *)
Definition range (n : nat) : list nat := seq 0 n.

(** [enumerate(l)]. *)
Definition enumerate {A : Type} (l : list A) : list (nat * A) :=
  combine (seq 0 (List.length l)) l.

(** [itertools.combinations(l, 2)], in the order Python emits them. *)
Fixpoint combinations2 {A : Type} (l : list A) : list (A * A) :=
  match l with
  | [] => []
  | x :: r => map (pair x) r ++ combinations2 r
  end.

(** [l.remove(x)]: drops the first occurrence of [x]. *)
Fixpoint remove_first (x : nat) (l : list nat) : list nat :=
  match l with
  | [] => []
  | y :: r => if y =? x then r else y :: remove_first x r
  end.

(** A stable insertion sort; [sorted(l, key=...)] and pandas'
    [sort_values] on several columns are both stable. *)
Section StableSort.
Variable A : Type.
Variable leb : A -> A -> bool.

Fixpoint insert_sorted (x : A) (l : list A) : list A :=
  match l with
  | [] => [x]
  | y :: r => if leb x y then x :: l else y :: insert_sorted x r
  end.

Fixpoint stable_sort (l : list A) : list A :=
  match l with
  | [] => []
  | x :: r => insert_sorted x (stable_sort r)
  end.
End StableSort.

(** ** The clade partitioner: [RandomTree.get_clade_idxs] *)

(** The sort key of the source: [len(self.tree.idx_dict[x].children)]. *)
Definition nchildren (t : TreeNode) (x : nat) : result nat :=
  n <- lookup_or KeyError (idx_dict t x) ;;
  Ok (List.length (children n)).

(** [sorted(self.clade_idxs, key=...)], each anchor paired with its key. *)
Definition sorted_by_children (t : TreeNode) (clade_idxs : list nat)
  : result (list (nat * nat)) :=
  keyed <- mapM (fun x => k <- nchildren t x ;; Ok (k, x)) clade_idxs ;;
  Ok (stable_sort (fun a b => fst a <=? fst b) keyed).

(** One turn of the loop body. *)
Definition expand_step (t : TreeNode) (clade_idxs : list nat)
  : result (list nat) :=
  sidxs <- sorted_by_children t clade_idxs ;;
  match sidxs with
  | [] => Raise IndexError
  | (_, nidx) :: _ =>
      n <- lookup_or KeyError (idx_dict t nidx) ;;
      Ok (remove_first nidx clade_idxs ++ map idx (children n))
  end.

Fixpoint expand_loop (t : TreeNode) (turns : nat) (clade_idxs : list nat)
  : result (list nat) :=
  match turns with
  | O => Ok clade_idxs
  | S k =>
      l <- expand_step t clade_idxs ;;
      expand_loop t k l
  end.

(** [for _ in range(2, self.nclades + 1)] runs [nclades - 1] turns, none
    when [nclades < 2]; the default [nclades=None] cannot be added to. *)
Definition get_clade_idxs (t : TreeNode) (nclades : option Z)
  : result (list nat) :=
  match nclades with
  | None => Raise TypeError
  | Some k => expand_loop t (Z.to_nat (k - 1)) [idx t]
  end.

(** ** [GenerativeBase.get_groups] *)

Definition get_group_sizes (t : TreeNode) (clade_idxs : list nat)
  : result (list (nat * nat)) :=
  sizes <- mapM (fun j => n <- lookup_or KeyError (idx_dict t j) ;; Ok (len n))
                clade_idxs ;;
  Ok (enumerate sizes).

(** [np.concatenate] refuses an empty list of arrays. *)
Definition np_concatenate {A : Type} (arrays : list (list A))
  : result (list A) :=
  match arrays with
  | [] => Raise ValueError
  | _ :: _ => Ok (List.concat arrays)
  end.

Definition get_groups (t : TreeNode) (clade_idxs : list nat)
  : result (list (nat * nat) * list nat) :=
  group_sizes <- get_group_sizes t clade_idxs ;;
  groups <- np_concatenate
              (map (fun '(i, size) => repeat i size) group_sizes) ;;
  Ok (group_sizes, groups).

(** ** The pair table: [get_dist], [get_crosses] and the sort *)

Definition get_dist (t : TreeNode) (idx0 idx1 : nat) : result float :=
  lookup_or KeyError (get_distance t idx0 idx1).

(** The columns [sidx0], [sidx1] and [dist] of [ridata]. *)
Record cross : Type := mkCross {
  sidx0 : nat;
  sidx1 : nat;
  dist : float
}.

(** Unpacking the zipped pairs into [tipsa, tipsb] needs at least one
    pair; with fewer than two tips there is none. *)
Definition get_crosses (t : TreeNode) : result (list cross) :=
  match combinations2 (range (ntips t)) with
  | [] => Raise ValueError
  | pairs =>
      mapM (fun '(i, j) =>
              d <- get_dist t i j ;;
              Ok (mkCross i j (d / 2)%float))
           pairs
  end.

(** The within-species rows added by [get_velocities]. *)
Definition nulls (t : TreeNode) : list cross :=
  map (fun i => mkCross i i 0%float) (range (ntips t)).

Definition cross_leb (a b : cross) : bool :=
  (sidx0 a <? sidx0 b) || ((sidx0 a =? sidx0 b) && (sidx1 a <=? sidx1 b)).

(** [pd.concat([ridata, nulls]).sort_values(by=['sidx0', 'sidx1'])]. *)
Definition sort_values (rows : list cross) : list cross :=
  stable_sort cross_leb rows.

(** ** Example trees

    Labelled as toytree labels a tree: the root carries the highest
    label and the other internal nodes follow level by level, each
    level from its first node to its last, with descending labels; the
    tips carry ntips-1 down to 0, from the first leaf to the last. *)

(** [(a:1,b:1);] *)
Definition cherry : TreeNode :=
  mkNode 2 0 [mkNode 1 1 []; mkNode 0 1 []].

(** [((a:0.5,b:0.5):0.5,(c:0.5,d:0.5):0.5);] *)
Definition balanced4 : TreeNode :=
  mkNode 6 0
    [mkNode 5 0.5 [mkNode 3 0.5 []; mkNode 2 0.5 []];
     mkNode 4 0.5 [mkNode 1 0.5 []; mkNode 0 0.5 []]].

(** [(d:3,(c:2,(a:1,b:1):1):1);] with the root height scaled to 1, each
    branch length divided by the height 3: the ladder on four tips, the
    smaller child first at each node. *)
Definition caterpillar4 : TreeNode :=
  mkNode 6 0
    [mkNode 3 (3 / 3) [];
     mkNode 5 (1 / 3)
       [mkNode 2 (2 / 3) [];
        mkNode 4 (1 / 3) [mkNode 1 (1 / 3) []; mkNode 0 (1 / 3) []]]].

(** [(d:3,(c:2,(a:1,b:1):1):1);] as it is read, before the scaling. *)
Definition caterpillar4_unscaled : TreeNode :=
  mkNode 6 0
    [mkNode 3 3 [];
     mkNode 5 1
       [mkNode 2 2 [];
        mkNode 4 1 [mkNode 1 1 []; mkNode 0 1 []]]].

(** [(a:0,b:0);], a tree of height 0. *)
Definition cherry_flat : TreeNode :=
  mkNode 2 0 [mkNode 1 0 []; mkNode 0 0 []].

(** ** NumPy floats

    A float is a real number or one of inf, -inf, nan.  Operations on
    the special values follow IEEE 754 as NumPy applies it (a division
    by zero or a logarithm of zero is a warning and a special value, not
    an exception); operations on reals are exact. *)

Module NP.

Inductive npfloat : Type :=
| Fin (r : R)
| PInf
| NInf
| NaN.

Inductive sign : Type := Neg | Zero | Pos.

Definition Rsign (r : R) : sign :=
  match total_order_T r 0 with
  | inleft (left _) => Neg
  | inleft (right _) => Zero
  | inright _ => Pos
  end.

Definition sign_mul (a b : sign) : sign :=
  match a, b with
  | Zero, _ | _, Zero => Zero
  | Pos, Pos | Neg, Neg => Pos
  | Pos, Neg | Neg, Pos => Neg
  end.

(** The infinity of a sign; a zero sign stands for an invalid
    operation (0 * inf, 0 / 0). *)
Definition inf_of (s : sign) : npfloat :=
  match s with
  | Neg => NInf
  | Zero => NaN
  | Pos => PInf
  end.

Definition neg (x : npfloat) : npfloat :=
  match x with
  | Fin r => Fin (- r)
  | PInf => NInf
  | NInf => PInf
  | NaN => NaN
  end.

Definition add (x y : npfloat) : npfloat :=
  match x, y with
  | NaN, _ | _, NaN => NaN
  | Fin a, Fin b => Fin (a + b)
  | PInf, NInf | NInf, PInf => NaN
  | PInf, _ | _, PInf => PInf
  | NInf, _ | _, NInf => NInf
  end.

Definition sub (x y : npfloat) : npfloat := add x (neg y).

Definition mul (x y : npfloat) : npfloat :=
  match x, y with
  | NaN, _ | _, NaN => NaN
  | Fin a, Fin b => Fin (a * b)
  | Fin a, PInf | PInf, Fin a => inf_of (Rsign a)
  | Fin a, NInf | NInf, Fin a => inf_of (sign_mul (Rsign a) Neg)
  | PInf, PInf | NInf, NInf => PInf
  | PInf, NInf | NInf, PInf => NInf
  end.

(** A real divided by zero is the infinity of its sign (nan for 0/0). *)
Definition div (x y : npfloat) : npfloat :=
  match x, y with
  | NaN, _ | _, NaN => NaN
  | Fin a, Fin b =>
      match Rsign b with
      | Zero => inf_of (Rsign a)
      | _ => Fin (a / b)
      end
  | Fin _, _ => Fin 0
  | PInf, Fin b =>
      match Rsign b with Neg => NInf | _ => PInf end
  | NInf, Fin b =>
      match Rsign b with Neg => PInf | _ => NInf end
  | _, _ => NaN
  end.

(** [x ** 2]. *)
Definition square (x : npfloat) : npfloat := mul x x.

Definition np_sqrt (x : npfloat) : npfloat :=
  match x with
  | Fin r => match Rsign r with Neg => NaN | _ => Fin (sqrt r) end
  | PInf => PInf
  | _ => NaN
  end.

(** [np.exp], without its rounding: in binary64 the result overflows to
    inf and underflows to 0 where the real one is finite and positive. *)
Definition np_exp (x : npfloat) : npfloat :=
  match x with
  | Fin r => Fin (exp r)
  | PInf => PInf
  | NInf => Fin 0
  | NaN => NaN
  end.

(** [np.log]: -inf at zero, nan below it. *)
Definition np_log (x : npfloat) : npfloat :=
  match x with
  | Fin r =>
      match Rsign r with
      | Neg => NaN
      | Zero => NInf
      | Pos => Fin (ln r)
      end
  | PInf => PInf
  | _ => NaN
  end.

(** [scipy.special.expit]: the logistic function, without its
    rounding: in binary64 the result reaches 0 and 1 on large
    arguments, so only the closed bounds are stated of it. *)
Definition scipy_special_expit (x : npfloat) : npfloat :=
  match x with
  | Fin r => Fin (/ (1 + exp (- r)))
  | PInf => Fin 1
  | NInf => Fin 0
  | NaN => NaN
  end.

Definition of_Q (q : Q) : npfloat := Fin (Q2R q).
Definition of_nat (n : nat) : npfloat := Fin (INR n).

(** A binary64 float read as a float of the score stage: a finite
    float is the real number [(-1)^s * m * 2^e] it stands for. *)
Definition of_float (x : float) : npfloat :=
  match Prim2SF x with
  | S754_zero _ => Fin 0
  | S754_infinity false => PInf
  | S754_infinity true => NInf
  | S754_nan => NaN
  | S754_finite s m e =>
      of_Q (inject_Z (if s then Zneg m else Zpos m) * Qpower (2 # 1) e)
  end.

Definition isnan (x : npfloat) : bool :=
  match x with NaN => true | _ => false end.

Definition sum (l : list npfloat) : npfloat := fold_left add l (Fin 0).

(** [Series.mean()]: nan entries are skipped. *)
Definition mean (l : list npfloat) : npfloat :=
  let v := filter (fun x => negb (isnan x)) l in
  div (sum v) (of_nat (List.length v)).

(** [Series.std()]: nan entries are skipped, one degree of freedom is
    taken off, and fewer than two values give nan. *)
Definition std (l : list npfloat) : npfloat :=
  let v := filter (fun x => negb (isnan x)) l in
  let count := List.length v in
  if (count <=? 1)%nat then NaN
  else
    let avg := div (sum v) (of_nat count) in
    let sqr := map (fun x => square (sub avg x)) v in
    np_sqrt (div (sum sqr) (of_nat (count - 1))).

(** [np.linspace(start, stop, num)]. *)
Definition linspace (start stop : Q) (num : nat) : list npfloat :=
  map (fun i =>
         of_Q (start + inject_Z (Z.of_nat i) * ((stop - start)
               / inject_Z (Z.of_nat (num - 1)))))
      (seq 0 num).

(** A value strictly between 0 and 1. *)
Definition in_open_unit (x : npfloat) : Prop :=
  match x with
  | Fin r => (0 < r < 1)%R
  | _ => False
  end.

Definition finite (x : npfloat) : Prop :=
  match x with
  | Fin _ => True
  | _ => False
  end.

End NP.

Import NP.

(** ** [regression.py] *)

Definition linea_f (velocity distance intercept : npfloat) : npfloat :=
  add intercept (mul velocity distance).

Definition expon_f (velocity distance intercept : npfloat) : npfloat :=
  add intercept (np_exp (mul velocity distance)).

Definition quadr_f (velocity distance intercept : npfloat) : npfloat :=
  add (mul intercept distance) (mul velocity (square distance)).

Definition logar_f (velocity distance intercept : npfloat) : npfloat :=
  add intercept (mul velocity (np_log distance)).

Definition asymp_f (velocity distance intercept : npfloat) : npfloat :=
  sub (Fin 1)
      (mul (sub (Fin 1) (Fin 0)) (np_exp (mul (neg velocity) distance))).

(** The function objects stored in [MODEL_DICT]. *)
Inductive regression : Type :=
| Linea_f
| Expon_f
| Quadr_f
| Logar_f
| Asymp_f.

(** The default of the keyword [intercept]: 1e-9 for [logar_f], else 0. *)
Definition default_intercept (f : regression) : npfloat :=
  match f with
  | Logar_f => Fin (/ 1000000000)
  | _ => Fin 0
  end.

(** A call [f(velocity=v, distance=d)] or [f(v, d, intercept)]. *)
Definition call (f : regression) (velocity distance : npfloat)
  (intercept : option npfloat) : npfloat :=
  let i := match intercept with
           | Some i => i
           | None => default_intercept f
           end in
  match f with
  | Linea_f => linea_f velocity distance i
  | Expon_f => expon_f velocity distance i
  | Quadr_f => quadr_f velocity distance i
  | Logar_f => logar_f velocity distance i
  | Asymp_f => asymp_f velocity distance i
  end.

(** [class Models(Enum)] and the [value] of each member. *)
Inductive Models : Type :=
| linear
| exponential
| quadratic
| logarithmic
| asymptotic.

Definition Models_value (m : Models) : string :=
  match m with
  | linear => "linear"
  | exponential => "exponential"
  | quadratic => "quadratic"
  | logarithmic => "logarithmic"
  | asymptotic => "asymptotic"
  end.

Definition all_Models : list Models :=
  [linear; exponential; quadratic; logarithmic; asymptotic].

Definition MODEL_DICT : list (string * regression) :=
  [("linear", Linea_f);
   ("exponential", Expon_f);
   ("quadratic", Quadr_f);
   ("logarithmic", Logar_f);
   ("asymptotic_func", Asymp_f)]%string.

(** What a caller may pass as [model]: a string, or a member of
    [Models] (a plain [Enum], whose members equal no string). *)
Inductive model_arg : Type :=
| Name (s : string)
| Member (m : Models).

Fixpoint dict_get {V : Type} (d : list (string * V)) (k : string)
  : option V :=
  match d with
  | [] => None
  | (k', v) :: r => if String.eqb k' k then Some v else dict_get r k
  end.

(** [MODEL_DICT[model]]. *)
Definition select_model (model : model_arg) : result regression :=
  match model with
  | Name s => lookup_or KeyError (dict_get MODEL_DICT s)
  | Member _ => Raise KeyError
  end.

(** ** The score stage: [GenerativeBase.get_logit] *)

Fixpoint map2 {A B C : Type} (f : A -> B -> C) (l : list A) (l' : list B)
  : list C :=
  match l, l' with
  | a :: r, b :: r' => f a b :: map2 f r r'
  | _, _ => []
  end.

(** [values = self.function(velocity=..., distance=...)]. *)
Definition scores (f : regression) (velocity distance : list npfloat)
  : list npfloat :=
  map2 (fun v d => call f v d None) velocity distance.

(** [values - values.mean() / values.std()]. *)
Definition centre (values : list npfloat) : list npfloat :=
  map (fun x => sub x (div (mean values) (std values))) values.

Definition get_logit (f : regression) (velocity distance : list npfloat)
  : list npfloat :=
  map scipy_special_expit (centre (scores f velocity distance)).

(** ** The collaborators outside the repository *)

(** The run's generator: [seeded n] is the generator NumPy builds
    from the seed [n], which cannot be negative; each draw returns a
    value and the generator's next state.  [rng_uniform g (low, high)]
    and [rng_normal g (loc, scale)] are one draw each; the source never
    passes a negative [scale]. *)
Class Generator (G : Type) : Type := {
  seeded : N -> G;
  rng_uniform : G -> npfloat * npfloat -> npfloat * G;
  rng_normal : G -> npfloat * npfloat -> npfloat * G
}.

(** [np.random.default_rng(seed)] for an integer [seed]: a negative
    seed is a ValueError. *)
Definition default_rng {G : Type} {gen : Generator G} (seed : Z) : result G :=
  if (seed <? 0)%Z then Raise ValueError else Ok (seeded (Z.to_N seed)).

(** NumPy's process-global legacy generator, the one behind
    [np.random.binomial] and behind [DataFrame.sample] when no
    [random_state] is passed.  [binomial1 s p] is one draw of
    [binomial(1, p)]; [choice s len n] is
    [choice(len, size=n, replace=False)]. *)
Class RandomState (S : Type) : Type := {
  binomial1 : S -> npfloat -> Z * S;
  choice : S -> nat -> nat -> list nat * S
}.

(** toytree: the tree [rtree.bdtree(ntips, seed)] returns, and
    [mod.node_scale_root_height(1.0)], which divides every branch
    length by the height of the tree and so raises (ZeroDivisionError)
    on a tree of height 0. *)
Class ToytreeLib : Type := {
  bdtree : Z -> Z -> TreeNode;
  node_scale_root_height : TreeNode -> result TreeNode
}.

(** What [rtree.bdtree(ntips, seed)] does besides returning a tree: it
    seeds NumPy's process-global generator and draws from it.
    [bdtree_leaves ntips seed s] is the global state the call leaves
    behind when it found the state [s]. *)
Class ToytreeGlobal (S : Type) : Type := {
  bdtree_leaves : Z -> Z -> S -> S
}.

(** A vectorised draw consumes the generator once per entry, in order. *)
Fixpoint draw_each {G A B : Type} (draw : G -> A -> B * G) (g : G)
  (l : list A) : list B * G :=
  match l with
  | [] => ([], g)
  | a :: r =>
      let '(b, g1) := draw g a in
      let '(bs, g2) := draw_each draw g1 r in
      (b :: bs, g2)
  end.

Definition np_abs (x : npfloat) : npfloat :=
  match x with
  | Fin r => Fin (Rabs r)
  | NInf => PInf
  | _ => x
  end.

(** ** [GenerativeBase] *)

(** [self.params]: the entries for beta, the psi means and the psi
    standard deviations. *)
Record Params : Type := mkParams {
  beta : npfloat;
  psi_means : list npfloat;
  psi_stds : list npfloat
}.

(** A row of [spdata]. *)
Record species : Type := mkSpecies {
  gidx : nat;
  psi : npfloat
}.

(** A row of [ridata] once the constructor is through. *)
Record ridata_row : Type := mkRow {
  pair_of : cross;
  distnorm : npfloat;
  joint_velo : npfloat;
  expit : npfloat
}.

(** A row handed out by [sample_observations]. *)
Record observation : Type := mkObservation {
  row_of : ridata_row;
  RI : Z
}.

Section Run.
Context {G : Type} {gen : Generator G}.

Definition get_true_param_dists (random : bool) (rng : G)
  (clade_idxs : list nat) : Params * G :=
  if random then
    let '(b, rng) := rng_uniform rng (Fin 3, Fin 5) in
    let '(means, rng) :=
      draw_each (fun g (_ : nat) => rng_uniform g (Fin 0, Fin 2))
                rng clade_idxs in
    let '(stds, rng) :=
      draw_each (fun g (_ : nat) =>
                   let '(x, g1) := rng_normal g (Fin 0, Fin 1) in
                   (np_abs x, g1))
                rng clade_idxs in
    (mkParams b means stds, rng)
  else
    (mkParams (Fin 10)
       (linspace (-1 # 2) (1 # 2) (List.length clade_idxs))
       (linspace (5 # 100) (25 # 100) (List.length clade_idxs)),
     rng).

(** [[array[i] for i in self.groups]]. *)
Definition take_at (array : list npfloat) (groups : list nat)
  : result (list npfloat) :=
  mapM (fun i => lookup_or IndexError (nth_error array i)) groups.

Definition get_species_data (rng : G) (params : Params)
  (groups : list nat) : result (list species * G) :=
  locs <- take_at (psi_means params) groups ;;
  scales <- take_at (psi_stds params) groups ;;
  let '(psis, rng) := draw_each rng_normal rng (combine locs scales) in
  Ok (map2 mkSpecies groups psis, rng).

(** [self.spdata['psi'][labels].values]: a label outside the index of
    [spdata] is a KeyError. *)
Definition psi_at (spdata : list species) (labels : list nat)
  : result (list npfloat) :=
  mapM (fun i => s <- lookup_or KeyError (nth_error spdata i) ;; Ok (psi s))
       labels.

Record velocities : Type := mkVelocities {
  v_rows : list cross;
  v_distnorm : list npfloat;
  v_joint_velo : list npfloat
}.

Definition get_velocities (t : TreeNode) (crosses : list cross)
  (params : Params) (spdata : list species) (rng : G)
  : result (velocities * G) :=
  let rows := sort_values (crosses ++ nulls t) in
  let dists := map (fun r => of_float (dist r)) rows in
  let dnorm := map (fun d => div (sub d (mean dists)) (mean dists)) dists in
  psi0 <- psi_at spdata (map sidx0 rows) ;;
  psi1 <- psi_at spdata (map sidx1 rows) ;;
  let locs := map2 (fun a b => add (add (beta params) a) b) psi0 psi1 in
  let '(velo, rng) :=
    draw_each (fun g loc => rng_normal g (loc, Fin 1)) rng locs in
  Ok (mkVelocities rows dnorm velo, rng).

(** The attributes of a constructed run; [ridata_RI] is the column
    [RI] of [ridata], absent until [sample_observations] writes it. *)
Record GenerativeBase : Type := mkRun {
  rng : G;
  tree : TreeNode;
  clade_idxs : list nat;
  function : regression;
  group_sizes : list (nat * nat);
  groups : list nat;
  params : Params;
  spdata : list species;
  ridata : list ridata_row;
  ridata_RI : option (list Z)
}.

Fixpoint zip_rows (rows : list cross) (dn jv ex : list npfloat)
  : list ridata_row :=
  match rows, dn, jv, ex with
  | r :: rows', d :: dn', j :: jv', e :: ex' =>
      mkRow r d j e :: zip_rows rows' dn' jv' ex'
  | _, _, _, _ => []
  end.

Context {toytree : ToytreeLib}.

(** [GenerativeBase.__init__], stage by stage: the generator is built
    first, then the tree is scaled, then the model is looked up. *)
Definition GenerativeBase_init (tree0 : TreeNode) (clade_idxs : list nat)
  (model : model_arg) (seed : Z) : result GenerativeBase :=
  rng0 <- default_rng seed ;;
  t <- node_scale_root_height tree0 ;;
  f <- select_model model ;;
  gg <- get_groups t clade_idxs ;;
  crosses <- get_crosses t ;;
  let '(params, rng1) := get_true_param_dists false rng0 clade_idxs in
  sp <- get_species_data rng1 params (snd gg) ;;
  vv <- get_velocities t crosses params (fst sp) (snd sp) ;;
  let v := fst vv in
  let ex := get_logit f (v_joint_velo v)
              (map (fun r => of_float (dist r)) (v_rows v)) in
  Ok (mkRun (snd vv) t clade_idxs f (fst gg) (snd gg) params (fst sp)
            (zip_rows (v_rows v) (v_distnorm v) (v_joint_velo v) ex)
            None).

(** [UserTree] only forwards its arguments. *)
Definition UserTree := GenerativeBase_init.

(** [RandomTree.get_bd_tree]. *)
Definition get_bd_tree (ntips : Z) : TreeNode := bdtree ntips 666.

(** [RandomTree.__init__].  The call of [bdtree] also reseeds the
    process-global generator ([bdtree_leaves]); the constructor reads
    nothing of that generator, and [generate], which runs after it in
    the same process, is where the effect is threaded. *)
Definition RandomTree (ntips : Z) (nclades : option Z) (model : model_arg)
  (seed : Z) : result GenerativeBase :=
  let t := get_bd_tree ntips in
  clade_idxs <- get_clade_idxs t nclades ;;
  GenerativeBase_init t clade_idxs model seed.

(** ** [GenerativeBase.sample_observations] *)

Context {S : Type} {glob : RandomState S}.

(** [binomial] accepts a probability in [0, 1] only. *)
Definition valid_p (p : npfloat) : bool :=
  match p with
  | Fin r =>
      if Rle_dec 0 r then (if Rle_dec r 1 then true else false) else false
  | _ => false
  end.

(** [np.random.binomial(1, p)] over a column: the arguments are
    checked first, then one draw per row from the global state. *)
Definition np_random_binomial (s : S) (p : list npfloat)
  : result (list Z * S) :=
  if forallb valid_p p then Ok (draw_each binomial1 s p)
  else Raise ValueError.

(** [DataFrame.sample(n)]: no replacement, no [random_state]. *)
Definition DataFrame_sample {A : Type} (s : S) (df : list A) (n : Z)
  : result (list A * S) :=
  if (n <? 0)%Z then Raise ValueError
  else if (Z.of_nat (List.length df) <? n)%Z then Raise ValueError
  else
    let '(positions, s1) := choice s (List.length df) (Z.to_nat n) in
    rows <- mapM (fun i => lookup_or IndexError (nth_error df i))
                 positions ;;
    Ok (rows, s1).

(** The table with its [RI] column, as [self.ridata.copy()] shows it. *)
Definition with_RI (rows : list ridata_row) (ri : list Z)
  : list observation :=
  map2 mkObservation rows ri.

(** [self.ridata["RI"] = ri]. *)
Definition set_RI (self : GenerativeBase) (ri : list Z) : GenerativeBase :=
  mkRun (rng self) (tree self) (clade_idxs self) (function self)
        (group_sizes self) (groups self) (params self)
        (spdata self) (ridata self) (Some ri).

(** The call returns a table or raises, and leaves behind the run
    (whose [ridata] has a new [RI] column) and the global state. *)
Definition sample_observations (self : GenerativeBase)
  (nsamples : option Z) (s : S)
  : result (list observation) * GenerativeBase * S :=
  match np_random_binomial s (map expit (ridata self)) with
  | Raise e => (Raise e, self, s)
  | Ok (ri, s1) =>
      let self1 := set_RI self ri in
      let table := with_RI (ridata self) ri in
      match nsamples with
      | None | Some 0%Z => (Ok table, self1, s1)
      | Some n =>
          match DataFrame_sample s1 table n with
          | Raise e => (Raise e, self1, s1)
          | Ok (sub, s2) => (Ok sub, self1, s2)
          end
      end
  end.

End Run.

(** ** Stand-ins for the collaborators

    Enough to run the code on examples: a generator whose state counts
    its draws and whose normal and uniform draws return the location
    and the lower bound; a global state whose Bernoulli draws alternate
    and whose choice takes the highest positions; a tree generator that
    returns a ladder and leaves the global state at its seed, and a
    scaling that divides every branch length by the distance from the
    root to its farthest tip. *)

Module Demo.

#[export] Instance counting_generator : Generator nat := {|
  seeded := N.to_nat;
  rng_uniform := fun g bounds => (fst bounds, Datatypes.S g);
  rng_normal := fun g loc_scale => (fst loc_scale, Datatypes.S g)
|}.

#[export] Instance alternating_state : RandomState nat := {|
  binomial1 := fun s _ => (Z.of_nat (s mod 2), Datatypes.S s);
  choice := fun s len n => (firstn n (rev (seq 0 len)), Datatypes.S s)
|}.

(** The ladder on [n] tips, from the node above the tips 0 .. m+1 down. *)
Fixpoint ladder (n m : nat) : TreeNode :=
  match m with
  | O => mkNode n 1 [mkNode 1 1 []; mkNode 0 1 []]
  | Datatypes.S m' => mkNode (n + m) 1 [mkNode (m + 1) 1 []; ladder n m']
  end.

(** The height of the root: the distance to its farthest tip. *)
Fixpoint root_height (t : TreeNode) : float :=
  match t with
  | mkNode _ _ cs =>
      fold_left
        (fun h c =>
           let h' := (Toytree.dist c + root_height c)%float in
           if PrimFloat.ltb h h' then h' else h)
        cs 0%float
  end.

(** [node.dist = node.dist / height * treeheight] on every node. *)
Fixpoint scale_by (height treeheight : float) (t : TreeNode) : TreeNode :=
  match t with
  | mkNode i d cs =>
      mkNode i (d / height * treeheight)%float
        (map (scale_by height treeheight) cs)
  end.

(** Python raises on a float division by zero. *)
Definition scale_root_height (treeheight : float) (t : TreeNode) :
  result TreeNode :=
  if PrimFloat.eqb (root_height t) 0 then Raise ZeroDivisionError
  else Ok (scale_by (root_height t) treeheight t).

#[export] Instance ladder_toytree : ToytreeLib := {|
  bdtree := fun ntips _ => ladder (Z.to_nat ntips) (Z.to_nat ntips - 2);
  node_scale_root_height := scale_root_height 1
|}.

#[export] Instance reseeding_toytree : ToytreeGlobal nat := {|
  bdtree_leaves := fun _ seed _ => Z.to_nat seed
|}.

End Demo.

Import Demo.

(** ** Vocabulary of the statements *)

(** The key the table is sorted by. *)
Definition key (r : cross) : nat * nat := (sidx0 r, sidx1 r).

(** Strictly ascending in [(sidx0, sidx1)]. *)
Definition cross_lt (a b : cross) : Prop :=
  sidx0 a < sidx0 b \/ (sidx0 a = sidx0 b /\ sidx1 a < sidx1 b).

(** What [get_crosses] stores for one pair of tips. *)
Definition cross_of_pair (t : TreeNode) (p : nat * nat) (r : cross) : Prop :=
  key r = p /\
  exists d, get_dist t (fst p) (snd p) = Ok d /\ dist r = (d / 2)%float.

(** The partitioner as the specification words it, to compare with
    [get_clade_idxs]: the anchor with the fewest children is expanded,
    and among anchors with equally few children the one with the lowest
    node index. *)
Definition spec_sorted_by_children (t : TreeNode) (clade_idxs : list nat)
  : result (list (nat * nat)) :=
  keyed <- mapM (fun x => k <- nchildren t x ;; Ok (k, x)) clade_idxs ;;
  Ok (stable_sort
        (fun a b =>
           (fst a <? fst b) || ((fst a =? fst b) && (snd a <=? snd b)))
        keyed).

Definition spec_expand_step (t : TreeNode) (clade_idxs : list nat)
  : result (list nat) :=
  sidxs <- spec_sorted_by_children t clade_idxs ;;
  match sidxs with
  | [] => Raise IndexError
  | (_, nidx) :: _ =>
      n <- lookup_or KeyError (idx_dict t nidx) ;;
      Ok (remove_first nidx clade_idxs ++ map idx (children n))
  end.

Fixpoint spec_expand_loop (t : TreeNode) (turns : nat) (clade_idxs : list nat)
  : result (list nat) :=
  match turns with
  | O => Ok clade_idxs
  | S k =>
      l <- spec_expand_step t clade_idxs ;;
      spec_expand_loop t k l
  end.

Definition spec_partition (t : TreeNode) (nclades : Z) : result (list nat) :=
  spec_expand_loop t (Z.to_nat (nclades - 1)) [idx t].

(** Whether each of the next [turns] turns expands an anchor with
    exactly two children. *)
Fixpoint binary_selections (t : TreeNode) (turns : nat)
  (clade_idxs : list nat) : bool :=
  match turns with
  | O => true
  | S k =>
      match sorted_by_children t clade_idxs, expand_step t clade_idxs with
      | Ok ((c, _) :: _), Ok l => (c =? 2) && binary_selections t k l
      | _, _ => false
      end
  end.

(** The number of children of the node labelled [x], when there is one. *)
Definition child_count (t : TreeNode) (x : nat) : option nat :=
  option_map (fun n => List.length (children n)) (idx_dict t x).

(** The tip indices below the node labelled [anchor]. *)
Definition tip_idxs (t : TreeNode) (anchor : nat) : result (list nat) :=
  n <- lookup_or KeyError (idx_dict t anchor) ;;
  Ok (map idx (get_leaves n)).

(** The nodes of a tree that have children. *)
Definition internal_nodes (t : TreeNode) : list TreeNode :=
  filter (fun n => negb (List.length (children n) =? 0)) (traverse t).

(** The column [dist] of a constructed table, as floats. *)
Definition dist_of (r : ridata_row) : npfloat := of_float (dist (pair_of r)).

(** The score of a row before centring. *)
Definition score_of (f : regression) (r : ridata_row) : npfloat :=
  call f (joint_velo r) (dist_of r) None.

(** [values.mean() / values.std()] over the scores of a table. *)
Definition shift_of (f : regression) (rows : list ridata_row) : npfloat :=
  let values := scores f (map joint_velo rows) (map dist_of rows) in
  div (mean values) (std values).

(** What the root-height scaling keeps whatever it does to the branch
    lengths: the tips of the tree. *)
Definition scaling_keeps_tips (toytree : ToytreeLib) : Prop :=
  forall t t', node_scale_root_height t = Ok t' -> ntips t' = ntips t.

(** What [choice(len, size=n, replace=False)] promises: [n] distinct
    positions below [len]. *)
Definition choice_without_replacement {S : Type} (glob : RandomState S)
  : Prop :=
  forall s len n, n <= len ->
    List.length (fst (choice s len n)) = n
    /\ NoDup (fst (choice s len n))
    /\ Forall (fun i => i < len) (fst (choice s len n)).

(** toytree labels the nodes of a tree with distinct indices. *)
Definition distinct_labels (t : TreeNode) : Prop :=
  NoDup (map idx (traverse t)).

(** Whether each of the next [turns] turns expands an anchor that has
    children. *)
Fixpoint expands_internal (t : TreeNode) (turns : nat)
  (clade_idxs : list nat) : bool :=
  match turns with
  | O => true
  | S k =>
      match sorted_by_children t clade_idxs, expand_step t clade_idxs with
      | Ok ((c, _) :: _), Ok l => negb (c =? 0) && expands_internal t k l
      | _, _ => false
      end
  end.

(** The first node labelled [x] taken out of a list of nodes. *)
Fixpoint remove_first_node (x : nat) (nodes : list TreeNode)
  : list TreeNode :=
  match nodes with
  | [] => []
  | n :: r => if idx n =? x then r else n :: remove_first_node x r
  end.

(** The nodes behind a list of anchors, and the tips below them. *)
Definition anchors_hold (t : TreeNode) (l : list nat) : Prop :=
  exists nodes,
    Forall (fun n => In n (traverse t)) nodes
    /\ map idx nodes = l
    /\ Permutation (flat_map get_leaves nodes) (get_leaves t).

(** ** [logistic.py]: [BaseLogisticModel.__init__]

    The fitting side of the package: the constructor stores its
    arguments, numbers the clades found in [spdata] and selects the
    regression function by name.  The pymc3 model object it also
    creates is outside the embedding. *)

Module Logistic.

(** [Series.unique()]: the values in the order of their first
    appearance. *)
Fixpoint unique_from (seen : list nat) (l : list nat) : list nat :=
  match l with
  | [] => []
  | x :: r =>
      if existsb (Nat.eqb x) seen then unique_from seen r
      else x :: unique_from (x :: seen) r
  end.

Definition Series_unique (l : list nat) : list nat := unique_from [] l.

(** The values stored in [sample_kwargs]. *)
Inductive kwarg : Type :=
| KInt (z : Z)
| KFloat (q : Q)
| KBool (b : bool).

(** The dictionary [functions] of [BaseLogisticModel.__init__]. *)
Definition functions : list (string * regression) :=
  [("linear", Linea_f);
   ("exponential", Expon_f);
   ("quadratic", Quadr_f);
   ("logarithmic", Logar_f);
   ("asymptotic_func", Asymp_f)]%string.

Record BaseLogisticModel : Type := mkFit {
  tree : TreeNode;
  spdata : list species;
  ridata : list observation;
  func : string;
  clades : list nat;
  sample_kwargs : list (string * kwarg);
  function : regression
}.

(** [BaseLogisticModel.__init__]: the clades are numbered before the
    function is looked up. *)
Definition BaseLogisticModel_init (tree0 : TreeNode) (spdata0 : list species)
  (ridata0 : list observation) (model : string) : result BaseLogisticModel :=
  let clades0 := map fst (enumerate (Series_unique (map gidx spdata0))) in
  let kwargs :=
    [("tune", KInt 2000);
     ("draws", KInt 2000);
     ("target_accept", KFloat (95 # 100));
     ("return_inferencedata", KBool false);
     ("progressbar", KBool true)]%string in
  f <- lookup_or KeyError (dict_get functions model) ;;
  Ok (mkFit tree0 spdata0 ridata0 model clades0 kwargs f).

End Logistic.

(** ** [viz.py] *)

Module Viz.

(** The fill of a cell of the heatmap. *)
Inductive fill : Type :=
| lightgrey
| red
| black.

(** [if value: color = "red"], [if not value: color = "black"]. *)
Definition color_of (value : Z) : fill :=
  if (value =? 0)%Z then black else red.

(** The cell an observation colours: the row index is flipped, the
    column index is not. *)
Definition cell_of (ntips : Z) (o : observation) : Z * Z :=
  let ridx := Z.of_nat (sidx0 (pair_of (row_of o))) in
  let cidx := Z.of_nat (sidx1 (pair_of (row_of o))) in
  let rridx := (ntips - ridx - 1)%Z in
  (rridx, cidx).

(** The assignments of the loop of [heatmap_tree_plot], in its order. *)
Definition heatmap_assignments (ntips : Z) (ridata : list observation)
  : list ((Z * Z) * fill) :=
  map (fun o => (cell_of ntips o, color_of (RI o))) ridata.

Definition same_cell (a b : Z * Z) : bool :=
  (fst a =? fst b)%Z && (snd a =? snd b)%Z.

(** The fill of a cell once the loop is through: light grey unless an
    assignment reached the cell, then the fill of the last one. *)
Definition cell_fill (ntips : Z) (ridata : list observation) (cell : Z * Z)
  : fill :=
  fold_left
    (fun acc a => if same_cell (fst a) cell then snd a else acc)
    (heatmap_assignments ntips ridata) lightgrey.




(** [np.random.uniform(low, high)] of the process-global generator. *)
Class GlobalUniform (S : Type) : Type := {
  uniform1 : S -> npfloat * npfloat -> npfloat * S
}.

Section Scatter.
Context {S : Type} {glob : GlobalUniform S}.


End Scatter.

End Viz.

(** ** [__main__.py]: the command [generate] *)

Section CommandLine.
Context {G : Type} {gen : Generator G} {toytree : ToytreeLib}.
Context {S : Type} {glob : RandomState S} {reseeds : ToytreeGlobal S}.

(** [generate]: with a tree path it only announces the work; with the
    empty path it builds a [RandomTree] from the options, the model
    being the member of [Models] the command line parsed, and samples
    [ncrosses] observations.  The command returns nothing: the value
    here is the table whose head its last [print] shows, [None] when
    it never asks for one.  The global state is the one [bdtree], the
    first call of [RandomTree], leaves behind, advanced by the
    sampling if the command gets that far. *)
Definition generate (tree : string) (ncrosses ntips nclades : Z)
  (model : Models) (name_prefix : string) (seed : Z) (s : S)
  : result (option (list observation)) * S :=
  if (tree =? "")%string then
    let s0 := bdtree_leaves ntips 666 s in
    match RandomTree ntips (Some nclades) (Member model) seed with
    | Raise e => (Raise e, s0)
    | Ok tool =>
        let '(out, _, s1) := sample_observations tool (Some ncrosses) s0 in
        match out with
        | Ok table => (Ok (Some table), s1)
        | Raise e => (Raise e, s1)
        end
    end
  else (Ok None, s).
End CommandLine.

(** ** Vocabulary of the further statements *)

(** A float that [rng.normal] accepts as a scale: not a negative real
    and not -inf. *)
Definition valid_scale (x : npfloat) : Prop :=
  match x with
  | Fin r => (0 <= r)%R
  | NInf => False
  | _ => True
  end.

(** A real number between two bounds. *)
Definition real_between (lo hi : R) (x : npfloat) : Prop :=
  match x with
  | Fin r => (lo <= r <= hi)%R
  | _ => False
  end.

(** The parameters of the fixed mode for a list of anchors. *)
Definition fixed_params (clade_idxs : list nat) : Params :=
  mkParams (Fin 10)
    (linspace (-1 # 2) (1 # 2) (List.length clade_idxs))
    (linspace (5 # 100) (25 # 100) (List.length clade_idxs)).

(** The first root path to the label [i] among a list of subtrees: the
    search [path_to] runs through the children of a node. *)
Fixpoint first_path (i : nat) (cs : list TreeNode)
  : option (list TreeNode) :=
  match cs with
  | [] => None
  | c :: r =>
      match path_to i c with
      | Some p => Some p
      | None => first_path i r
      end
  end.

(** The array [groups] for clades numbered from [s] on: each clade
    number repeated as often as its size says. *)
Definition blocks (s : nat) (sizes : list nat) : list nat :=
  List.concat
    (map (fun '(i, size) => repeat i size)
         (combine (seq s (List.length sizes)) sizes)).


(** * Properties *)

(** ** The code on the example trees *)

Example get_clade_idxs_two_clades :
  get_clade_idxs balanced4 (Some 2%Z) = Ok [5; 4].
Proof. reflexivity. Qed.

Example get_groups_two_clades :
  get_groups balanced4 [5; 4] = Ok ([(0, 2); (1, 2)], [0; 0; 1; 1]).
Proof. reflexivity. Qed.

Example get_dist_across_the_root :
  get_dist balanced4 3 0 = Ok 2%float.
Proof. reflexivity. Qed.

Example get_dist_within_a_cherry :
  get_dist balanced4 3 2 = Ok 1%float.
Proof. reflexivity. Qed.

Example get_crosses_one_tip :
  get_crosses (mkNode 0 0 []) = Raise ValueError.
Proof. reflexivity. Qed.

Example scaling_of_the_ladder :
  node_scale_root_height caterpillar4_unscaled = Ok caterpillar4.
Proof. reflexivity. Qed.

Example scaling_of_a_flat_tree :
  node_scale_root_height cherry_flat = Raise ZeroDivisionError
  /\ UserTree (G:=nat) cherry_flat [2] (Name "linear") 12345
     = Raise ZeroDivisionError.
Proof. split; reflexivity. Qed.

Example negative_seed :
  UserTree (G:=nat) cherry [2] (Name "linear") (-1) = Raise ValueError
  /\ UserTree (G:=nat) cherry_flat [2] (Name "nothing") (-1)
     = Raise ValueError.
Proof. split; reflexivity. Qed.

(** ** The error monad and the list helpers *)

Ltac inv_bind H :=
  match type of H with
  | bind ?m _ = Ok _ =>
      let E := fresh "E" in
      destruct m eqn:E; [cbn [bind] in H | discriminate H]
  end.

Lemma mapM_length {A B : Type} (f : A -> result B) (l : list A) (l' : list B) :
  mapM f l = Ok l' -> List.length l' = List.length l.
Proof.
  revert l'.
  induction l as [|a r IH]; intros l' H; cbn in H.
  - injection H as <-. reflexivity.
  - inv_bind H. inv_bind H. injection H as <-.
    cbn. f_equal. now apply IH.
Qed.

Lemma mapM_Forall2 {A B : Type} (f : A -> result B) (l : list A) (l' : list B) :
  mapM f l = Ok l' -> Forall2 (fun a b => f a = Ok b) l l'.
Proof.
  revert l'.
  induction l as [|a r IH]; intros l' H; cbn in H.
  - injection H as <-. constructor.
  - inv_bind H. inv_bind H. injection H as <-.
    constructor; auto.
Qed.

Lemma Forall2_In_l {A B : Type} (P : A -> B -> Prop) l l' a :
  Forall2 P l l' -> In a l -> exists b, In b l' /\ P a b.
Proof.
  induction 1 as [|x y l l' Hxy _ IH]; intros Hin; [easy|].
  destruct Hin as [<-|Hin].
  - exists y. split; [now left | assumption].
  - destruct (IH Hin) as (b & Hb & Hab). exists b. split; [now right | assumption].
Qed.

Lemma Forall2_In_r {A B : Type} (P : A -> B -> Prop) l l' b :
  Forall2 P l l' -> In b l' -> exists a, In a l /\ P a b.
Proof.
  induction 1 as [|x y l l' Hxy _ IH]; intros Hin; [easy|].
  destruct Hin as [<-|Hin].
  - exists x. split; [now left | assumption].
  - destruct (IH Hin) as (a & Ha & Hab). exists a. split; [now right | assumption].
Qed.

Lemma draw_each_length {G A B : Type} (draw : G -> A -> B * G) g l :
  List.length (fst (draw_each draw g l)) = List.length l.
Proof.
  revert g.
  induction l as [|a r IH]; intros g; cbn; [reflexivity|].
  destruct (draw g a) as [b g1].
  specialize (IH g1). destruct (draw_each draw g1 r) as [bs g2].
  cbn in *. now rewrite IH.
Qed.

Lemma map2_length {A B C : Type} (f : A -> B -> C) l l' :
  List.length l = List.length l' ->
  List.length (map2 f l l') = List.length l.
Proof.
  revert l'.
  induction l as [|a r IH]; intros [|b r'] H; cbn in *; try easy.
  f_equal. apply IH. lia.
Qed.

(** ** The insertion sort returns a sorted rearrangement *)

Section StableSortFacts.
Variable A : Type.
Variable leb : A -> A -> bool.
Hypothesis leb_total : forall a b, leb a b = true \/ leb b a = true.
Hypothesis leb_trans :
  forall a b c, leb a b = true -> leb b c = true -> leb a c = true.

Lemma insert_sorted_perm x l : Permutation (x :: l) (insert_sorted leb x l).
Proof.
  induction l as [|y r IH]; cbn.
  - apply Permutation_refl.
  - destruct (leb x y).
    + apply Permutation_refl.
    + eapply perm_trans; [apply perm_swap|]. now apply perm_skip.
Qed.

Lemma stable_sort_perm l : Permutation l (stable_sort leb l).
Proof.
  induction l as [|x r IH]; cbn.
  - constructor.
  - eapply perm_trans; [|apply insert_sorted_perm]. now apply perm_skip.
Qed.

Lemma insert_sorted_sorted x l :
  StronglySorted (fun a b => leb a b = true) l ->
  StronglySorted (fun a b => leb a b = true) (insert_sorted leb x l).
Proof.
  induction 1 as [|y r Hr IH Hy]; cbn.
  - repeat constructor.
  - destruct (leb x y) eqn:E.
    + constructor; [now constructor|].
      constructor; [assumption|].
      eapply Forall_impl; [|exact Hy]. intros c Hc. eapply leb_trans; eauto.
    + constructor; [assumption|].
      assert (Hyx : leb y x = true)
        by (destruct (leb_total x y) as [H|H]; congruence).
      eapply Permutation_Forall; [apply insert_sorted_perm|].
      now constructor.
Qed.

Lemma stable_sort_sorted l :
  StronglySorted (fun a b => leb a b = true) (stable_sort leb l).
Proof.
  induction l as [|x r IH]; cbn.
  - constructor.
  - now apply insert_sorted_sorted.
Qed.
End StableSortFacts.

(** ** [itertools.combinations(range(n), 2)] *)

Lemma combinations2_length {A : Type} (l : list A) :
  2 * List.length (combinations2 l) = List.length l * (List.length l - 1).
Proof.
  induction l as [|x r IH]; cbn [combinations2 List.length]; [reflexivity|].
  rewrite length_app, length_map. nia.
Qed.

Lemma combinations2_seq_In s n a b :
  In (a, b) (combinations2 (seq s n)) <-> s <= a /\ a < b /\ b < s + n.
Proof.
  revert s.
  induction n as [|n IH]; intros s; cbn [seq combinations2].
  - cbn. lia.
  - rewrite in_app_iff, in_map_iff, IH. split.
    + intros [(y & Hy & Hin)|H].
      * injection Hy as <- <-. apply in_seq in Hin. lia.
      * lia.
    + intros (H1 & H2 & H3).
      destruct (Nat.eq_dec a s) as [->|Hne].
      * left. exists b. split; [reflexivity|]. apply in_seq. lia.
      * right. lia.
Qed.

Lemma combinations2_seq_NoDup s n : NoDup (combinations2 (seq s n)).
Proof.
  revert s.
  induction n as [|n IH]; intros s; cbn [seq combinations2].
  - constructor.
  - apply NoDup_app.
    + apply Finite.Injective_map_NoDup; [|apply seq_NoDup].
      intros x y H. now injection H.
    + apply IH.
    + intros [a b] H1 H2.
      apply in_map_iff in H1. destruct H1 as (y & Hy & _).
      injection Hy as <- <-.
      apply combinations2_seq_In in H2. lia.
Qed.

(** ** The pair table *)

Lemma cross_leb_total a b : cross_leb a b = true \/ cross_leb b a = true.
Proof.
  unfold cross_leb.
  destruct (Nat.lt_trichotomy (sidx0 a) (sidx0 b)) as [H|[H|H]].
  - left. apply orb_true_iff. left. now apply Nat.ltb_lt.
  - destruct (Nat.le_ge_cases (sidx1 a) (sidx1 b)) as [H1|H1].
    + left. apply orb_true_iff. right. apply andb_true_iff.
      split; [now apply Nat.eqb_eq | now apply Nat.leb_le].
    + right. apply orb_true_iff. right. apply andb_true_iff.
      split; [now apply Nat.eqb_eq | now apply Nat.leb_le].
  - right. apply orb_true_iff. left. now apply Nat.ltb_lt.
Qed.

Lemma cross_leb_spec a b :
  cross_leb a b = true <->
  sidx0 a < sidx0 b \/ (sidx0 a = sidx0 b /\ sidx1 a <= sidx1 b).
Proof.
  unfold cross_leb.
  rewrite orb_true_iff, andb_true_iff, Nat.ltb_lt, Nat.eqb_eq, Nat.leb_le.
  reflexivity.
Qed.

Lemma cross_leb_trans a b c :
  cross_leb a b = true -> cross_leb b c = true -> cross_leb a c = true.
Proof. rewrite !cross_leb_spec. lia. Qed.

Lemma sort_values_perm rows : Permutation rows (sort_values rows).
Proof. apply stable_sort_perm. Qed.

Lemma sort_values_sorted rows :
  StronglySorted (fun a b => cross_leb a b = true) (sort_values rows).
Proof.
  apply stable_sort_sorted; [apply cross_leb_total | apply cross_leb_trans].
Qed.

Lemma sorted_strict rows :
  StronglySorted (fun a b => cross_leb a b = true) rows ->
  NoDup (map key rows) ->
  StronglySorted cross_lt rows.
Proof.
  induction 1 as [|a r Hr IH Ha]; intros Hnd; [constructor|].
  cbn in Hnd. apply NoDup_cons_iff in Hnd. destruct Hnd as [Hnotin Hnd].
  constructor; [now apply IH|].
  apply Forall_forall. intros b Hb.
  rewrite Forall_forall in Ha. specialize (Ha b Hb).
  apply cross_leb_spec in Ha. unfold cross_lt.
  destruct Ha as [Ha|[Ha0 Ha1]]; [now left|].
  destruct (Nat.eq_dec (sidx1 a) (sidx1 b)) as [Heq|Hne]; [|right; lia].
  exfalso. apply Hnotin. apply in_map_iff. exists b. split; [|assumption].
  unfold key. congruence.
Qed.

Lemma get_crosses_spec t crosses :
  get_crosses t = Ok crosses ->
  2 <= ntips t /\
  Forall2 (cross_of_pair t) (combinations2 (range (ntips t))) crosses.
Proof.
  unfold get_crosses. intros H.
  assert (Hn : 2 <= ntips t).
  { destruct (ntips t) as [|[|n]]; cbn in H; try discriminate. lia. }
  split; [assumption|].
  destruct (combinations2 (range (ntips t))) as [|p ps] eqn:E;
    [discriminate|].
  apply mapM_Forall2 in H.
  eapply Forall2_impl; [|exact H].
  intros [i j] r Hr. cbn beta iota in Hr.
  inv_bind Hr. injection Hr as <-.
  split; [reflexivity|]. exists a. split; [assumption | reflexivity].
Qed.

Lemma Forall2_keys t pairs crosses :
  Forall2 (cross_of_pair t) pairs crosses -> map key crosses = pairs.
Proof.
  induction 1 as [|p r ps rs [Hk _] _ IH]; cbn; [reflexivity|].
  now rewrite Hk, IH.
Qed.

Lemma nulls_keys t : map key (nulls t) = map (fun i => (i, i)) (range (ntips t)).
Proof. unfold nulls. rewrite map_map. reflexivity. Qed.

Lemma table_keys_NoDup t crosses :
  get_crosses t = Ok crosses -> NoDup (map key (crosses ++ nulls t)).
Proof.
  intros H. apply get_crosses_spec in H. destruct H as [_ H].
  rewrite map_app, (Forall2_keys H), nulls_keys.
  apply NoDup_app.
  - apply combinations2_seq_NoDup.
  - apply Finite.Injective_map_NoDup; [|apply seq_NoDup].
    intros x y E. now injection E.
  - intros [a b] H1 H2.
    apply combinations2_seq_In in H1.
    apply in_map_iff in H2. destruct H2 as (i & Hi & _).
    injection Hi as <- <-. lia.
Qed.

Lemma table_length t crosses :
  get_crosses t = Ok crosses ->
  List.length (sort_values (crosses ++ nulls t))
  = ntips t * (ntips t - 1) / 2 + ntips t.
Proof.
  intros H. apply get_crosses_spec in H. destruct H as [_ H].
  rewrite <- (Permutation_length (sort_values_perm _)).
  rewrite length_app. unfold nulls. rewrite length_map.
  unfold range in *. rewrite length_seq. f_equal.
  apply Forall2_length in H. rewrite <- H.
  pose proof (combinations2_length (seq 0 (ntips t))) as E.
  rewrite length_seq in E. rewrite <- E.
  rewrite Nat.mul_comm. symmetry. apply Nat.div_mul. discriminate.
Qed.

(** Every row of the sorted table is a cross or a within-species row. *)
Lemma table_row_origin t crosses r :
  get_crosses t = Ok crosses ->
  In r (sort_values (crosses ++ nulls t)) ->
  (sidx0 r < sidx1 r /\ sidx1 r < ntips t /\
   exists d, get_dist t (sidx0 r) (sidx1 r) = Ok d /\ dist r = (d / 2)%float)
  \/ (sidx0 r = sidx1 r /\ sidx1 r < ntips t /\ dist r = 0%float).
Proof.
  intros H Hin. apply get_crosses_spec in H. destruct H as [_ H].
  eapply Permutation_in in Hin; [|apply Permutation_sym, sort_values_perm].
  apply in_app_iff in Hin. destruct Hin as [Hin|Hin].
  - left. destruct (Forall2_In_r _ H Hin) as ([i j] & Hp & Hk & d & Hd & Hc).
    apply combinations2_seq_In in Hp.
    unfold key in Hk. injection Hk as -> ->. cbn in Hd.
    repeat split; try lia. now exists d.
  - right. unfold nulls in Hin. apply in_map_iff in Hin.
    destruct Hin as (i & <- & Hi). apply in_seq in Hi. cbn. repeat split; lia.
Qed.

Lemma table_complete t crosses i j :
  get_crosses t = Ok crosses -> i <= j -> j < ntips t ->
  exists r, In r (sort_values (crosses ++ nulls t)) /\ key r = (i, j).
Proof.
  intros H Hij Hj. apply get_crosses_spec in H. destruct H as [_ H].
  destruct (Nat.eq_dec i j) as [->|Hne].
  - exists (mkCross j j 0). split; [|reflexivity].
    eapply Permutation_in; [apply sort_values_perm|].
    apply in_app_iff. right. unfold nulls. apply in_map_iff.
    exists j. split; [reflexivity|]. apply in_seq. lia.
  - assert (Hp : In (i, j) (combinations2 (range (ntips t))))
      by (apply combinations2_seq_In; lia).
    destruct (Forall2_In_l _ H Hp) as (r & Hr & Hk & _).
    exists r. split; [|assumption].
    eapply Permutation_in; [apply sort_values_perm|].
    apply in_app_iff. now left.
Qed.

(** ** The constructor, read backwards *)

Lemma zip_rows_columns rows dn jv ex :
  List.length dn = List.length rows ->
  List.length jv = List.length rows ->
  List.length ex = List.length rows ->
  map pair_of (zip_rows rows dn jv ex) = rows
  /\ map distnorm (zip_rows rows dn jv ex) = dn
  /\ map joint_velo (zip_rows rows dn jv ex) = jv
  /\ map expit (zip_rows rows dn jv ex) = ex.
Proof.
  revert dn jv ex.
  induction rows as [|r rows IH]; intros [|d dn] [|j jv] [|e ex] H1 H2 H3;
    cbn in *; try discriminate; [repeat split|].
  injection H1 as H1. injection H2 as H2. injection H3 as H3.
  destruct (IH dn jv ex H1 H2 H3) as (E1 & E2 & E3 & E4).
  repeat split; f_equal; assumption.
Qed.

Lemma get_logit_length f velocity distance :
  List.length velocity = List.length distance ->
  List.length (get_logit f velocity distance) = List.length velocity.
Proof.
  intros H. unfold get_logit, centre, scores.
  rewrite !length_map. now apply map2_length.
Qed.

Section RunFacts.
Context {G : Type} {gen : Generator G} {toytree : ToytreeLib}.

Lemma get_velocities_spec t crosses params spdata rng vv :
  get_velocities t crosses params spdata rng = Ok vv ->
  v_rows (fst vv) = sort_values (crosses ++ nulls t)
  /\ List.length (v_distnorm (fst vv)) = List.length (v_rows (fst vv))
  /\ List.length (v_joint_velo (fst vv)) = List.length (v_rows (fst vv)).
Proof.
  unfold get_velocities. intros H.
  inv_bind H. inv_bind H.
  apply mapM_length in E, E0. rewrite length_map in E, E0.
  match type of H with
  | (let '(_, _) := ?d in _) = _ =>
      pose proof (draw_each_length
                    (fun g loc => rng_normal g (loc, Fin 1)) rng
                    (map2 (fun a b => add (add (beta params) a) b) a a0))
        as L;
      destruct d as [velo rng'] eqn:D
  end.
  injection H as <-. cbn [fst v_rows v_distnorm v_joint_velo].
  split; [reflexivity|]. split.
  - now rewrite !length_map.
  - cbn [fst] in L. rewrite L.
    rewrite map2_length; congruence.
Qed.

Lemma default_rng_inv (seed : Z) (g : G) :
  default_rng seed = Ok g -> (0 <= seed)%Z /\ g = seeded (Z.to_N seed).
Proof.
  unfold default_rng. destruct (seed <? 0)%Z eqn:E; [discriminate|].
  intros [= <-]. apply Z.ltb_ge in E. now split.
Qed.

(** What a successful construction fixes. *)
Lemma GenerativeBase_init_inv tree0 cl model seed run :
  GenerativeBase_init tree0 cl model seed = Ok run ->
  node_scale_root_height tree0 = Ok (tree run)
  /\ clade_idxs run = cl
  /\ select_model model = Ok (function run)
  /\ ridata_RI run = None
  /\ (exists crosses,
        get_crosses (tree run) = Ok crosses
        /\ map pair_of (ridata run)
           = sort_values (crosses ++ nulls (tree run)))
  /\ map expit (ridata run)
     = get_logit (function run) (map joint_velo (ridata run))
         (map (fun r => of_float (dist (pair_of r))) (ridata run)).
Proof.
  unfold GenerativeBase_init. intros H.
  destruct (default_rng seed) as [rng0|] eqn:Eg; [cbn [bind] in H|discriminate].
  destruct (node_scale_root_height tree0) as [t|] eqn:Et;
    [cbn [bind] in H|discriminate].
  destruct (select_model model) as [f|] eqn:Ef; [cbn [bind] in H|discriminate].
  destruct (get_groups t cl) as [gg|] eqn:Egg; [cbn [bind] in H|discriminate].
  destruct (get_crosses t) as [crosses|] eqn:Ec;
    [cbn [bind] in H|discriminate].
  cbn [get_true_param_dists] in H.
  destruct (get_species_data rng0 _ (snd gg)) as [sp|] eqn:Es;
    [cbn [bind] in H|discriminate].
  destruct (get_velocities t crosses _ (fst sp) (snd sp)) as [vv|] eqn:Ev;
    [cbn [bind] in H|discriminate].
  injection H as <-. cbn [tree clade_idxs function ridata_RI ridata].
  destruct (get_velocities_spec _ _ _ _ _ Ev) as (R1 & R2 & R3).
  set (rows := v_rows (fst vv)) in *.
  set (ex := get_logit f (v_joint_velo (fst vv))
               (map (fun r => of_float (dist r)) rows)).
  assert (R4 : List.length ex = List.length rows).
  { unfold ex. rewrite get_logit_length; [assumption|].
    now rewrite length_map. }
  destruct (zip_rows_columns _ _ _ _ R2 R3 R4) as (Z1 & Z2 & Z3 & Z4).
  repeat split; try reflexivity.
  - exists crosses. split; [assumption|]. now rewrite Z1.
  - rewrite Z4, Z3. unfold ex. f_equal.
    rewrite <- Z1 at 1. now rewrite map_map.
Qed.

End RunFacts.

(** ** Induction on trees, and the stand-in scaling *)

Lemma TreeNode_ind_children (P : TreeNode -> Prop) :
  (forall i d cs, Forall P cs -> P (mkNode i d cs)) ->
  forall n, P n.
Proof.
  intros H. fix IH 1. intros [i d cs]. apply H.
  induction cs as [|c cs IHcs]; constructor; [apply IH | apply IHcs].
Qed.

Lemma scale_by_get_leaves (h th : float) (t : TreeNode) :
  List.length (get_leaves (scale_by h th t)) = List.length (get_leaves t).
Proof.
  induction t as [i d cs IH] using TreeNode_ind_children.
  assert (Hall : List.length
                   (flat_map get_leaves (map (scale_by h th) cs))
                 = List.length (flat_map get_leaves cs)).
  { induction IH as [|c' cs' Hc' _ IHcs]; [reflexivity|].
    cbn [map flat_map]. rewrite !length_app. now rewrite Hc', IHcs. }
  cbn [scale_by get_leaves].
  destruct cs as [|c cs]; [reflexivity | exact Hall].
Qed.

Lemma stand_in_scaling_keeps_tips : scaling_keeps_tips ladder_toytree.
Proof.
  intros t t' E. cbn in E. unfold scale_root_height in E.
  destruct (PrimFloat.eqb (root_height t) 0); [discriminate|].
  injection E as <-. apply scale_by_get_leaves.
Qed.

(** ** C2: size and order of the pair table *)

(** C2.  Once a run is constructed on a tree with [n] tips, the tree
    the run holds is that tree scaled, with its [n] tips, and the table
    [ridata] has exactly [n * (n - 1) / 2 + n] rows; the rows are
    strictly ascending in [(sidx0, sidx1)], so no pair occurs twice;
    every pair [i <= j < n] has its row, no other pair has one, and the
    within-species rows carry the distance 0. *)
Theorem ridata_row_count_and_order
  {G : Type} {gen : Generator G} {toytree : ToytreeLib}
  (tree0 : TreeNode) (cl : list nat) (model : model_arg) (seed : Z)
  (run : GenerativeBase) :
  scaling_keeps_tips toytree ->
  GenerativeBase_init tree0 cl model seed = Ok run ->
  let n := ntips tree0 in
  let table := map pair_of (ridata run) in
  node_scale_root_height tree0 = Ok (tree run)
  /\ ntips (tree run) = n
  /\ List.length (ridata run) = n * (n - 1) / 2 + n
  /\ StronglySorted cross_lt table
  /\ (forall i j, i <= j -> j < n -> exists r, In r table /\ key r = (i, j))
  /\ (forall r, In r table -> sidx0 r <= sidx1 r /\ sidx1 r < n)
  /\ (forall r, In r table -> sidx0 r = sidx1 r -> dist r = 0%float).
Proof.
  intros Hkeep H n table.
  destruct (GenerativeBase_init_inv _ _ _ _ H)
    as (Ht & _ & _ & _ & (crosses & Hc & Hrows) & _).
  assert (Hn : ntips (tree run) = n) by (apply Hkeep; exact Ht).
  subst table. rewrite Hrows.
  split; [exact Ht|]. split; [exact Hn|].
  rewrite <- Hn.
  split; [|split; [|split; [|split]]].
  - rewrite <- (length_map pair_of), Hrows. now apply table_length.
  - apply sorted_strict; [apply sort_values_sorted|].
    eapply Permutation_NoDup;
      [apply Permutation_map, sort_values_perm | now apply table_keys_NoDup].
  - intros i j Hij Hj. now apply table_complete.
  - intros r Hr.
    destruct (table_row_origin _ _ Hc Hr) as [(? & ? & _)|(? & ? & _)]; lia.
  - intros r Hr Heq.
    destruct (table_row_origin _ _ Hc Hr) as [(? & _)|(_ & _ & ?)];
      [lia | assumption].
Qed.

Lemma ridata_row_count_and_order_witness :
  exists run,
    UserTree balanced4 [5; 4] (Name "linear") 12345 = Ok run
    /\ ntips (tree run) = 4
    /\ List.length (ridata run) = 10
    /\ map (fun r => key (pair_of r)) (ridata run)
       = [(0, 0); (0, 1); (0, 2); (0, 3); (1, 1); (1, 2); (1, 3);
          (2, 2); (2, 3); (3, 3)].
Proof.
  eexists. split; [reflexivity|].
  pose proof stand_in_scaling_keeps_tips as Hkeep.
  match goal with
  | |- ntips (tree ?r) = _ /\ _ =>
      assert (E : UserTree balanced4 [5; 4] (Name "linear") 12345 = Ok r)
        by reflexivity;
      destruct (ridata_row_count_and_order balanced4 [5; 4] (Name "linear")
                  12345 Hkeep E) as (_ & Hn & Hlen & _)
  end.
  split; [exact Hn|]. split; [exact Hlen|]. reflexivity.
Defined.

(** ** C5: the distance column *)

Lemma below_ancestor_sym p0 p1 :
  below_ancestor p1 p0
  = (snd (below_ancestor p0 p1), fst (below_ancestor p0 p1)).
Proof.
  revert p1.
  induction p0 as [|a r0 IH]; intros [|b r1]; cbn; try reflexivity.
  rewrite (Nat.eqb_sym (idx b) (idx a)).
  destruct (idx a =? idx b); [apply IH | reflexivity].
Qed.

Lemma below_ancestor_same p : below_ancestor p p = ([], []).
Proof.
  induction p as [|a r IH]; cbn; [reflexivity|].
  now rewrite Nat.eqb_refl.
Qed.

(** The oracle answers 0 for a node and itself. *)
Lemma get_distance_self t a d :
  get_distance t a a = Some d -> d = 0%float.
Proof.
  unfold get_distance.
  destruct (path_to a t) as [pa|]; [|discriminate].
  rewrite below_ancestor_same. cbn. now intros [= <-].
Qed.

(** The additions behind an answer of the oracle, in their order. *)
Lemma get_distance_chains t a b d :
  get_distance t a b = Some d ->
  exists p p2,
    path_to a t = Some p
    /\ path_to b t = Some p2
    /\ d = fold_left PrimFloat.add
             (map Toytree.dist (rev (snd (below_ancestor p p2)))
              ++ map Toytree.dist (rev (fst (below_ancestor p p2))))
             0%float.
Proof.
  unfold get_distance.
  destruct (path_to a t) as [p|]; [|discriminate].
  destruct (path_to b t) as [p2|]; [|discriminate].
  destruct (below_ancestor p p2) as [s s2] eqn:B. intros [= <-].
  exists p, p2. rewrite B. repeat split.
Qed.

(** C5, as stated, fails twice.  On the two-tip tree whose branches
    have length 1 the oracle answers 2 for the pair (0, 1), and the
    table records 1.  And the oracle is not symmetric: on the ladder
    [(d:3,(c:2,(a:1,b:1):1):1)], scaled to height 1, it answers 2 for
    the tips (3, 0) and a float below 2 for the tips (0, 3), because
    the three thirds are added to 1 in the one order and to each other
    in the other. *)
Lemma dist_column_is_not_path_length :
  (exists run r d,
     UserTree cherry [2] (Name "linear") 12345 = Ok run
     /\ In r (map pair_of (ridata run))
     /\ sidx0 r <> sidx1 r
     /\ get_dist (tree run) (sidx0 r) (sidx1 r) = Ok d
     /\ dist r <> d)
  /\ get_dist caterpillar4 3 0 = Ok 2%float
  /\ exists d',
       get_dist caterpillar4 0 3 = Ok d'
       /\ d' <> 2%float
       /\ PrimFloat.ltb d' 2 = true.
Proof.
  split; [|split].
  - eexists. exists (mkCross 0 1 ((0 + 1 + 1) / 2)). eexists.
    split; [reflexivity|].
    split; [right; left; reflexivity|].
    split; [discriminate|].
    split; [reflexivity|].
    cbn. discriminate.
  - reflexivity.
  - eexists. split; [reflexivity|]. split; [discriminate | reflexivity].
Qed.

(** C5, amended.  For every row of a constructed table on two distinct
    tips [i < j], the oracle answers for [(i, j)] with the float sum,
    accumulated from 0, of the branch lengths from [j] up to the most
    recent common ancestor and then from [i] up to it, and the column
    [dist] holds that answer divided by 2; for every within-species row
    the column holds 0, which is also all the oracle answers for a tip
    and itself. *)
Theorem dist_column_is_half_path_length
  {G : Type} {gen : Generator G} {toytree : ToytreeLib}
  (tree0 : TreeNode) (cl : list nat) (model : model_arg) (seed : Z)
  (run : GenerativeBase) :
  GenerativeBase_init tree0 cl model seed = Ok run ->
  forall r, In r (map pair_of (ridata run)) ->
    (sidx0 r <> sidx1 r ->
     sidx0 r < sidx1 r
     /\ exists d p0 p1,
          get_dist (tree run) (sidx0 r) (sidx1 r) = Ok d
          /\ path_to (sidx0 r) (tree run) = Some p0
          /\ path_to (sidx1 r) (tree run) = Some p1
          /\ d = fold_left PrimFloat.add
                   (map Toytree.dist (rev (snd (below_ancestor p0 p1)))
                    ++ map Toytree.dist (rev (fst (below_ancestor p0 p1))))
                   0%float
          /\ dist r = (d / 2)%float)
    /\ (sidx0 r = sidx1 r ->
        dist r = 0%float
        /\ forall d, get_dist (tree run) (sidx0 r) (sidx1 r) = Ok d ->
             d = 0%float).
Proof.
  intros H r Hr.
  destruct (GenerativeBase_init_inv _ _ _ _ H)
    as (_ & _ & _ & _ & (crosses & Hc & Hrows) & _).
  rewrite Hrows in Hr.
  destruct (table_row_origin _ _ Hc Hr)
    as [(Hlt & _ & d & Hd & Hcd)|(Heq & _ & H0)].
  - split; [|lia]. intros _. split; [exact Hlt|].
    unfold get_dist in Hd.
    destruct (get_distance (tree run) (sidx0 r) (sidx1 r)) as [x|] eqn:D;
      [|discriminate].
    cbn in Hd. injection Hd as ->.
    destruct (get_distance_chains _ _ _ D) as (p0 & p1 & P0 & P1 & Hsum).
    exists d, p0, p1. unfold get_dist. rewrite D.
    repeat split; assumption.
  - split; [intros; contradiction|]. intros _. split; [exact H0|].
    intros d Hd. rewrite <- Heq in Hd. unfold get_dist in Hd.
    destruct (get_distance (tree run) (sidx0 r) (sidx0 r)) as [x|] eqn:D;
      [|discriminate].
    cbn in Hd. injection Hd as <-. now apply (get_distance_self _ _ D).
Qed.

Lemma dist_column_is_half_path_length_witness :
  exists run,
    UserTree cherry [2] (Name "linear") 12345 = Ok run
    /\ exists d p0 p1,
         get_dist (tree run) 0 1 = Ok d
         /\ path_to 0 (tree run) = Some p0
         /\ path_to 1 (tree run) = Some p1
         /\ d = fold_left PrimFloat.add
                  (map Toytree.dist (rev (snd (below_ancestor p0 p1)))
                   ++ map Toytree.dist (rev (fst (below_ancestor p0 p1))))
                  0%float
         /\ ((0 + 1 + 1) / 2 = d / 2)%float.
Proof.
  eexists. split; [reflexivity|].
  match goal with
  | |- exists d p0 p1, get_dist (tree ?r) _ _ = _ /\ _ =>
      assert (E : UserTree cherry [2] (Name "linear") 12345 = Ok r)
        by reflexivity;
      destruct (dist_column_is_half_path_length cherry [2] (Name "linear")
                  12345 E (mkCross 0 1 ((0 + 1 + 1) / 2))) as [Hd _]
  end.
  - right. left. reflexivity.
  - apply Hd. discriminate.
Defined.

(** ** C4: the turns of the partitioner *)

Lemma remove_first_skip x before after :
  ~ In x before ->
  remove_first x (before ++ x :: after) = before ++ after.
Proof.
  induction before as [|y r IH]; intros Hn; cbn.
  - now rewrite Nat.eqb_refl.
  - destruct (y =? x) eqn:E.
    + apply Nat.eqb_eq in E. exfalso. apply Hn. now left.
    + f_equal. apply IH. intros Hin. apply Hn. now right.
Qed.

(** The head of the sorted list is the first entry of the least key. *)
Lemma stable_sort_head (kl : list (nat * nat)) h rest :
  stable_sort (fun a b => fst a <=? fst b) kl = h :: rest ->
  exists before after,
    kl = before ++ h :: after
    /\ (forall y, In y before -> fst h < fst y)
    /\ (forall y, In y after -> fst h <= fst y).
Proof.
  revert h rest.
  induction kl as [|a r IH]; intros h rest H; cbn in H; [discriminate|].
  destruct (stable_sort (fun a b => fst a <=? fst b) r) as [|m rest'] eqn:E.
  - assert (r = []) as ->.
    { pose proof (stable_sort_perm (fun a b => fst a <=? fst b) r) as P.
      rewrite E in P. now apply Permutation_nil, Permutation_sym. }
    cbn in H. injection H as <- <-.
    exists [], []. repeat split; intros y [].
  - destruct (IH m rest' eq_refl) as (b & af & -> & Hb & Haf).
    cbn in H. destruct (fst a <=? fst m) eqn:L.
    + injection H as <- <-. apply Nat.leb_le in L.
      exists [], (b ++ m :: af). repeat split; [intros y []|].
      intros y Hy. apply in_app_iff in Hy.
      destruct Hy as [Hy|[<-|Hy]].
      * specialize (Hb y Hy). lia.
      * assumption.
      * specialize (Haf y Hy). lia.
    + injection H as <- <-. apply Nat.leb_gt in L.
      exists (a :: b), af. repeat split; [|assumption].
      intros y [<-|Hy]; [assumption | now apply Hb].
Qed.

Lemma keyed_spec t l keyed :
  mapM (fun x => k <- nchildren t x ;; Ok (k, x)) l = Ok keyed ->
  map snd keyed = l
  /\ forall kx, In kx keyed -> child_count t (snd kx) = Some (fst kx).
Proof.
  intros H. apply mapM_Forall2 in H.
  induction H as [|x kx l keyed Hx _ [IH1 IH2]]; cbn.
  - split; [reflexivity | intros kx []].
  - unfold nchildren in Hx. inv_bind Hx. injection Hx as <-.
    cbn [snd fst]. split; [now rewrite IH1|].
    intros kx [<-|Hin]; [|now apply IH2].
    cbn [snd fst]. unfold child_count.
    destruct (idx_dict t x); [|discriminate].
    cbn in E. injection E as <-. reflexivity.
Qed.

(** One turn: which anchor goes, and what replaces it. *)
Lemma expand_step_spec t l l' :
  expand_step t l = Ok l' ->
  exists before x after n,
    l = before ++ x :: after
    /\ idx_dict t x = Some n
    /\ l' = before ++ after ++ map idx (children n)
    /\ (forall y, In y before ->
        exists c, child_count t y = Some c /\ List.length (children n) < c)
    /\ (forall y, In y after ->
        exists c, child_count t y = Some c /\ List.length (children n) <= c).
Proof.
  unfold expand_step, sorted_by_children. intros H.
  inv_bind H. inv_bind E. injection E as <-.
  destruct (stable_sort (fun a b => fst a <=? fst b) a0) as [|[c x] rest] eqn:S;
    [discriminate|].
  inv_bind H. injection H as <-.
  destruct (keyed_spec _ _ E0) as [Hl Hk].
  destruct (stable_sort_head _ S) as (bk & ak & -> & Hb & Ha).
  assert (Hx : child_count t x = Some c)
    by (apply (Hk (c, x)), in_app_iff; right; now left).
  assert (Hn : idx_dict t x = Some a)
    by (destruct (idx_dict t x); [cbn in E; congruence | discriminate]).
  assert (Hc : List.length (children a) = c).
  { unfold child_count in Hx. rewrite Hn in Hx. cbn in Hx. congruence. }
  assert (Hbefore : forall y, In y (map snd bk) ->
            exists c', child_count t y = Some c' /\ c < c').
  { intros y Hy. apply in_map_iff in Hy. destruct Hy as (ky & <- & Hy).
    exists (fst ky). split.
    - apply Hk, in_app_iff. now left.
    - apply (Hb ky Hy). }
  exists (map snd bk), x, (map snd ak), a.
  rewrite <- Hl, map_app. cbn [map snd].
  split; [reflexivity|]. split; [assumption|]. split.
  - rewrite remove_first_skip; [now rewrite app_assoc|].
    intros Hin. destruct (Hbefore x Hin) as (c' & Hc' & Hlt).
    rewrite Hx in Hc'. injection Hc' as <-. lia.
  - rewrite Hc. split; [assumption|].
    intros y Hy. apply in_map_iff in Hy. destruct Hy as (ky & <- & Hy).
    exists (fst ky). split.
    + apply Hk, in_app_iff. right. now right.
    + apply (Ha ky Hy).
Qed.

Lemma expand_loop_last t k l :
  expand_loop t (S k) l = (l' <- expand_loop t k l ;; expand_step t l').
Proof.
  revert l.
  induction k as [|k IH]; intros l.
  - cbn. destruct (expand_step t l); reflexivity.
  - change (expand_loop t (S (S k)) l)
      with (l1 <- expand_step t l ;; expand_loop t (S k) l1).
    destruct (expand_step t l) as [l1|e] eqn:E.
    + cbn [bind]. rewrite IH. cbn [expand_loop]. rewrite E. reflexivity.
    + cbn [expand_loop bind]. rewrite E. reflexivity.
Qed.

(** What one turn does, told from the head of the sorted anchors. *)
Lemma expand_step_head t l c x rest l' :
  sorted_by_children t l = Ok ((c, x) :: rest) ->
  expand_step t l = Ok l' ->
  exists n,
    idx_dict t x = Some n
    /\ List.length (children n) = c
    /\ In x l
    /\ l' = remove_first x l ++ map idx (children n).
Proof.
  intros Hs He. unfold expand_step in He. rewrite Hs in He. cbn [bind] in He.
  inv_bind He. injection He as <-.
  unfold sorted_by_children in Hs. inv_bind Hs. injection Hs as Hs.
  destruct (keyed_spec _ _ E0) as [Hl Hk].
  assert (Hin : In (c, x) a0).
  { eapply Permutation_in;
      [apply Permutation_sym, (stable_sort_perm (fun a b => fst a <=? fst b))|].
    rewrite Hs. now left. }
  assert (Hx : child_count t x = Some c) by apply (Hk (c, x) Hin).
  unfold child_count in Hx.
  destruct (idx_dict t x) as [n|]; [|discriminate].
  cbn in E, Hx. injection E as <-. injection Hx as Hx.
  exists n. repeat split; try assumption.
  rewrite <- Hl. apply in_map_iff. now exists (c, x).
Qed.

Lemma remove_first_length x l :
  In x l -> List.length (remove_first x l) + 1 = List.length l.
Proof.
  induction l as [|z r IH]; intros Hz; [destruct Hz|].
  cbn. destruct (z =? x) eqn:E; [lia|].
  cbn. destruct Hz as [->|Hz]; [rewrite Nat.eqb_refl in E; discriminate|].
  specialize (IH Hz). lia.
Qed.

Lemma binary_selections_length t k l :
  binary_selections t k l = true ->
  exists a, expand_loop t k l = Ok a /\ List.length a = List.length l + k.
Proof.
  revert l.
  induction k as [|k IH]; intros l H; cbn in H.
  - exists l. split; [reflexivity | lia].
  - destruct (sorted_by_children t l) as [[|[c x] rest]|] eqn:S;
      try discriminate.
    destruct (expand_step t l) as [l1|] eqn:E; [|discriminate].
    apply andb_true_iff in H. destruct H as [Hc H]. apply Nat.eqb_eq in Hc.
    destruct (IH l1 H) as (a & Ha & Hlen).
    exists a. split; [cbn; now rewrite E|].
    destruct (expand_step_head _ _ S E) as (n & _ & Hn & Hx & ->).
    pose proof (remove_first_length _ _ Hx) as Hr.
    rewrite length_app, length_map in Hlen. lia.
Qed.

(** C4, as stated, fails twice.  On the balanced four-tip tree the third
    clade comes from expanding node 5, the first of the two anchors with
    two children, where the ascending node index would expand node 4; on
    the ladder the second turn takes the tip 3, which has no children,
    and one anchor is left where three were asked for. *)
Lemma get_clade_idxs_counterexample :
  get_clade_idxs balanced4 (Some 3%Z) = Ok [4; 3; 2]
  /\ spec_partition balanced4 3 = Ok [5; 1; 0]
  /\ get_clade_idxs balanced4 (Some 3%Z) <> spec_partition balanced4 3
  /\ get_clade_idxs caterpillar4 (Some 3%Z) = Ok [5]
  /\ List.length [5] <> 3.
Proof.
  repeat split; try reflexivity; discriminate.
Qed.

(** C4, amended.  [get_clade_idxs] starts from the root alone, which is
    its answer for one clade, and runs [nclades - 1] turns.  A turn
    expands the first anchor, in the order of the list, among those with
    the fewest children: it leaves the list and its children's indices
    are appended.  When each turn expands an anchor with exactly two
    children, the list ends with exactly [nclades] anchors. *)
Theorem get_clade_idxs_turns (t : TreeNode) (k : Z) :
  (1 <= k)%Z ->
  get_clade_idxs t (Some 1%Z) = Ok [idx t]
  /\ get_clade_idxs t (Some (k + 1)%Z)
     = (l <- get_clade_idxs t (Some k) ;; expand_step t l)
  /\ (forall l l',
        expand_step t l = Ok l' ->
        exists before x after n,
          l = before ++ x :: after
          /\ idx_dict t x = Some n
          /\ l' = before ++ after ++ map idx (children n)
          /\ (forall y, In y before ->
              exists c, child_count t y = Some c
                        /\ List.length (children n) < c)
          /\ (forall y, In y after ->
              exists c, child_count t y = Some c
                        /\ List.length (children n) <= c))
  /\ (binary_selections t (Z.to_nat (k - 1)) [idx t] = true ->
      exists a, get_clade_idxs t (Some k) = Ok a
                /\ Z.of_nat (List.length a) = k).
Proof.
  intros Hk. split; [reflexivity|]. split; [|split].
  - unfold get_clade_idxs.
    replace (Z.to_nat (k + 1 - 1)) with (S (Z.to_nat (k - 1))) by lia.
    apply expand_loop_last.
  - apply expand_step_spec.
  - intros H. destruct (binary_selections_length _ _ _ H) as (a & Ha & Hlen).
    exists a. split; [exact Ha|]. cbn in Hlen. lia.
Qed.

Lemma get_clade_idxs_turns_witness :
  (1 <= 3)%Z
  /\ get_clade_idxs balanced4 (Some 4%Z)
     = (l <- get_clade_idxs balanced4 (Some 3%Z) ;; expand_step balanced4 l)
  /\ exists a, get_clade_idxs balanced4 (Some 3%Z) = Ok a
               /\ Z.of_nat (List.length a) = 3%Z.
Proof.
  assert (H : (1 <= 3)%Z) by lia.
  split; [exact H|].
  destruct (get_clade_idxs_turns balanced4 H) as (_ & H2 & _ & H4).
  split; [exact H2|].
  apply H4. reflexivity.
Defined.

(** ** The anchors of the partitioner and the tips below them *)

Lemma traverse_self n : In n (traverse n).
Proof. destruct n. now left. Qed.

Lemma children_in_traverse t :
  forall n c, In n (traverse t) -> In c (children n) -> In c (traverse t).
Proof.
  induction t as [i d cs IH] using TreeNode_ind_children.
  intros n c Hn Hc. cbn [traverse] in *. right.
  apply in_flat_map.
  destruct Hn as [<-|Hn].
  - exists c. split; [exact Hc | apply traverse_self].
  - apply in_flat_map in Hn. destruct Hn as (c' & Hc' & Hn).
    exists c'. split; [assumption|].
    rewrite Forall_forall in IH. now apply (IH c' Hc' n c).
Qed.

Lemma find_by_label (l : list TreeNode) n :
  NoDup (map idx l) -> In n l ->
  find (fun m => idx m =? idx n) l = Some n.
Proof.
  induction l as [|a r IH]; intros Hnd Hin; [destruct Hin|].
  cbn in *. apply NoDup_cons_iff in Hnd. destruct Hnd as [Ha Hnd].
  destruct Hin as [->|Hin].
  - now rewrite Nat.eqb_refl.
  - destruct (idx a =? idx n) eqn:E.
    + apply Nat.eqb_eq in E. exfalso. apply Ha. rewrite E. now apply in_map.
    + now apply IH.
Qed.

Lemma idx_dict_node t n :
  distinct_labels t -> In n (traverse t) -> idx_dict t (idx n) = Some n.
Proof. intros Hd Hn. now apply find_by_label. Qed.

Lemma get_leaves_children n :
  children n <> [] -> get_leaves n = flat_map get_leaves (children n).
Proof. destruct n as [i d [|c cs]]; [contradiction | reflexivity]. Qed.

Lemma remove_first_node_idx x nodes :
  map idx (remove_first_node x nodes) = remove_first x (map idx nodes).
Proof.
  induction nodes as [|n r IH]; cbn; [reflexivity|].
  destruct (idx n =? x); [reflexivity | cbn; now rewrite IH].
Qed.

Lemma remove_first_node_perm x nodes :
  In x (map idx nodes) ->
  exists n, In n nodes /\ idx n = x
            /\ Permutation nodes (n :: remove_first_node x nodes).
Proof.
  induction nodes as [|a r IH]; intros Hin; [destruct Hin|].
  cbn. destruct (idx a =? x) eqn:E.
  - apply Nat.eqb_eq in E. exists a. split; [now left|]. split; [exact E|].
    apply Permutation_refl.
  - destruct Hin as [Hin|Hin]; [apply Nat.eqb_neq in E; contradiction|].
    destruct (IH Hin) as (n & Hn & Hx & Hp).
    exists n. split; [now right|]. split; [exact Hx|].
    eapply perm_trans; [apply perm_skip, Hp | apply perm_swap].
Qed.

Lemma flat_map_perm {A B : Type} (f : A -> list B) l l' :
  Permutation l l' -> Permutation (flat_map f l) (flat_map f l').
Proof.
  induction 1; cbn.
  - constructor.
  - now apply Permutation_app_head.
  - rewrite !app_assoc. apply Permutation_app_tail, Permutation_app_comm.
  - eapply perm_trans; eassumption.
Qed.

Lemma anchors_hold_step t l c x rest l' :
  distinct_labels t ->
  anchors_hold t l ->
  sorted_by_children t l = Ok ((c, x) :: rest) ->
  c <> 0 ->
  expand_step t l = Ok l' ->
  anchors_hold t l'.
Proof.
  intros Hd (nodes & Hin & Hidx & Hperm) Hs Hc He.
  destruct (expand_step_head _ _ Hs He) as (n & Hn & Hlen & Hx & ->).
  rewrite <- Hidx in Hx.
  destruct (remove_first_node_perm _ _ Hx) as (nx & Hnx & Hix & Hp).
  assert (n = nx) as <-.
  { rewrite Forall_forall in Hin.
    pose proof (@idx_dict_node t nx Hd (Hin nx Hnx)) as E.
    rewrite Hix, Hn in E. now injection E. }
  assert (Hch : children n <> [])
    by (intros E; rewrite E in Hlen; cbn in Hlen; lia).
  exists (remove_first_node x nodes ++ children n).
  split; [|split].
  - apply Forall_app. split.
    + apply Forall_forall. intros m Hm.
      rewrite Forall_forall in Hin. apply Hin.
      eapply Permutation_in; [apply Permutation_sym, Hp|]. now right.
    + apply Forall_forall. intros m Hm.
      rewrite Forall_forall in Hin.
      now apply (children_in_traverse t n m (Hin n Hnx)).
  - rewrite map_app, remove_first_node_idx, Hidx. reflexivity.
  - rewrite flat_map_app, <- (@get_leaves_children n Hch).
    eapply perm_trans; [apply Permutation_app_comm|].
    eapply perm_trans; [|exact Hperm].
    apply Permutation_sym.
    exact (flat_map_perm get_leaves Hp).
Qed.

(** As long as no turn expands an anchor without children, the tips
    below the anchors are the tips of the tree, each of them once. *)
Lemma anchors_cover_tips t (k : Z) l :
  distinct_labels t ->
  expands_internal t (Z.to_nat (k - 1)) [idx t] = true ->
  get_clade_idxs t (Some k) = Ok l ->
  exists tips,
    mapM (tip_idxs t) l = Ok tips
    /\ Permutation (List.concat tips) (map idx (get_leaves t)).
Proof.
  intros Hd Hb Hl. unfold get_clade_idxs in Hl.
  assert (Hinv : anchors_hold t l).
  { assert (H0 : anchors_hold t [idx t]).
    { exists [t]. split; [|split].
      - constructor; [apply traverse_self | constructor].
      - reflexivity.
      - cbn. rewrite app_nil_r. apply Permutation_refl. }
    revert Hb Hl H0. generalize [idx t]. generalize (Z.to_nat (k - 1)).
    intros turns. induction turns as [|turns IH]; intros l0 Hb Hl H0.
    - cbn in Hl. now injection Hl as <-.
    - cbn in Hb, Hl.
      destruct (sorted_by_children t l0) as [[|[c x] rest]|] eqn:Hs;
        try discriminate.
      destruct (expand_step t l0) as [l1|] eqn:He; [|discriminate].
      apply andb_true_iff in Hb. destruct Hb as [Hc Hb].
      apply negb_true_iff, Nat.eqb_neq in Hc.
      cbn [bind] in Hl.
      apply (IH l1 Hb Hl). eapply anchors_hold_step; eassumption. }
  destruct Hinv as (nodes & Hin & <- & Hperm).
  exists (map (fun n => map idx (get_leaves n)) nodes). split.
  - clear Hperm Hl. induction nodes as [|n r IH]; [reflexivity|].
    apply Forall_cons_iff in Hin. destruct Hin as [Hn Hr].
    cbn [map mapM]. unfold tip_idxs at 1.
    rewrite (@idx_dict_node t n Hd Hn). cbn [lookup_or bind].
    now rewrite (IH Hr).
  - rewrite <- (Permutation_map idx Hperm).
    clear. induction nodes as [|n r IH]; cbn; [constructor|].
    rewrite map_app. now apply Permutation_app_head.
Qed.

(** ** C3: the clades of the partitioner *)

(** C3, on the ladder [(d,(c,(a,b)))] with three clades asked for, a
    count its three internal nodes allow.  The second turn takes the tip
    3, which has no children, out of the anchors and puts nothing in its
    place: the one anchor left covers the tips 2, 1 and 0, the tip 3
    belongs to no clade, [groups] has three entries for four tips, and
    the constructor stops on the missing species.  With two clades the
    anchors do cover every tip once, and [groups], filled by position,
    gives the tip 0 to the clade of the tip 3 and the tip 3 to the clade
    of node 5. *)
Theorem partition_leaves_a_tip_out :
  List.length (internal_nodes caterpillar4) = 3
  /\ map idx (get_leaves caterpillar4) = [3; 2; 1; 0]
  /\ get_clade_idxs caterpillar4 (Some 3%Z) = Ok [5]
  /\ mapM (tip_idxs caterpillar4) [5] = Ok [[2; 1; 0]]
  /\ get_groups caterpillar4 [5] = Ok ([(0, 3)], [0; 0; 0])
  /\ UserTree caterpillar4 [5] (Name "linear") 12345 = Raise KeyError
  /\ get_clade_idxs caterpillar4 (Some 2%Z) = Ok [3; 5]
  /\ mapM (tip_idxs caterpillar4) [3; 5] = Ok [[3]; [2; 1; 0]]
  /\ get_groups caterpillar4 [3; 5] = Ok ([(0, 1); (1, 3)], [0; 1; 1; 1]).
Proof.
  repeat split; reflexivity.
Qed.

(** ** C7: selecting the regression function *)

(** C7.  The names "linear", "exponential", "quadratic" and
    "logarithmic" select their functions.  The name "asymptotic" of the
    enumeration selects nothing: [MODEL_DICT] files [asymp_f] under
    "asymptotic_func", a name outside the enumeration, which does select
    it.  A member of [Models] passed as such selects nothing either.
    So no run is ever constructed with the name "asymptotic": the
    constructor raises what the seed or the scaling of the tree raise
    before the lookup, and KeyError otherwise. *)
Theorem select_model_asymptotic :
  select_model (Name (Models_value linear)) = Ok Linea_f
  /\ select_model (Name (Models_value exponential)) = Ok Expon_f
  /\ select_model (Name (Models_value quadratic)) = Ok Quadr_f
  /\ select_model (Name (Models_value logarithmic)) = Ok Logar_f
  /\ select_model (Name (Models_value asymptotic)) = Raise KeyError
  /\ select_model (Name "asymptotic_func") = Ok Asymp_f
  /\ ~ In "asymptotic_func"%string (map Models_value all_Models)
  /\ (forall m, select_model (Member m) = Raise KeyError)
  /\ (forall (G : Type) (gen : Generator G) (toytree : ToytreeLib)
             (t : TreeNode) (cl : list nat) (seed : Z),
        UserTree (G:=G) t cl (Name (Models_value asymptotic)) seed
        = Raise (if (seed <? 0)%Z then ValueError
                 else match node_scale_root_height t with
                      | Raise e => e
                      | Ok _ => KeyError
                      end)).
Proof.
  repeat split; try reflexivity.
  - cbn. intros [H|[H|[H|[H|[H|[]]]]]]; discriminate H.
  - intros G gen toytree t cl seed.
    unfold UserTree, GenerativeBase_init, default_rng.
    destruct (seed <? 0)%Z; [reflexivity|]. cbn [bind].
    destruct (node_scale_root_height t); reflexivity.
Qed.

(** ** C8: the logarithmic function at distance 0 *)

Lemma Rsign_zero : Rsign 0 = Zero.
Proof.
  unfold Rsign. destruct (total_order_T 0 0) as [[H|H]|H];
    [lra | reflexivity | lra].
Qed.

Lemma Rsign_pos r : (0 < r)%R -> Rsign r = Pos.
Proof.
  intros Hr. unfold Rsign. destruct (total_order_T r 0) as [[H|H]|H];
    [lra | lra | reflexivity].
Qed.

Lemma np_log_zero : np_log (Fin 0) = NInf.
Proof. unfold np_log. now rewrite Rsign_zero. Qed.

(** At distance 0 no velocity and no intercept give a real score. *)
Lemma logar_f_zero_not_finite v i : ~ finite (logar_f v (Fin 0) i).
Proof.
  unfold logar_f. rewrite np_log_zero.
  destruct v as [r| | |], i as [j| | |]; cbn; try tauto;
    destruct (Rsign r); cbn; tauto.
Qed.

(** C8.  [logar_f] at distance 0 raises nothing, and the intercept does
    not keep the logarithm away from 0: [np.log(0)] is -inf, and for any
    real velocity [v] and intercept [i] the score is the infinity of the
    sign opposite to [v] (nan for [v = 0]), so -inf for the velocity 10
    and the default intercept 1e-9. *)
Theorem logar_f_zero_distance :
  (forall v i : R,
     logar_f (Fin v) (Fin 0) (Fin i) = inf_of (sign_mul (Rsign v) Neg))
  /\ call Logar_f (Fin 10) (Fin 0) None = NInf
  /\ default_intercept Logar_f = Fin (/ 1000000000).
Proof.
  split; [|split; [|reflexivity]].
  - intros v i. unfold logar_f. rewrite np_log_zero.
    cbn. destruct (Rsign v); reflexivity.
  - unfold call, default_intercept, logar_f. rewrite np_log_zero.
    cbn. rewrite Rsign_pos by lra. reflexivity.
Qed.

(** ** C10: the random tree and the seed *)

(** C10.  Two random-tree runs on the same [ntips], whatever their clade
    counts, models and seeds, hold the same tree: the birth-death tree
    toytree generates for [ntips] under the seed 666, scaled to root
    height 1. *)
Theorem RandomTree_tree_ignores_seed
  {G : Type} {gen : Generator G} {toytree : ToytreeLib}
  (ntips : Z) (nclades1 nclades2 : option Z) (model1 model2 : model_arg)
  (seed1 seed2 : Z) (run1 run2 : GenerativeBase) :
  RandomTree ntips nclades1 model1 seed1 = Ok run1 ->
  RandomTree ntips nclades2 model2 seed2 = Ok run2 ->
  tree run1 = tree run2
  /\ node_scale_root_height (bdtree ntips 666) = Ok (tree run1).
Proof.
  unfold RandomTree, get_bd_tree. intros H1 H2.
  inv_bind H1. inv_bind H2.
  apply GenerativeBase_init_inv in H1, H2.
  destruct H1 as (T1 & _), H2 as (T2 & _).
  split; congruence.
Qed.

Lemma RandomTree_tree_ignores_seed_witness :
  exists run1 run2,
    RandomTree 2 (Some 1%Z) (Name "linear") 1 = Ok run1
    /\ RandomTree 2 (Some 1%Z) (Name "quadratic") 2 = Ok run2
    /\ rng run1 <> rng run2
    /\ tree run1 = tree run2
    /\ node_scale_root_height (bdtree 2 666) = Ok (tree run1).
Proof.
  eexists. eexists.
  split; [reflexivity|]. split; [reflexivity|].
  split; [discriminate|].
  exact (RandomTree_tree_ignores_seed 2 (Some 1%Z) (Some 1%Z)
           (Name "linear") (Name "quadratic") 1 2 eq_refl eq_refl).
Defined.

(** ** C9: the score stage *)

Lemma map2_map_same {A B C D : Type} (f : B -> C -> D) (g : A -> B)
  (h : A -> C) (l : list A) :
  map2 f (map g l) (map h l) = map (fun x => f (g x) (h x)) l.
Proof.
  induction l as [|a r IH]; cbn; [reflexivity | now rewrite IH].
Qed.

Lemma scores_rows f rows :
  scores f (map joint_velo rows) (map dist_of rows) = map (score_of f) rows.
Proof.
  unfold scores.
  apply (map2_map_same (fun v d => call f v d None) joint_velo dist_of).
Qed.

Lemma get_logit_rows f rows :
  get_logit f (map joint_velo rows) (map dist_of rows)
  = map (fun r => scipy_special_expit (sub (score_of f r) (shift_of f rows)))
        rows.
Proof.
  unfold get_logit, centre, shift_of.
  rewrite scores_rows, !map_map. reflexivity.
Qed.

(** The logistic function of a real number lies strictly in (0, 1). *)
Lemma expit_in_open_unit x :
  finite x -> in_open_unit (scipy_special_expit x).
Proof.
  destruct x as [r| | |]; cbn; try tauto. intros _.
  pose proof (exp_pos (- r)) as He.
  split.
  - apply Rinv_0_lt_compat. lra.
  - apply Rmult_lt_reg_r with (1 + exp (- r))%R; [lra|].
    rewrite Rinv_l by lra. lra.
Qed.



Section ScoreFacts.
Context {G : Type} {gen : Generator G} {toytree : ToytreeLib}.

(** The column [expit] of a constructed table, row by row. *)
Lemma expit_of_row tree0 cl model seed run :
  GenerativeBase_init tree0 cl model seed = Ok run ->
  forall r, In r (ridata run) ->
    expit r
    = scipy_special_expit
        (sub (score_of (function run) r)
             (shift_of (function run) (ridata run))).
Proof.
  intros H.
  destruct (GenerativeBase_init_inv _ _ _ _ H) as (_ & _ & _ & _ & _ & He).
  change (fun r => of_float (dist (pair_of r))) with dist_of in He.
  rewrite get_logit_rows in He.
  now apply map_ext_in_iff.
Qed.
End ScoreFacts.

(** *** Mean and standard deviation of real scores *)

Lemma finite_reals values :
  Forall finite values -> exists rs, values = map Fin rs.
Proof.
  induction 1 as [|x l Hx _ [rs ->]].
  - now exists [].
  - destruct x as [r| | |]; try contradiction. now exists (r :: rs).
Qed.

Lemma filter_reals rs :
  filter (fun x => negb (isnan x)) (map Fin rs) = map Fin rs.
Proof.
  induction rs as [|r rs IH]; cbn; [reflexivity | now rewrite IH].
Qed.

Lemma fold_add_reals rs a :
  fold_left add (map Fin rs) (Fin a) = Fin (fold_left Rplus rs a).
Proof.
  revert a. induction rs as [|r rs IH]; intros a; cbn; [reflexivity|].
  apply IH.
Qed.

Lemma div_by_count a n :
  n <> 0 -> div (Fin a) (of_nat n) = Fin (a / INR n).
Proof.
  intros Hn. unfold of_nat. cbn.
  rewrite Rsign_pos; [reflexivity|]. apply lt_0_INR. lia.
Qed.

Lemma fold_Rplus_ge l a :
  (forall x, In x l -> (0 <= x)%R) -> (a <= fold_left Rplus l a)%R.
Proof.
  revert a. induction l as [|y l IH]; intros a H; cbn; [lra|].
  assert (Hy : (0 <= y)%R) by (apply H; now left).
  assert (Hl : forall x, In x l -> (0 <= x)%R) by (intros; apply H; now right).
  specialize (IH (a + y)%R Hl). lra.
Qed.

Lemma fold_Rplus_gt l a :
  (forall x, In x l -> (0 <= x)%R) ->
  (exists x, In x l /\ (0 < x)%R) ->
  (a < fold_left Rplus l a)%R.
Proof.
  revert a. induction l as [|y l IH]; intros a H (x & Hx & Hpos);
    [destruct Hx|].
  cbn.
  assert (Hy : (0 <= y)%R) by (apply H; now left).
  assert (Hl : forall z, In z l -> (0 <= z)%R) by (intros; apply H; now right).
  destruct Hx as [->|Hx].
  - pose proof (fold_Rplus_ge l (a + x)%R Hl). lra.
  - assert (E : exists z, In z l /\ (0 < z)%R) by (now exists x).
    specialize (IH (a + y)%R Hl E). lra.
Qed.

(** Real scores, at least two of them and not all equal, have a real
    mean and a positive real standard deviation, and so a real shift. *)
Lemma shift_finite values :
  Forall finite values ->
  (exists x y, In x values /\ In y values /\ x <> y) ->
  finite (div (mean values) (std values)).
Proof.
  intros Hf (x & y & Hx & Hy & Hxy).
  destruct (finite_reals Hf) as [rs ->].
  assert (Hlen : 2 <= List.length rs).
  { destruct rs as [|a [|b rs]]; cbn; try lia.
    - destruct Hx.
    - destruct Hx as [<-|[]], Hy as [<-|[]]. congruence. }
  unfold mean, std, sum. rewrite !filter_reals, !length_map.
  rewrite fold_add_reals, div_by_count by lia.
  set (m := (fold_left Rplus rs 0 / INR (List.length rs))%R).
  destruct (List.length rs <=? 1) eqn:L; [apply Nat.leb_le in L; lia|].
  rewrite map_map.
  change (map (fun r => square (sub (Fin m) (Fin r))) rs)
    with (map (fun r => Fin ((m + - r) * (m + - r))) rs).
  rewrite <- (map_map (fun r => ((m + - r) * (m + - r))%R) Fin).
  rewrite fold_add_reals, div_by_count by lia.
  set (q := fold_left Rplus (map (fun r => ((m + - r) * (m + - r))%R) rs) 0%R).
  assert (Hq : (0 < q)%R).
  { apply fold_Rplus_gt.
    - intros z Hz. apply in_map_iff in Hz. destruct Hz as (r & <- & _).
      apply (Rle_0_sqr (m + - r)).
    - apply in_map_iff in Hx, Hy.
      destruct Hx as (a & <- & Ha), Hy as (b & <- & Hb).
      assert (Hab : a <> b) by congruence.
      destruct (Req_dec_T a m) as [Heq|Hne].
      + exists ((m + - b) * (m + - b))%R. split.
        * apply in_map_iff. now exists b.
        * apply (Rlt_0_sqr (m + - b)). lra.
      + exists ((m + - a) * (m + - a))%R. split.
        * apply in_map_iff. now exists a.
        * apply (Rlt_0_sqr (m + - a)). lra. }
  assert (Hn : (0 < INR (List.length rs - 1))%R) by (apply lt_0_INR; lia).
  assert (Hv : (0 < q / INR (List.length rs - 1))%R)
    by (apply Rdiv_lt_0_compat; assumption).
  unfold np_sqrt. rewrite (Rsign_pos Hv). cbn.
  rewrite Rsign_pos by (now apply sqrt_lt_R0). exact I.
Qed.

Lemma sub_finite x c : finite x -> finite c -> finite (sub x c).
Proof.
  destruct x as [r| | |], c as [q| | |]; cbn; tauto.
Qed.




(** *** A run on the two-tip tree, computed *)

(** Replaces each [Q2R q] on a closed fraction by the quotient of its
    numerator and denominator in lowest terms. *)
Ltac Q2R_eval :=
  repeat match goal with
  | |- context [Q2R ?q] =>
      let n := eval vm_compute in (Qnum (Qred q)) in
      let d := eval vm_compute in (Zpos (Qden (Qred q))) in
      replace (Q2R q) with (IZR n / IZR d)%R
        by (transitivity (Q2R (Qred q));
            [reflexivity
            | apply Qreals.Qeq_eqR, Qred_correct])
  end.

Lemma cherry_linear_run :
  exists run,
    UserTree cherry [2] (Name "linear") 12345 = Ok run
    /\ List.length (ridata run) = 3
    /\ function run = Linea_f
    /\ ridata_RI run = None
    /\ Forall finite (map (score_of Linea_f) (ridata run))
    /\ exists x y,
         In x (map (score_of Linea_f) (ridata run))
         /\ In y (map (score_of Linea_f) (ridata run))
         /\ x <> y.
Proof.
  eexists. split; [reflexivity|].
  split; [reflexivity|]. split; [reflexivity|]. split; [reflexivity|].
  split.
  - cbn. repeat constructor.
  - eexists. eexists.
    split; [left; reflexivity|]. split; [right; left; reflexivity|].
    cbn. intros E. injection E as E. revert E. Q2R_eval. lra.
Qed.

Lemma Q2R_zero : Q2R 0 = 0%R.
Proof. unfold Q2R. cbn. lra. Qed.

Section ScoreColumn.
Context {G : Type} {gen : Generator G} {toytree : ToytreeLib}.

Lemma shift_of_scores f rows :
  shift_of f rows
  = div (mean (map (score_of f) rows)) (std (map (score_of f) rows)).
Proof. unfold shift_of. now rewrite scores_rows. Qed.

(** Real scores that are not all equal give probabilities strictly
    between 0 and 1 on every row. *)
Lemma expit_column_in_unit tree0 cl model seed run :
  GenerativeBase_init tree0 cl model seed = Ok run ->
  Forall finite (map (score_of (function run)) (ridata run)) ->
  (exists x y,
     In x (map (score_of (function run)) (ridata run))
     /\ In y (map (score_of (function run)) (ridata run))
     /\ x <> y) ->
  forall r, In r (ridata run) -> in_open_unit (expit r).
Proof.
  intros H Hf Hd r Hr.
  rewrite (expit_of_row _ _ _ _ H r Hr).
  apply expit_in_open_unit, sub_finite.
  - rewrite Forall_forall in Hf. apply Hf. now apply in_map.
  - rewrite shift_of_scores. now apply shift_finite.
Qed.
End ScoreColumn.

Lemma of_float_zero : of_float 0 = Fin 0.
Proof. reflexivity. Qed.





(** ** C6 and C1: [sample_observations] *)

Lemma valid_p_in_open_unit x : in_open_unit x -> valid_p x = true.
Proof.
  destruct x as [r| | |]; cbn; try tauto. intros [H0 H1].
  destruct (Rle_dec 0 r); [|lra]. destruct (Rle_dec r 1); [reflexivity | lra].
Qed.

Lemma mapM_total {A B : Type} (f : A -> result B) (l : list A) :
  (forall a, In a l -> exists b, f a = Ok b) ->
  exists l', mapM f l = Ok l'.
Proof.
  induction l as [|a r IH]; intros H; cbn.
  - now exists [].
  - destruct (H a (or_introl eq_refl)) as [b Hb].
    destruct IH as [bs Hbs]; [intros; apply H; now right|].
    exists (b :: bs). now rewrite Hb, Hbs.
Qed.

Lemma firstn_In {A : Type} (n : nat) (l : list A) x :
  In x (firstn n l) -> In x l.
Proof.
  revert n. induction l as [|a l IH]; intros [|n]; cbn; try tauto.
  intros [->|H]; [now left | right; eauto].
Qed.

Lemma firstn_NoDup {A : Type} (n : nat) (l : list A) :
  NoDup l -> NoDup (firstn n l).
Proof.
  revert n. induction l as [|a l IH]; intros [|n] Hl; cbn; try constructor.
  - apply NoDup_cons_iff in Hl. intros Hin. apply (proj1 Hl).
    now apply firstn_In in Hin.
  - apply NoDup_cons_iff in Hl. now apply IH.
Qed.

(** The stand-in for the global state chooses as [DataFrame.sample]
    promises. *)
Lemma alternating_choice : choice_without_replacement alternating_state.
Proof.
  intros s len n Hn. cbn. split; [|split].
  - rewrite length_firstn, length_rev, length_seq. lia.
  - apply firstn_NoDup, NoDup_rev, seq_NoDup.
  - apply Forall_forall. intros i Hi.
    apply firstn_In, in_rev, in_seq in Hi. lia.
Qed.

Section SampleFacts.
Context {G : Type} {gen : Generator G}.
Context {S : Type} {glob : RandomState S}.

Lemma np_random_binomial_ok (s : S) p :
  forallb valid_p p = true ->
  np_random_binomial s p = Ok (draw_each binomial1 s p).
Proof. unfold np_random_binomial. now intros ->. Qed.

Lemma with_RI_length (rows : list ridata_row) (s : S) :
  List.length
    (with_RI rows (fst (draw_each binomial1 s (map expit rows))))
  = List.length rows.
Proof.
  unfold with_RI. apply map2_length.
  now rewrite draw_each_length, length_map.
Qed.

(** The run's own generator is never advanced by the call. *)
Lemma sample_observations_rng (self : @GenerativeBase G) nsamples (s : S) :
  rng (snd (fst (sample_observations self nsamples s))) = rng self.
Proof.
  unfold sample_observations.
  destruct (np_random_binomial s (map expit (ridata self)))
    as [[ri s1]|e]; [|reflexivity].
  destruct nsamples as [[|n|n]|]; try reflexivity;
    destruct (DataFrame_sample _ _ _) as [[sub s2]|e]; reflexivity.
Qed.

(** With no size, or the size 0, the whole table comes back. *)
Lemma sample_observations_full (self : @GenerativeBase G) nsamples (s : S) :
  forallb valid_p (map expit (ridata self)) = true ->
  nsamples = None \/ nsamples = Some 0%Z ->
  fst (fst (sample_observations self nsamples s))
  = Ok (with_RI (ridata self)
          (fst (draw_each binomial1 s (map expit (ridata self)))))
  /\ ridata_RI (snd (fst (sample_observations self nsamples s)))
     = Some (fst (draw_each binomial1 s (map expit (ridata self)))).
Proof.
  intros Hv Hn. unfold sample_observations.
  rewrite (np_random_binomial_ok _ _ Hv).
  destruct (draw_each binomial1 s (map expit (ridata self))) as [ri s1].
  destruct Hn as [->| ->]; split; reflexivity.
Qed.

(** A column [expit] that holds anything but probabilities makes the
    call raise before a draw is made or the table is written. *)
Lemma sample_observations_invalid (self : @GenerativeBase G) nsamples (s : S) :
  forallb valid_p (map expit (ridata self)) = false ->
  sample_observations self nsamples s = (Raise ValueError, self, s).
Proof.
  intros Hv. unfold sample_observations, np_random_binomial.
  now rewrite Hv.
Qed.

End SampleFacts.

Lemma cherry_linear_run_valid :
  exists run,
    UserTree cherry [2] (Name "linear") 12345 = Ok run
    /\ ridata_RI run = None
    /\ forallb valid_p (map expit (ridata run)) = true
    /\ exists r0 r1 r2, ridata run = [r0; r1; r2].
Proof.
  destruct cherry_linear_run as (run & H & Hlen & Hfun & Hri & Hf & Hd).
  exists run. split; [exact H|]. split; [exact Hri|]. split.
  - apply forallb_forall. intros x Hx.
    apply in_map_iff in Hx. destruct Hx as (r & <- & Hr).
    apply valid_p_in_open_unit.
    rewrite <- Hfun in Hf, Hd.
    exact (expit_column_in_unit _ _ _ _ H Hf Hd r Hr).
  - destruct (ridata run) as [|r0 [|r1 [|r2 [|r3 l]]]]; try discriminate.
    now exists r0, r1, r2.
Qed.

(** C6, as stated, fails: asked for 0 rows of the three-row table, the
    call returns all three, and the source table, which had no column
    [RI] before the call, has one after it. *)
Lemma sample_observations_counterexample :
  exists run,
    UserTree cherry [2] (Name "linear") 12345 = Ok run
    /\ ridata_RI run = None
    /\ (exists table,
          fst (fst (sample_observations run (Some 0%Z) 0)) = Ok table
          /\ List.length table = 3)
    /\ ridata_RI (snd (fst (sample_observations run (Some 0%Z) 0)))
       = Some [0%Z; 1%Z; 0%Z].
Proof.
  destruct cherry_linear_run_valid as (run & H & Hri & Hv & r0 & r1 & r2 & Hrows).
  exists run. split; [exact H|]. split; [exact Hri|].
  destruct (sample_observations_full run 0 Hv (or_intror eq_refl))
    as [Hout Hcol].
  rewrite Hout, Hcol, Hrows. split.
  - eexists. split; reflexivity.
  - reflexivity.
Qed.

(** C6, amended.  [sample_observations(n)] first draws a column [RI]
    from the process-global generator.  When the column [expit] holds
    anything but probabilities, that draw raises ValueError, whatever
    [n] is, before a draw is made or the table is written.  Otherwise
    the column is written into the source table, whose rows and other
    columns stay as they were; for [0 < n <= rows] the call returns
    the rows at the positions the global generator's choice names,
    which are [n] rows at [n] distinct positions when that choice is
    made without replacement; for [n] above the number of rows, and
    for a negative [n], it raises ValueError; for [n = 0] and for no
    [n] it returns the whole table. *)
Theorem sample_observations_spec
  {G : Type} {gen : Generator G} {S : Type} {glob : RandomState S}
  (self : @GenerativeBase G) (n : Z) (s : S) :
  let ri := fst (draw_each binomial1 s (map expit (ridata self))) in
  let s1 := snd (draw_each binomial1 s (map expit (ridata self))) in
  let table := with_RI (ridata self) ri in
  let rows := Z.of_nat (List.length (ridata self)) in
  let after := snd (fst (sample_observations self (Some n) s)) in
  let out := fst (fst (sample_observations self (Some n) s)) in
  let positions :=
    fst (choice s1 (List.length (ridata self)) (Z.to_nat n)) in
  (forallb valid_p (map expit (ridata self)) = false ->
   sample_observations self (Some n) s = (Raise ValueError, self, s)
   /\ sample_observations self None s = (Raise ValueError, self, s))
  /\ (forallb valid_p (map expit (ridata self)) = true ->
      ridata after = ridata self
      /\ ridata_RI after = Some ri
      /\ map row_of table = ridata self
      /\ ((0 < n <= rows)%Z ->
          Forall (fun i => i < List.length (ridata self)) positions ->
          exists sub,
            out = Ok sub
            /\ List.length sub = List.length positions
            /\ Forall2 (fun i row => nth_error table i = Some row)
                       positions sub)
      /\ ((0 < n <= rows)%Z ->
          choice_without_replacement glob ->
          exists sub,
            out = Ok sub
            /\ List.length sub = Z.to_nat n
            /\ NoDup positions
            /\ Forall2 (fun i row => nth_error table i = Some row)
                       positions sub)
      /\ ((rows < n)%Z -> out = Raise ValueError)
      /\ ((n < 0)%Z -> out = Raise ValueError)
      /\ (n = 0%Z -> out = Ok table)
      /\ fst (fst (sample_observations self None s)) = Ok table).
Proof.
  intros ri s1 table rows after out positions.
  split.
  { intros Hv. split; now apply sample_observations_invalid. }
  intros Hv.
  pose proof (with_RI_length (ridata self) s) as Hlen.
  fold ri table in Hlen.
  subst after out. unfold sample_observations.
  rewrite (np_random_binomial_ok _ _ Hv).
  subst positions.
  destruct (draw_each binomial1 s (map expit (ridata self))) as [ri' s1'] eqn:D.
  cbn [fst snd] in ri, s1. subst ri s1. fold table.
  assert (Hmid : forall k,
            match DataFrame_sample s1' table k with
            | Raise e => (Raise e, set_RI self ri', s1')
            | Ok (sub, s2) => (Ok sub, set_RI self ri', s2)
            end
            = (match DataFrame_sample s1' table k with
               | Raise e => Raise e
               | Ok (sub, _) => Ok sub
               end,
               set_RI self ri',
               match DataFrame_sample s1' table k with
               | Raise _ => s1'
               | Ok (_, s2) => s2
               end)).
  { intros k. destruct (DataFrame_sample s1' table k) as [[sub s2]|e];
      reflexivity. }
  assert (Hrows : map row_of table = ridata self).
  { subst table. unfold with_RI.
    assert (L : List.length ri' = List.length (ridata self)).
    { pose proof (draw_each_length binomial1 s (map expit (ridata self))) as L.
      rewrite D in L. cbn [fst] in L. now rewrite length_map in L. }
    clear - L. revert ri' L.
    induction (ridata self) as [|r l IH]; intros [|z zs] L; cbn in *;
      try discriminate; [reflexivity|].
    f_equal. apply IH. lia. }
  assert (Hsample : (0 < n <= rows)%Z ->
            Forall (fun i => i < List.length (ridata self))
                   (fst (choice s1' (List.length (ridata self)) (Z.to_nat n))) ->
            exists sub,
              fst (fst (match n with
                        | 0%Z => (Ok table, set_RI self ri', s1')
                        | _ =>
                            match DataFrame_sample s1' table n with
                            | Raise e => (Raise e, set_RI self ri', s1')
                            | Ok (sub, s2) => (Ok sub, set_RI self ri', s2)
                            end
                        end)) = Ok sub
              /\ List.length sub
                 = List.length
                     (fst (choice s1' (List.length (ridata self))
                             (Z.to_nat n)))
              /\ Forall2 (fun i row => nth_error table i = Some row)
                         (fst (choice s1' (List.length (ridata self))
                                 (Z.to_nat n))) sub).
  { intros [Hpos Hle] C3.
    destruct n as [|p|p]; try lia.
    rewrite Hmid. cbn [fst].
    unfold DataFrame_sample.
    destruct (Z.pos p <? 0)%Z eqn:E0; [apply Z.ltb_lt in E0; lia|].
    rewrite Hlen. fold rows.
    destruct (rows <? Z.pos p)%Z eqn:E1; [apply Z.ltb_lt in E1; lia|].
    destruct (choice s1' (List.length (ridata self)) (Z.to_nat (Z.pos p)))
      as [pos s2] eqn:C.
    cbn [fst] in C3 |- *.
    destruct (mapM_total
                (fun i => lookup_or IndexError (nth_error table i)) pos)
      as [sub Hsub].
    { intros i Hi. rewrite Forall_forall in C3. specialize (C3 i Hi).
      destruct (nth_error table i) as [row|] eqn:N; [now exists row|].
      apply nth_error_None in N. lia. }
    rewrite Hsub. cbn [bind].
    exists sub. split; [reflexivity|].
    split; [now rewrite (mapM_length _ _ Hsub)|].
    apply mapM_Forall2 in Hsub.
    eapply Forall2_impl; [|exact Hsub].
    intros i row Hr. cbn beta in Hr.
    destruct (nth_error table i); [cbn in Hr; congruence | discriminate]. }
  split; [|split; [|split; [exact Hrows|split; [|split; [|split; [|split;
           [|split]]]]]]].
  - destruct n; [reflexivity| |]; rewrite Hmid; reflexivity.
  - destruct n; [reflexivity| |]; rewrite Hmid; reflexivity.
  - exact Hsample.
  - intros Hn Hchoice.
    assert (Hle : Z.to_nat n <= List.length (ridata self))
      by (subst rows; lia).
    destruct (Hchoice s1' _ _ Hle) as (C1 & C2 & C3).
    destruct (Hsample Hn C3) as (sub & Hout & Hl & Hf).
    exists sub. split; [exact Hout|]. split; [now rewrite Hl|].
    split; assumption.
  - intros Hgt. destruct n as [|p|p]; try lia.
    rewrite Hmid. cbn [fst].
    unfold DataFrame_sample.
    destruct (Z.pos p <? 0)%Z; [reflexivity|].
    rewrite Hlen. fold rows.
    destruct (rows <? Z.pos p)%Z eqn:E1; [reflexivity|].
    apply Z.ltb_ge in E1. lia.
  - intros Hneg. destruct n as [|p|p]; try lia.
    rewrite Hmid. reflexivity.
  - intros ->. reflexivity.
  - reflexivity.
Qed.

Lemma sample_observations_spec_witness :
  exists run,
    UserTree cherry [2] (Name "linear") 12345 = Ok run
    /\ exists sub,
         fst (fst (sample_observations run (Some 2%Z) 0)) = Ok sub
         /\ List.length sub = 2
         /\ Forall2
              (fun i row =>
                 nth_error
                   (with_RI (ridata run)
                      (fst (draw_each binomial1 0 (map expit (ridata run)))))
                   i = Some row)
              (fst (choice
                      (snd (draw_each binomial1 0 (map expit (ridata run))))
                      (List.length (ridata run)) 2))
              sub.
Proof.
  destruct cherry_linear_run_valid as (run & H & _ & Hv & r0 & r1 & r2 & Hrows).
  exists run. split; [exact H|].
  destruct (sample_observations_spec run 2 0) as (_ & Hvalid).
  destruct (Hvalid Hv) as (_ & _ & _ & _ & Hsub & _).
  destruct Hsub as (sub & Hout & Hlen & _ & Hf).
  - rewrite Hrows. cbn. lia.
  - exact alternating_choice.
  - exists sub. repeat split; assumption.
Defined.

(** C1.  The constructor draws from the run's own generator only, and
    [sample_observations] never advances that generator: its Bernoulli
    draws and its choice of rows come from the process-global state.
    Two calls on one run, so on the same tree, clades, model and seed,
    return different [RI] columns when the global state differs. *)
Theorem sample_observations_reads_global_state :
  (forall (G : Type) (gen : Generator G) (S : Type) (glob : RandomState S)
          (self : @GenerativeBase G) (nsamples : option Z) (s : S),
     rng (snd (fst (sample_observations self nsamples s))) = rng self)
  /\ exists run table0 table1,
       UserTree cherry [2] (Name "linear") 12345 = Ok run
       /\ fst (fst (sample_observations run None 0)) = Ok table0
       /\ fst (fst (sample_observations run None 1)) = Ok table1
       /\ map RI table0 = [0%Z; 1%Z; 0%Z]
       /\ map RI table1 = [1%Z; 0%Z; 1%Z].
Proof.
  split; [intros; apply sample_observations_rng|].
  destruct cherry_linear_run_valid as (run & H & _ & Hv & r0 & r1 & r2 & Hrows).
  exists run.
  destruct (sample_observations_full run 0 Hv (or_introl eq_refl)) as [H0 _].
  destruct (sample_observations_full run 1 Hv (or_introl eq_refl)) as [H1 _].
  rewrite H0, H1, Hrows.
  eexists. eexists. split; [exact H|].
  split; [reflexivity|]. split; [reflexivity|].
  split; reflexivity.
Qed.

(** ** When the constructor succeeds *)

Lemma get_crosses_total t :
  2 <= ntips t ->
  (forall i, i < ntips t -> path_to i t <> None) ->
  exists crosses, get_crosses t = Ok crosses.
Proof.
  intros Hn Hp. unfold get_crosses.
  destruct (mapM_total
              (fun '(i, j) => d <- get_dist t i j ;; Ok (mkCross i j (d / 2)))
              (combinations2 (range (ntips t)))) as [crosses Hc].
  { intros [i j] Hin. apply combinations2_seq_In in Hin.
    unfold get_dist, get_distance.
    destruct (path_to i t) as [p|] eqn:Ei; [|exfalso; apply (Hp i); [lia|easy]].
    destruct (path_to j t) as [q|] eqn:Ej; [|exfalso; apply (Hp j); [lia|easy]].
    destruct (below_ancestor p q) as [s s2]. cbn. eauto. }
  exists crosses. rewrite <- Hc.
  destruct (ntips t) as [|[|n]]; try lia. reflexivity.
Qed.

Lemma get_groups_total t cl :
  cl <> [] ->
  (forall j, In j cl -> idx_dict t j <> None) ->
  exists sizes,
    List.length sizes = List.length cl
    /\ get_groups t cl
       = Ok (enumerate sizes,
             List.concat (map (fun '(i, size) => repeat i size)
                            (enumerate sizes))).
Proof.
  intros Hne Hin. unfold get_groups, get_group_sizes.
  destruct (mapM_total
              (fun j => n <- lookup_or KeyError (idx_dict t j) ;; Ok (len n))
              cl) as [sizes Hs].
  { intros j Hj. specialize (Hin j Hj).
    destruct (idx_dict t j) as [n|]; [|contradiction]. cbn. eauto. }
  exists sizes. rewrite Hs. cbn [bind].
  pose proof (mapM_length _ _ Hs) as Hl. split; [exact Hl|].
  destruct cl as [|j cl]; [contradiction|].
  destruct sizes as [|z sizes]; [discriminate|]. reflexivity.
Qed.

Lemma groups_below sizes x :
  In x (List.concat (map (fun '(i, size) => repeat i size) (enumerate sizes))) ->
  x < List.length sizes.
Proof.
  intros H. apply in_concat in H. destruct H as (l & Hl & Hx).
  apply in_map_iff in Hl. destruct Hl as ([i size] & <- & Hi).
  apply repeat_spec in Hx. subst x.
  unfold enumerate in Hi. apply in_combine_l in Hi.
  apply in_seq in Hi. lia.
Qed.

Lemma linspace_length a b n : List.length (linspace a b n) = n.
Proof. unfold linspace. now rewrite length_map, length_seq. Qed.

Section Totality.
Context {G : Type} {gen : Generator G} {toytree : ToytreeLib}.

Lemma default_rng_total (seed : Z) :
  (0 <= seed)%Z -> default_rng seed = Ok (seeded (Z.to_N seed)).
Proof.
  intros H. unfold default_rng.
  destruct (seed <? 0)%Z eqn:E; [apply Z.ltb_lt in E; lia | reflexivity].
Qed.

(** A run is constructed whenever the seed is not negative, the tree
    can be scaled, the model name is filed in [MODEL_DICT], the anchors
    are nodes of the scaled tree, that tree has at least two tips, its
    tips carry the labels below [ntips], and the anchors hold at least
    as many tips as the tree has. *)
Lemma GenerativeBase_init_total tree0 cl model seed f t :
  (0 <= seed)%Z ->
  node_scale_root_height tree0 = Ok t ->
  select_model model = Ok f ->
  cl <> [] ->
  (forall j, In j cl -> idx_dict t j <> None) ->
  2 <= ntips t ->
  (forall i, i < ntips t -> path_to i t <> None) ->
  (forall gg, get_groups t cl = Ok gg -> ntips t <= List.length (snd gg)) ->
  exists run, GenerativeBase_init tree0 cl model seed = Ok run.
Proof.
  intros Hseed Ht Hm Hne Hcl Hn Hp Hsize.
  unfold GenerativeBase_init.
  rewrite (default_rng_total Hseed), Ht, Hm. cbn [bind].
  destruct (get_groups_total t Hne Hcl) as (sizes & Hlen & Hg).
  specialize (Hsize _ Hg). cbn [snd] in Hsize.
  rewrite Hg. cbn [bind].
  destruct (get_crosses_total t Hn Hp) as [crosses Hc].
  rewrite Hc. cbn [bind get_true_param_dists snd fst].
  set (groups := List.concat
                   (map (fun '(i, size) => repeat i size) (enumerate sizes)))
    in *.
  unfold get_species_data. cbn [psi_means psi_stds].
  destruct (mapM_total
              (fun i => lookup_or IndexError
                          (nth_error (linspace (-1 # 2) (1 # 2)
                                        (List.length cl)) i))
              groups) as [locs Hlocs].
  { intros i Hi. apply groups_below in Hi.
    destruct (nth_error (linspace (-1 # 2) (1 # 2) (List.length cl)) i) eqn:E;
      [cbn; eauto|].
    apply nth_error_None in E. rewrite linspace_length in E. lia. }
  destruct (mapM_total
              (fun i => lookup_or IndexError
                          (nth_error (linspace (5 # 100) (25 # 100)
                                        (List.length cl)) i))
              groups) as [scales Hscales].
  { intros i Hi. apply groups_below in Hi.
    destruct (nth_error (linspace (5 # 100) (25 # 100) (List.length cl)) i)
      eqn:E; [cbn; eauto|].
    apply nth_error_None in E. rewrite linspace_length in E. lia. }
  unfold take_at. rewrite Hlocs, Hscales. cbn [bind].
  pose proof (draw_each_length rng_normal (seeded (Z.to_N seed))
                (combine locs scales)) as Hd.
  destruct (draw_each rng_normal (seeded (Z.to_N seed)) (combine locs scales))
    as [psis rng1].
  cbn [fst] in Hd. cbn [bind fst snd].
  assert (Hsp : List.length (map2 mkSpecies groups psis) = List.length groups).
  { apply map2_length. rewrite Hd, length_combine.
    rewrite (mapM_length _ _ Hlocs), (mapM_length _ _ Hscales). lia. }
  unfold get_velocities.
  set (rows := sort_values (crosses ++ nulls t)).
  assert (Hrow : forall r, In r rows -> sidx0 r < ntips t /\ sidx1 r < ntips t).
  { intros r Hr.
    destruct (table_row_origin _ _ Hc Hr) as [(? & ? & _)|(? & ? & _)]; lia. }
  destruct (mapM_total
              (fun i => s <- lookup_or KeyError
                               (nth_error (map2 mkSpecies groups psis) i) ;;
                        Ok (psi s))
              (map sidx0 rows)) as [psi0 H0].
  { intros i Hi. apply in_map_iff in Hi. destruct Hi as (r & <- & Hr).
    destruct (nth_error (map2 mkSpecies groups psis) (sidx0 r)) eqn:E;
      [cbn; eauto|].
    apply nth_error_None in E. destruct (Hrow r Hr). lia. }
  destruct (mapM_total
              (fun i => s <- lookup_or KeyError
                               (nth_error (map2 mkSpecies groups psis) i) ;;
                        Ok (psi s))
              (map sidx1 rows)) as [psi1 H1].
  { intros i Hi. apply in_map_iff in Hi. destruct Hi as (r & <- & Hr).
    destruct (nth_error (map2 mkSpecies groups psis) (sidx1 r)) eqn:E;
      [cbn; eauto|].
    apply nth_error_None in E. destruct (Hrow r Hr). lia. }
  unfold psi_at. rewrite H0, H1. cbn [bind].
  destruct (draw_each _ rng1 _) as [velo rng2].
  cbn [bind]. eauto.
Qed.
End Totality.

(** * Further properties of the code *)

(** ** Nodes, labels and root paths *)

Lemma get_leaves_nonempty n : get_leaves n <> [].
Proof.
  induction n as [i d cs IH] using TreeNode_ind_children.
  destruct cs as [|c cs]; [discriminate|].
  cbn [get_leaves flat_map]. apply Forall_cons_iff in IH.
  destruct IH as [Hc _]. destruct (get_leaves c); [contradiction|discriminate].
Qed.

Lemma len_positive n : 1 <= len n.
Proof.
  unfold len. pose proof (get_leaves_nonempty n).
  destruct (get_leaves n); [contradiction | cbn; lia].
Qed.

Lemma path_to_children i j d cs :
  path_to i (mkNode j d cs)
  = if j =? i then Some [mkNode j d cs]
    else option_map (cons (mkNode j d cs)) (first_path i cs).
Proof.
  cbn [path_to]. destruct (j =? i); [reflexivity|].
  set (n := mkNode j d cs). clearbody n.
  induction cs as [|c r IH]; [reflexivity|].
  cbn [first_path]. destruct (path_to i c); [reflexivity | exact IH].
Qed.

(** A root path starts at the root, runs through nodes of the tree and
    ends at a node with the label asked for. *)
Lemma path_to_sound i t :
  forall p, path_to i t = Some p ->
    (exists r, p = t :: r)
    /\ Forall (fun n => In n (traverse t)) p
    /\ exists n, In n (traverse t) /\ idx n = i.
Proof.
  induction t as [j d cs IH] using TreeNode_ind_children.
  intros p. rewrite path_to_children.
  destruct (j =? i) eqn:E.
  - intros [= <-]. apply Nat.eqb_eq in E.
    split; [now exists []|]. split.
    + constructor; [apply traverse_self | constructor].
    + exists (mkNode j d cs). split; [apply traverse_self | exact E].
  - intros H.
    destruct (first_path i cs) as [q|] eqn:F; [|discriminate].
    cbn in H. injection H as <-.
    assert (Hq : exists c, In c cs /\ path_to i c = Some q).
    { clear IH. induction cs as [|c r IHr]; [discriminate|].
      cbn in F. destruct (path_to i c) eqn:P.
      - injection F as ->. exists c. split; [now left | exact P].
      - destruct (IHr F) as (c' & Hc' & Hp). exists c'. split; [now right | exact Hp]. }
    destruct Hq as (c & Hc & Hp).
    rewrite Forall_forall in IH.
    destruct (IH c Hc q Hp) as (_ & Hall & n & Hn & Hi).
    assert (Hsub : forall m, In m (traverse c) -> In m (traverse (mkNode j d cs))).
    { intros m Hm. cbn [traverse]. right. apply in_flat_map. now exists c. }
    split; [now exists q|]. split.
    + constructor; [apply traverse_self|].
      eapply Forall_impl; [|exact Hall]. exact Hsub.
    + exists n. split; [now apply Hsub | exact Hi].
Qed.

Lemma path_to_complete i t :
  (exists n, In n (traverse t) /\ idx n = i) -> path_to i t <> None.
Proof.
  induction t as [j d cs IH] using TreeNode_ind_children.
  intros (n & Hn & Hi). rewrite path_to_children.
  destruct (j =? i) eqn:E; [discriminate|].
  cbn [traverse] in Hn. destruct Hn as [<-|Hn].
  - cbn in Hi. apply Nat.eqb_neq in E. contradiction.
  - apply in_flat_map in Hn. destruct Hn as (c & Hc & Hn).
    assert (F : first_path i cs <> None).
    { rewrite Forall_forall in IH.
      clear E. induction cs as [|c' r IHr]; [destruct Hc|].
      cbn. destruct (path_to i c') eqn:P; [discriminate|].
      destruct Hc as [->|Hc].
      - exfalso. apply (IH c (or_introl eq_refl)); [now exists n | exact P].
      - apply IHr; [|exact Hc]. intros x Hx. apply IH. now right. }
    destruct (first_path i cs); [discriminate | contradiction].
Qed.

Lemma idx_dict_Some_iff t i :
  idx_dict t i <> None <-> exists n, In n (traverse t) /\ idx n = i.
Proof.
  unfold idx_dict. split.
  - destruct (find (fun n => idx n =? i) (traverse t)) as [n|] eqn:F;
      [|contradiction].
    intros _. apply find_some in F. destruct F as [Hn Hi].
    exists n. split; [exact Hn | now apply Nat.eqb_eq].
  - intros (n & Hn & Hi) F.
    apply (find_none _ _ F) in Hn. apply Nat.eqb_neq in Hn. contradiction.
Qed.

Lemma path_to_idx_dict t i : path_to i t <> None <-> idx_dict t i <> None.
Proof.
  rewrite idx_dict_Some_iff. split.
  - destruct (path_to i t) as [p|] eqn:P; [|contradiction].
    intros _. now destruct (path_to_sound _ _ P) as (_ & _ & H).
  - apply path_to_complete.
Qed.

Lemma idx_dict_None_of_path t i : path_to i t = None -> idx_dict t i = None.
Proof.
  intros P. destruct (idx_dict t i) eqn:E; [|reflexivity].
  exfalso. apply (proj2 (path_to_idx_dict t i)); [rewrite E; discriminate|].
  exact P.
Qed.

Lemma idx_dict_Some_of_path t i p :
  path_to i t = Some p -> idx_dict t i <> None.
Proof.
  intros P. apply (proj1 (path_to_idx_dict t i)). rewrite P. discriminate.
Qed.

(** ** [get_dist]: which labels it answers for *)

(** [get_dist] answers exactly when both labels are labels of nodes of
    the tree; when one of them is not, it raises KeyError, and it raises
    nothing else. *)
Theorem get_dist_KeyError (t : TreeNode) (a b : nat) :
  ((exists d, get_dist t a b = Ok d)
   <-> (idx_dict t a <> None /\ idx_dict t b <> None))
  /\ (get_dist t a b = Raise KeyError
      <-> (idx_dict t a = None \/ idx_dict t b = None))
  /\ (forall e, get_dist t a b = Raise e -> e = KeyError).
Proof.
  unfold get_dist, get_distance.
  destruct (path_to a t) as [p|] eqn:Pa.
  - pose proof (idx_dict_Some_of_path _ _ Pa) as Ha.
    destruct (path_to b t) as [q|] eqn:Pb.
    + pose proof (idx_dict_Some_of_path _ _ Pb) as Hb.
      destruct (below_ancestor p q) as [s s2]. cbn.
      split; [|split].
      * split; [now intros _ | eauto].
      * split; [discriminate | intros [H|H]; contradiction].
      * discriminate.
    + pose proof (idx_dict_None_of_path _ _ Pb) as Hb. cbn.
      split; [|split].
      * split; [intros [d H]; discriminate | intros [_ H]; contradiction].
      * split; [intros _; now right | reflexivity].
      * now intros e [= <-].
  - pose proof (idx_dict_None_of_path _ _ Pa) as Ha. cbn.
    split; [|split].
    + split; [intros [d H]; discriminate | intros [H _]; contradiction].
    + split; [intros _; now left | reflexivity].
    + now intros e [= <-].
Qed.

(** ** [get_groups] *)

Lemma mapM_Raise {A B : Type} (f : A -> result B) (l : list A) e :
  mapM f l = Raise e -> exists a, In a l /\ f a = Raise e.
Proof.
  induction l as [|a r IH]; cbn; [discriminate|].
  destruct (f a) as [b|e'] eqn:Fa; cbn.
  - destruct (mapM f r) as [bs|e'']; cbn; [discriminate|].
    intros [= <-]. destruct (IH eq_refl) as (x & Hx & Hf).
    exists x. split; [now right | exact Hf].
  - intros [= <-]. exists a. split; [now left | exact Fa].
Qed.

Lemma mapM_fails {A B : Type} (f : A -> result B) (l : list A) a e :
  In a l -> f a = Raise e -> exists e', mapM f l = Raise e'.
Proof.
  induction l as [|x r IH]; intros Hin Hf; [destruct Hin|].
  cbn. destruct Hin as [->|Hin].
  - rewrite Hf. cbn. eauto.
  - destruct (f x); cbn; [|eauto].
    destruct (IH Hin Hf) as [e' ->]. cbn. eauto.
Qed.

Lemma blocks_cons s z sizes :
  blocks s (z :: sizes) = repeat s z ++ blocks (S s) sizes.
Proof. reflexivity. Qed.

Lemma blocks_range s sizes x :
  In x (blocks s sizes) -> s <= x < s + List.length sizes.
Proof.
  revert s. induction sizes as [|z sizes IH]; intros s H; [destruct H|].
  rewrite blocks_cons in H. apply in_app_iff in H. destruct H as [H|H].
  - apply repeat_spec in H. cbn. lia.
  - apply IH in H. cbn. lia.
Qed.

Lemma blocks_length s sizes :
  List.length (blocks s sizes) = list_sum sizes.
Proof.
  revert s. induction sizes as [|z sizes IH]; intros s; [reflexivity|].
  rewrite blocks_cons, length_app, repeat_length, IH. reflexivity.
Qed.

Lemma blocks_sorted s sizes : StronglySorted le (blocks s sizes).
Proof.
  revert s. induction sizes as [|z sizes IH]; intros s; [constructor|].
  rewrite blocks_cons.
  induction z as [|z IHz]; cbn [repeat app]; [apply IH|].
  constructor; [exact IHz|].
  apply Forall_forall. intros x Hx. apply in_app_iff in Hx.
  destruct Hx as [Hx|Hx].
  - apply repeat_spec in Hx. lia.
  - apply blocks_range in Hx. lia.
Qed.

Lemma blocks_count s sizes i size :
  In (i, size) (combine (seq s (List.length sizes)) sizes) ->
  count_occ Nat.eq_dec (blocks s sizes) i = size.
Proof.
  revert s. induction sizes as [|z sizes IH]; intros s H; [destruct H|].
  rewrite blocks_cons, count_occ_app.
  cbn [List.length seq combine] in H. destruct H as [H|H].
  - injection H as <- <-.
    rewrite count_occ_repeat_eq by reflexivity.
    rewrite (proj1 (count_occ_not_In Nat.eq_dec _ _)); [lia|].
    intros Hin. apply blocks_range in Hin. lia.
  - assert (Hi : S s <= i).
    { apply in_combine_l, in_seq in H. lia. }
    rewrite count_occ_repeat_neq by lia.
    now rewrite (IH (S s) H).
Qed.

Lemma combine_seq_fst {A : Type} s (l : list A) :
  map fst (combine (seq s (List.length l)) l) = seq s (List.length l).
Proof.
  revert s. induction l as [|a l IH]; intros s; cbn; [reflexivity|].
  now rewrite IH.
Qed.

Lemma combine_seq_snd {A : Type} s (l : list A) :
  map snd (combine (seq s (List.length l)) l) = l.
Proof.
  revert s. induction l as [|a l IH]; intros s; cbn; [reflexivity|].
  now rewrite IH.
Qed.

(** What [get_groups] returns when it returns. *)
Lemma get_groups_inv t cl gs groups :
  get_groups t cl = Ok (gs, groups) ->
  exists sizes,
    cl <> []
    /\ List.length sizes = List.length cl
    /\ Forall2 (fun j size => exists n, idx_dict t j = Some n /\ size = len n)
               cl sizes
    /\ gs = enumerate sizes
    /\ groups = blocks 0 sizes.
Proof.
  unfold get_groups, get_group_sizes. intros H.
  inv_bind H. inv_bind E. injection E as <-.
  pose proof (mapM_length _ _ E0) as Hlen.
  apply mapM_Forall2 in E0.
  assert (Hne : cl <> []).
  { intros ->. inversion E0; subst. discriminate H. }
  exists a0. split; [exact Hne|]. split; [exact Hlen|]. split.
  - eapply Forall2_impl; [|exact E0].
    intros j size Hj. cbn beta in Hj.
    destruct (idx_dict t j) as [n|]; [|discriminate].
    cbn in Hj. injection Hj as <-. now exists n.
  - unfold np_concatenate in H.
    destruct (map (fun '(i, size) => repeat i size) (enumerate a0)) eqn:M;
      [discriminate|].
    injection H as <- <-. split; [reflexivity|].
    unfold blocks. fold (enumerate a0). now rewrite M.
Qed.

(** When [get_groups] returns, the clades are numbered 0, 1, ... in the
    order of the anchors; the size of a clade is the number of tips
    below its anchor and is never 0; [groups] holds each clade number
    as often as the clade's size says, in ascending order, and nothing
    else. *)
Theorem get_groups_spec (t : TreeNode) (cl : list nat)
  (gs : list (nat * nat)) (groups : list nat) :
  get_groups t cl = Ok (gs, groups) ->
  map fst gs = seq 0 (List.length cl)
  /\ Forall2 (fun j size =>
                exists n, idx_dict t j = Some n /\ size = len n /\ 1 <= size)
             cl (map snd gs)
  /\ (forall i size, In (i, size) gs -> count_occ Nat.eq_dec groups i = size)
  /\ (forall x, In x groups -> x < List.length cl)
  /\ StronglySorted le groups
  /\ List.length groups = list_sum (map snd gs).
Proof.
  intros H.
  destruct (get_groups_inv _ _ H) as (sizes & _ & Hlen & Hsz & -> & ->).
  unfold enumerate. rewrite combine_seq_fst, combine_seq_snd, Hlen.
  split; [reflexivity|]. split; [|split; [|split; [|split]]].
  - eapply Forall2_impl; [|exact Hsz].
    intros j size (n & Hn & ->). exists n.
    split; [exact Hn|]. split; [reflexivity | apply len_positive].
  - intros i size Hin. rewrite <- Hlen in Hin. now apply blocks_count.
  - intros x Hx. apply blocks_range in Hx. lia.
  - apply blocks_sorted.
  - apply blocks_length.
Qed.

Lemma get_groups_spec_witness :
  map fst [(0, 2); (1, 2)] = seq 0 2
  /\ count_occ Nat.eq_dec [0; 0; 1; 1] 1 = 2
  /\ StronglySorted le [0; 0; 1; 1]
  /\ List.length [0; 0; 1; 1] = list_sum (map snd [(0, 2); (1, 2)]).
Proof.
  assert (H : get_groups balanced4 [5; 4]
              = Ok ([(0, 2); (1, 2)], [0; 0; 1; 1])) by reflexivity.
  destruct (get_groups_spec _ _ H) as (H1 & _ & H3 & _ & H5 & H6).
  split; [exact H1|]. split; [|split; [exact H5 | exact H6]].
  apply (H3 1 2). right. left. reflexivity.
Defined.

Lemma classic_labels t (cl : list nat) :
  (forall j, In j cl -> idx_dict t j <> None)
  \/ exists j, In j cl /\ idx_dict t j = None.
Proof.
  induction cl as [|j cl IH].
  - left. intros j [].
  - destruct (idx_dict t j) eqn:E.
    + destruct IH as [IH|(x & Hx & Hn)].
      * left. intros x [<-|Hx]; [rewrite E; discriminate | now apply IH].
      * right. exists x. split; [now right | exact Hn].
    + right. exists j. split; [now left | exact E].
Qed.

(** [get_groups] raises ValueError for an empty list of anchors,
    KeyError when an anchor is not the label of a node, and returns for
    every other list of anchors. *)
Theorem get_groups_errors (t : TreeNode) (cl : list nat) :
  (get_groups t cl = Raise ValueError <-> cl = [])
  /\ (get_groups t cl = Raise KeyError
      <-> exists j, In j cl /\ idx_dict t j = None)
  /\ ((exists gg, get_groups t cl = Ok gg)
      <-> (cl <> [] /\ forall j, In j cl -> idx_dict t j <> None))
  /\ (forall e, get_groups t cl = Raise e -> e = ValueError \/ e = KeyError).
Proof.
  destruct cl as [|j0 cl0] eqn:Ecl.
  - split; [|split; [|split]].
    + split; reflexivity.
    + split; [discriminate | intros (j & [] & _)].
    + split; [intros [gg H]; discriminate | intros [H _]; contradiction].
    + intros e [= <-]. now left.
  - rewrite <- Ecl.
    assert (Hne : cl <> []) by (rewrite Ecl; discriminate).
    clear Ecl.
    destruct (classic_labels t cl) as [Hall|(j & Hj & Hnone)].
    + destruct (get_groups_total t Hne Hall) as (sizes & _ & Hg).
      rewrite Hg. split; [|split; [|split]].
      * split; [discriminate | contradiction].
      * split; [discriminate|].
        intros (j & Hj & Hn). exfalso. now apply (Hall j Hj).
      * split; [intros _; now split | eauto].
      * discriminate.
    + assert (Hk : get_groups t cl = Raise KeyError).
      { unfold get_groups, get_group_sizes.
        destruct (mapM_fails
                    (fun j => n <- lookup_or KeyError (idx_dict t j) ;;
                              Ok (len n)) cl j (e:=KeyError) Hj)
          as [e' He']; [now rewrite Hnone|].
        rewrite He'. cbn.
        apply mapM_Raise in He'. destruct He' as (a & _ & Ha).
        destruct (idx_dict t a); cbn in Ha; [discriminate|].
        now injection Ha as <-. }
      rewrite Hk. split; [|split; [|split]].
      * split; [discriminate | contradiction].
      * split; [eauto | reflexivity].
      * split; [intros [gg H]; discriminate|].
        intros [_ Hall]. exfalso. now apply (Hall j Hj).
      * intros e [= <-]. now right.
Qed.

(** ** [get_crosses]: when it raises *)

Lemma get_dist_Raise t a b e :
  get_dist t a b = Raise e ->
  e = KeyError /\ (idx_dict t a = None \/ idx_dict t b = None).
Proof.
  unfold get_dist, get_distance.
  destruct (path_to a t) as [p|] eqn:Pa.
  - destruct (path_to b t) as [q|] eqn:Pb.
    + destruct (below_ancestor p q). discriminate.
    + cbn. intros [= <-]. split; [reflexivity|].
      right. now apply idx_dict_None_of_path.
  - cbn. intros [= <-]. split; [reflexivity|].
    left. now apply idx_dict_None_of_path.
Qed.

Lemma get_crosses_few t : ntips t < 2 -> get_crosses t = Raise ValueError.
Proof.
  intros H. unfold get_crosses.
  destruct (ntips t) as [|[|n]]; [reflexivity | reflexivity | lia].
Qed.

Lemma get_crosses_many t :
  2 <= ntips t ->
  get_crosses t
  = mapM (fun '(i, j) => d <- get_dist t i j ;; Ok (mkCross i j (d / 2)))
         (combinations2 (range (ntips t))).
Proof.
  intros H. unfold get_crosses.
  destruct (ntips t) as [|[|n]]; [lia | lia | reflexivity].
Qed.

Lemma get_crosses_Raise t e :
  get_crosses t = Raise e ->
  (e = ValueError /\ ntips t < 2)
  \/ (e = KeyError /\ 2 <= ntips t
      /\ exists i, i < ntips t /\ idx_dict t i = None).
Proof.
  intros H. destruct (Nat.lt_ge_cases (ntips t) 2) as [Hn|Hn].
  - rewrite (@get_crosses_few t Hn) in H. injection H as <-. now left.
  - right. rewrite (@get_crosses_many t Hn) in H.
    apply mapM_Raise in H. destruct H as ([i j] & Hin & Hf).
    apply combinations2_seq_In in Hin.
    destruct (get_dist t i j) as [d|e'] eqn:D; [discriminate|].
    cbn in Hf. injection Hf as <-.
    destruct (get_dist_Raise _ _ _ D) as [-> [Hi|Hj]].
    + split; [reflexivity|]. split; [exact Hn|]. exists i. split; [lia|exact Hi].
    + split; [reflexivity|]. split; [exact Hn|]. exists j. split; [lia|exact Hj].
Qed.

Lemma get_crosses_missing t i :
  2 <= ntips t -> i < ntips t -> idx_dict t i = None ->
  get_crosses t = Raise KeyError.
Proof.
  intros Hn Hi Hnone.
  assert (Hpair : exists a b,
             In (a, b) (combinations2 (range (ntips t))) /\ (a = i \/ b = i)).
  { destruct i as [|i].
    - exists 0, 1. split; [apply combinations2_seq_In; lia | now left].
    - exists 0, (S i). split; [apply combinations2_seq_In; lia | now right]. }
  destruct Hpair as (a & b & Hin & Hab).
  assert (Hd : get_dist t a b = Raise KeyError).
  { unfold get_dist, get_distance.
    destruct (path_to a t) as [p|] eqn:Pa; [|reflexivity].
    destruct (path_to b t) as [q|] eqn:Pb; [|reflexivity].
    exfalso. destruct Hab as [->| ->].
    - now apply (idx_dict_Some_of_path _ _ Pa).
    - now apply (idx_dict_Some_of_path _ _ Pb). }
  destruct (get_crosses t) as [c|e] eqn:E.
  - exfalso. rewrite (@get_crosses_many t Hn) in E.
    destruct (mapM_fails
                (fun '(i, j) => d <- get_dist t i j ;; Ok (mkCross i j (d / 2)))
                _ (a, b) (e:=KeyError) Hin) as [e' He'].
    + now rewrite Hd.
    + rewrite He' in E. discriminate.
  - destruct (get_crosses_Raise _ E) as [[-> Hlt]|[-> _]]; [lia | reflexivity].
Qed.

(** [get_crosses] raises ValueError exactly on a tree with fewer than
    two tips, KeyError exactly when the tree has two tips or more and
    one of the labels 0 .. ntips-1 is not the label of a node, and
    returns in every other case. *)
Theorem get_crosses_errors (t : TreeNode) :
  (get_crosses t = Raise ValueError <-> ntips t < 2)
  /\ (get_crosses t = Raise KeyError
      <-> 2 <= ntips t /\ exists i, i < ntips t /\ idx_dict t i = None)
  /\ ((exists crosses, get_crosses t = Ok crosses)
      <-> 2 <= ntips t /\ forall i, i < ntips t -> idx_dict t i <> None)
  /\ (forall e, get_crosses t = Raise e -> e = ValueError \/ e = KeyError).
Proof.
  split; [|split; [|split]].
  - split; [|apply get_crosses_few].
    intros H. destruct (get_crosses_Raise _ H) as [[_ Hn]|[He _]];
      [exact Hn | discriminate].
  - split.
    + intros H. destruct (get_crosses_Raise _ H) as [[He _]|[_ Hn]];
        [discriminate | exact Hn].
    + intros (Hn & i & Hi & Hnone). now apply (@get_crosses_missing t i).
  - split.
    + intros [c Hc].
      destruct (Nat.lt_ge_cases (ntips t) 2) as [Hn|Hn].
      { rewrite (@get_crosses_few t Hn) in Hc. discriminate. }
      split; [exact Hn|]. intros i Hi Hnone.
      rewrite (@get_crosses_missing t i Hn Hi Hnone) in Hc. discriminate.
    + intros [Hn Hall]. apply get_crosses_total; [exact Hn|].
      intros i Hi. apply path_to_idx_dict. now apply Hall.
  - intros e H. destruct (get_crosses_Raise _ H) as [[-> _]|[-> _]];
      [now left | now right].
Qed.

(** ** [get_clade_idxs]: what it returns and what it raises *)

Lemma remove_first_incl x l y : In y (remove_first x l) -> In y l.
Proof.
  induction l as [|z l IH]; cbn; [easy|].
  destruct (z =? x); [now right|].
  intros [->|H]; [now left | right; now apply IH].
Qed.

Lemma sorted_by_children_total t l :
  Forall (fun x => idx_dict t x <> None) l ->
  exists sidxs,
    sorted_by_children t l = Ok sidxs /\ List.length sidxs = List.length l.
Proof.
  intros Hall. unfold sorted_by_children.
  destruct (mapM_total (fun x => k <- nchildren t x ;; Ok (k, x)) l)
    as [keyed Hk].
  { intros x Hx. rewrite Forall_forall in Hall. specialize (Hall x Hx).
    unfold nchildren. destruct (idx_dict t x); [|contradiction].
    cbn. eauto. }
  rewrite Hk. cbn. eexists. split; [reflexivity|].
  rewrite <- (mapM_length _ _ Hk).
  apply Permutation_length, Permutation_sym, stable_sort_perm.
Qed.

(** One turn on anchors that are labels of nodes: it raises IndexError
    when there is no anchor and otherwise returns labels of nodes. *)
Lemma expand_step_nodes t l :
  Forall (fun x => idx_dict t x <> None) l ->
  match expand_step t l with
  | Ok l' => l <> [] /\ Forall (fun x => idx_dict t x <> None) l'
  | Raise e => e = IndexError /\ l = []
  end.
Proof.
  intros Hall.
  destruct (sorted_by_children_total t Hall) as (sidxs & Hs & Hlen).
  destruct sidxs as [|[c x] rest].
  - unfold expand_step. rewrite Hs. cbn.
    split; [reflexivity|]. destruct l; [reflexivity | discriminate].
  - destruct (expand_step t l) as [l'|e] eqn:E.
    + destruct (expand_step_head _ _ Hs E) as (n & Hn & _ & Hin & ->).
      split; [intros ->; destruct Hin|].
      apply Forall_app. split.
      * apply Forall_forall. intros y Hy. apply remove_first_incl in Hy.
        rewrite Forall_forall in Hall. now apply Hall.
      * apply Forall_forall. intros y Hy. apply in_map_iff in Hy.
        destruct Hy as (c' & <- & Hc'). apply idx_dict_Some_iff.
        exists c'. split; [|reflexivity].
        apply (children_in_traverse t n); [|exact Hc'].
        unfold idx_dict in Hn. now apply find_some in Hn.
    + exfalso. unfold expand_step in E. rewrite Hs in E. cbn [bind] in E.
      assert (Hx : In x l).
      { unfold sorted_by_children in Hs. inv_bind Hs. injection Hs as Hs.
        destruct (keyed_spec _ _ E0) as [Hl _]. rewrite <- Hl.
        apply in_map_iff. exists (c, x). split; [reflexivity|].
        eapply Permutation_in;
          [apply Permutation_sym,
                 (stable_sort_perm (fun a b => fst a <=? fst b))|].
        rewrite Hs. now left. }
      rewrite Forall_forall in Hall. specialize (Hall x Hx).
      destruct (idx_dict t x); [discriminate | contradiction].
Qed.

Lemma expand_loop_nodes t k l :
  Forall (fun x => idx_dict t x <> None) l ->
  match expand_loop t k l with
  | Ok l' => Forall (fun x => idx_dict t x <> None) l'
  | Raise e => e = IndexError
  end.
Proof.
  revert l. induction k as [|k IH]; intros l Hall; cbn; [exact Hall|].
  pose proof (expand_step_nodes t Hall) as Hs.
  destruct (expand_step t l) as [l'|e]; cbn.
  - apply IH, Hs.
  - apply Hs.
Qed.

Lemma root_label t : idx_dict t (idx t) <> None.
Proof.
  apply idx_dict_Some_iff. exists t. split; [apply traverse_self | reflexivity].
Qed.

(** Whatever the tree and the clade count, [get_clade_idxs] returns
    labels of nodes of the tree or raises IndexError, which is what
    [sidxs[0]] raises on a turn that finds no anchor left; without a
    clade count it raises TypeError.  For a clade count of 1 or less no
    turn runs and the root is the only anchor.  What it returns,
    [get_groups] accepts on the same tree, unless no anchor is left,
    which [get_groups] answers with ValueError. *)
Theorem get_clade_idxs_anchors (t : TreeNode) :
  get_clade_idxs t None = Raise TypeError
  /\ (forall k, (k <= 1)%Z -> get_clade_idxs t (Some k) = Ok [idx t])
  /\ (forall k,
        match get_clade_idxs t (Some k) with
        | Ok l =>
            Forall (fun x => idx_dict t x <> None) l
            /\ (l = [] -> get_groups t l = Raise ValueError)
            /\ (l <> [] -> exists gg, get_groups t l = Ok gg)
        | Raise e => e = IndexError
        end).
Proof.
  split; [reflexivity|]. split.
  - intros k Hk. cbn. replace (Z.to_nat (k - 1)) with 0 by lia. reflexivity.
  - intros k. cbn [get_clade_idxs].
    assert (H0 : Forall (fun x => idx_dict t x <> None) [idx t])
      by (constructor; [apply root_label | constructor]).
    pose proof (expand_loop_nodes t (Z.to_nat (k - 1)) H0) as H.
    destruct (expand_loop t (Z.to_nat (k - 1)) [idx t]) as [l|e];
      [|exact H].
    split; [exact H|]. split.
    + intros ->. reflexivity.
    + intros Hne.
      destruct (@get_groups_total t l Hne) as (sizes & _ & Hg).
      * rewrite Forall_forall in H. exact H.
      * eauto.
Qed.

(** ** The constructor, stage by stage *)

Lemma map2_mkSpecies_gidx groups psis :
  List.length psis = List.length groups ->
  map gidx (map2 mkSpecies groups psis) = groups.
Proof.
  revert psis. induction groups as [|g groups IH]; intros [|p psis] H;
    cbn in *; try discriminate; [reflexivity|].
  injection H as H. now rewrite IH.
Qed.

Section RunStages.
Context {G : Type} {gen : Generator G} {toytree : ToytreeLib}.

Lemma get_species_data_spec (g : G) params groups sp g' :
  get_species_data g params groups = Ok (sp, g') ->
  map gidx sp = groups
  /\ (forall i, In i groups ->
        i < List.length (psi_means params)
        /\ i < List.length (psi_stds params)).
Proof.
  unfold get_species_data, take_at. intros H.
  inv_bind H. inv_bind H.
  pose proof (mapM_length _ _ E) as L0.
  pose proof (mapM_length _ _ E0) as L1.
  apply mapM_Forall2 in E, E0.
  pose proof (draw_each_length rng_normal g (combine a a0)) as Hd.
  destruct (draw_each rng_normal g (combine a a0)) as [psis g1].
  cbn [fst] in Hd. injection H as <- <-. split.
  - apply map2_mkSpecies_gidx. rewrite Hd, length_combine. lia.
  - intros i Hi. split.
    + destruct (Forall2_In_l _ E Hi) as (x & _ & Hx).
      destruct (nth_error (psi_means params) i) eqn:N; [|discriminate].
      apply nth_error_Some. rewrite N. discriminate.
    + destruct (Forall2_In_l _ E0 Hi) as (x & _ & Hx).
      destruct (nth_error (psi_stds params) i) eqn:N; [|discriminate].
      apply nth_error_Some. rewrite N. discriminate.
Qed.

Lemma psi_at_bound spdata labels psis i :
  psi_at spdata labels = Ok psis -> In i labels -> i < List.length spdata.
Proof.
  unfold psi_at. intros H Hi. apply mapM_Forall2 in H.
  destruct (Forall2_In_l _ H Hi) as (x & _ & Hx).
  destruct (nth_error spdata i) eqn:N; [|discriminate].
  apply nth_error_Some. rewrite N. discriminate.
Qed.

(** Every stage of a successful construction, with its inputs. *)
Lemma GenerativeBase_init_stages tree0 cl model seed (run : @GenerativeBase G) :
  GenerativeBase_init tree0 cl model seed = Ok run ->
  exists crosses rng1 vv,
    node_scale_root_height tree0 = Ok (tree run)
    /\ clade_idxs run = cl
    /\ select_model model = Ok (function run)
    /\ get_groups (tree run) cl = Ok (group_sizes run, groups run)
    /\ get_crosses (tree run) = Ok crosses
    /\ params run = fixed_params cl
    /\ get_species_data (seeded (Z.to_N seed)) (fixed_params cl) (groups run)
       = Ok (spdata run, rng1)
    /\ get_velocities (tree run) crosses (fixed_params cl) (spdata run) rng1
       = Ok (vv, rng run)
    /\ ridata run
       = zip_rows (v_rows vv) (v_distnorm vv) (v_joint_velo vv)
           (get_logit (function run) (v_joint_velo vv)
              (map (fun r => of_float (dist r)) (v_rows vv)))
    /\ ridata_RI run = None
    /\ (0 <= seed)%Z.
Proof.
  unfold GenerativeBase_init. intros H.
  destruct (default_rng seed) as [rng0|] eqn:Eg; [cbn [bind] in H|discriminate].
  apply default_rng_inv in Eg. destruct Eg as [Hseed ->].
  destruct (node_scale_root_height tree0) as [t|] eqn:Et;
    [cbn [bind] in H|discriminate].
  destruct (select_model model) as [f|] eqn:Ef; [cbn [bind] in H|discriminate].
  destruct (get_groups t cl) as [[gs grp]|] eqn:Egg;
    [cbn [bind] in H|discriminate].
  destruct (get_crosses t) as [crosses|] eqn:Ec;
    [cbn [bind] in H|discriminate].
  cbn [get_true_param_dists snd fst] in H.
  destruct (get_species_data _ _ grp) as [[sp g1]|] eqn:Es;
    [cbn [bind] in H|discriminate].
  cbn [snd fst] in H.
  destruct (get_velocities t crosses _ sp g1) as [[vv g2]|] eqn:Ev;
    [cbn [bind] in H|discriminate].
  injection H as <-.
  cbn [tree clade_idxs function ridata_RI ridata group_sizes groups params
       spdata rng fst snd].
  exists crosses, g1, vv. repeat split; assumption.
Qed.

End RunStages.

Section RunInvariants.
Context {G : Type} {gen : Generator G} {toytree : ToytreeLib}.

Lemma get_velocities_psi t crosses params spdata (g : G) vv g' :
  get_velocities t crosses params spdata g = Ok (vv, g') ->
  (exists psis,
     psi_at spdata (map sidx0 (sort_values (crosses ++ nulls t))) = Ok psis)
  /\ v_rows vv = sort_values (crosses ++ nulls t)
  /\ v_distnorm vv
     = (let dists := map (fun r => of_float (dist r)) (v_rows vv) in
        map (fun d => div (sub d (mean dists)) (mean dists)) dists).
Proof.
  unfold get_velocities. intros H.
  inv_bind H. inv_bind H.
  destruct (draw_each _ g _) as [velo g2].
  injection H as <- <-. cbn [v_rows v_distnorm].
  split; [eauto|]. split; reflexivity.
Qed.

Lemma constructed_tips tree0 cl model seed (run : @GenerativeBase G) :
  GenerativeBase_init tree0 cl model seed = Ok run ->
  2 <= ntips (tree run)
  /\ (forall i, i < ntips (tree run) -> idx_dict (tree run) i <> None)
  /\ ntips (tree run) <= List.length (spdata run).
Proof.
  intros H.
  destruct (GenerativeBase_init_stages _ _ _ _ H)
    as (crosses & rng1 & vv & _ & _ & _ & _ & Hc & _ & _ & Hv & _).
  assert (Hn : 2 <= ntips (tree run)).
  { destruct (Nat.lt_ge_cases (ntips (tree run)) 2) as [Hlt|Hge];
      [|exact Hge].
    rewrite (@get_crosses_few (tree run) Hlt) in Hc. discriminate. }
  split; [exact Hn|]. split.
  - intros i Hi Hnone.
    rewrite (@get_crosses_missing (tree run) i Hn Hi Hnone) in Hc.
    discriminate.
  - destruct (get_velocities_psi _ _ _ _ _ Hv) as ([psis Hpsi] & _).
    destruct (@table_complete (tree run) crosses (ntips (tree run) - 1)
                (ntips (tree run) - 1) Hc)
      as (r & Hr & Hk); [lia | lia |].
    unfold key in Hk. injection Hk as Hk _.
    assert (Hin : In (ntips (tree run) - 1)
                     (map sidx0 (sort_values (crosses ++ nulls (tree run))))).
    { apply in_map_iff. exists r. split; [exact Hk | exact Hr]. }
    pose proof (@psi_at_bound _ _ _ _ Hpsi Hin). lia.
Qed.

(** Once a run is constructed, its tree has at least two tips and a
    node for every label below the number of tips; the list of anchors
    is not empty; [group_sizes] and [groups] are what [get_groups]
    returns on the scaled tree; the parameters are those of the fixed
    mode; [spdata] has one row per entry of [groups], carrying that
    entry as its clade, so as many rows as the clade sizes add up to;
    and no tip is left without a row in [spdata]. *)
Theorem constructed_run_invariants
  (tree0 : TreeNode) (cl : list nat) (model : model_arg) (seed : Z)
  (run : @GenerativeBase G) :
  GenerativeBase_init tree0 cl model seed = Ok run ->
  2 <= ntips (tree run)
  /\ (forall i, i < ntips (tree run) -> idx_dict (tree run) i <> None)
  /\ clade_idxs run <> []
  /\ get_groups (tree run) (clade_idxs run)
     = Ok (group_sizes run, groups run)
  /\ params run = fixed_params (clade_idxs run)
  /\ map gidx (spdata run) = groups run
  /\ List.length (spdata run) = list_sum (map snd (group_sizes run))
  /\ ntips (tree run) <= List.length (spdata run).
Proof.
  intros H.
  destruct (constructed_tips _ _ _ _ H) as (Hn & Hlab & Htips).
  destruct (GenerativeBase_init_stages _ _ _ _ H)
    as (crosses & rng1 & vv & _ & -> & _ & Hg & _ & Hp & Hsp & _).
  destruct (get_species_data_spec _ _ _ Hsp) as [Hgidx _].
  destruct (get_groups_inv _ _ Hg) as (sizes & Hne & _ & _ & Hgs & Hgr).
  repeat split; try assumption.
  rewrite <- (length_map gidx), Hgidx, Hgr, Hgs.
  unfold enumerate. rewrite combine_seq_snd. apply blocks_length.
Qed.

End RunInvariants.

Lemma balanced4_run cl :
  cl = [5; 4] \/ cl = [6] ->
  exists run, UserTree balanced4 cl (Name "linear") 12345 = Ok run.
Proof.
  intros Hcl.
  apply (@GenerativeBase_init_total _ _ _ balanced4 cl (Name "linear") 12345
           Linea_f balanced4).
  - lia.
  - reflexivity.
  - reflexivity.
  - destruct Hcl as [-> | ->]; discriminate.
  - intros j Hj.
    destruct Hcl as [-> | ->]; cbn in Hj;
      repeat (destruct Hj as [<-|Hj]; [cbn; discriminate|]); destruct Hj.
  - cbn. lia.
  - intros i Hi. cbn in Hi.
    destruct i as [|[|[|[|i]]]]; [cbn; discriminate .. | lia].
  - intros gg Hg. destruct Hcl as [-> | ->]; cbn in Hg;
      injection Hg as <-; cbn; lia.
Qed.

Lemma constructed_run_invariants_witness :
  exists run,
    UserTree balanced4 [5; 4] (Name "linear") 12345 = Ok run
    /\ map gidx (spdata run) = [0; 0; 1; 1]
    /\ ntips (tree run) <= List.length (spdata run).
Proof.
  destruct (balanced4_run (or_introl eq_refl)) as [run E].
  exists run. split; [exact E|].
  destruct (constructed_run_invariants _ _ _ _ E)
    as (_ & _ & _ & Hg & _ & Hgidx & _ & Htips).
  split; [|exact Htips].
  rewrite Hgidx.
  destruct (GenerativeBase_init_inv _ _ _ _ E) as (Ht & Hcl & _).
  cbn in Ht. injection Ht as Ht.
  rewrite <- Ht, Hcl in Hg. cbn in Hg. now injection Hg as _ <-.
Defined.

(** ** What the constructor raises *)

Lemma select_model_Raise model e : select_model model = Raise e -> e = KeyError.
Proof.
  destruct model as [s|m]; unfold select_model.
  - destruct (dict_get MODEL_DICT s); unfold lookup_or;
      [discriminate | now intros [= <-]].
  - now intros [= <-].
Qed.

Lemma get_groups_Raise t cl e :
  get_groups t cl = Raise e ->
  (e = ValueError /\ cl = [])
  \/ (e = KeyError /\ exists j, In j cl /\ idx_dict t j = None).
Proof.
  unfold get_groups, get_group_sizes.
  destruct (mapM (fun j => n <- lookup_or KeyError (idx_dict t j) ;; Ok (len n))
                 cl) as [sizes|e'] eqn:M; cbn.
  - apply mapM_length in M.
    destruct sizes as [|z sizes]; cbn.
    + intros [= <-]. left. split; [reflexivity|].
      destruct cl; [reflexivity | discriminate].
    + discriminate.
  - intros [= <-]. right.
    apply mapM_Raise in M. destruct M as (j & Hj & Hf).
    destruct (idx_dict t j) eqn:I; cbn in Hf; [discriminate|].
    injection Hf as <-. split; [reflexivity|]. eauto.
Qed.

Lemma psi_at_Raise spdata labels e : psi_at spdata labels = Raise e -> e = KeyError.
Proof.
  unfold psi_at. intros H. apply mapM_Raise in H.
  destruct H as (i & _ & Hf).
  destruct (nth_error spdata i); cbn in Hf; [discriminate|].
  now injection Hf as <-.
Qed.

Section RunErrors.
Context {G : Type} {gen : Generator G} {toytree : ToytreeLib}.

Lemma take_at_total array groups :
  (forall i, In i groups -> i < List.length array) ->
  exists l, take_at array groups = Ok l.
Proof.
  intros H. apply mapM_total. intros i Hi.
  destruct (nth_error array i) eqn:E; [cbn; eauto|].
  apply nth_error_None in E. specialize (H i Hi). lia.
Qed.

Lemma get_species_data_total (g : G) params groups :
  (forall i, In i groups ->
     i < List.length (psi_means params) /\ i < List.length (psi_stds params)) ->
  exists sp g', get_species_data g params groups = Ok (sp, g').
Proof.
  intros H. unfold get_species_data.
  destruct (take_at_total (psi_means params) groups) as [locs ->];
    [intros i Hi; apply (H i Hi)|].
  destruct (take_at_total (psi_stds params) groups) as [scales ->];
    [intros i Hi; apply (H i Hi)|].
  cbn [bind].
  destruct (draw_each rng_normal g (combine locs scales)) as [psis g1].
  eauto.
Qed.

Lemma get_velocities_Raise t crosses params spdata (g : G) e :
  get_velocities t crosses params spdata g = Raise e -> e = KeyError.
Proof.
  unfold get_velocities.
  destruct (psi_at spdata (map sidx0 (sort_values (crosses ++ nulls t))))
    as [psi0|e0] eqn:P0; cbn [bind].
  - destruct (psi_at spdata (map sidx1 (sort_values (crosses ++ nulls t))))
      as [psi1|e1] eqn:P1; cbn [bind].
    + destruct (draw_each _ g _). discriminate.
    + intros [= <-]. now apply psi_at_Raise in P1.
  - intros [= <-]. now apply psi_at_Raise in P0.
Qed.

Lemma fixed_species_data_total (g : G) t cl gs groups :
  get_groups t cl = Ok (gs, groups) ->
  exists sp g', get_species_data g (fixed_params cl) groups = Ok (sp, g').
Proof.
  intros Hg. apply get_species_data_total. intros i Hi.
  destruct (get_groups_inv _ _ Hg) as (sizes & _ & Hlen & _ & _ & ->).
  apply blocks_range in Hi.
  cbn [fixed_params psi_means psi_stds]. rewrite !linspace_length. lia.
Qed.

(** What the constructor raises, in the order of its stages: ValueError
    for a negative seed; else whatever the scaling of the tree raises;
    else, on the scaled tree, nothing but KeyError and ValueError, and
    ValueError only when the model name is filed in [MODEL_DICT] and the
    list of anchors is empty or the tree has fewer than two tips.  In
    particular the lookups of the parameters of a clade, which would
    raise IndexError, never fail. *)
Theorem GenerativeBase_init_raises
  (tree0 : TreeNode) (cl : list nat) (model : model_arg) (seed : Z)
  (e : exn) :
  GenerativeBase_init (G:=G) tree0 cl model seed = Raise e ->
  ((seed < 0)%Z /\ e = ValueError)
  \/ ((0 <= seed)%Z /\ node_scale_root_height tree0 = Raise e)
  \/ ((0 <= seed)%Z
      /\ exists t,
           node_scale_root_height tree0 = Ok t
           /\ (e = KeyError
               \/ (e = ValueError
                   /\ (exists f, select_model model = Ok f)
                   /\ (cl = [] \/ ntips t < 2)))).
Proof.
  unfold GenerativeBase_init, default_rng.
  destruct (seed <? 0)%Z eqn:Hs; cbn [bind].
  { intros [= <-]. left. apply Z.ltb_lt in Hs. now split. }
  apply Z.ltb_ge in Hs.
  destruct (node_scale_root_height tree0) as [t|e0] eqn:Ht; cbn [bind].
  2:{ intros [= <-]. right. left. now split. }
  intros H. right. right. split; [exact Hs|]. exists t. split; [reflexivity|].
  revert H.
  destruct (select_model model) as [f|e0] eqn:M; cbn [bind].
  2:{ intros [= <-]. left. now apply select_model_Raise in M. }
  destruct (get_groups t cl) as [[gs groups]|e1] eqn:Hg; cbn [bind].
  2:{ intros [= <-].
      destruct (get_groups_Raise _ _ Hg) as [[-> ->]|[-> _]];
        [right | now left].
      split; [reflexivity|]. split; [eauto | now left]. }
  destruct (get_crosses t) as [crosses|e2] eqn:Hc; cbn [bind].
  2:{ intros [= <-].
      destruct (get_crosses_Raise _ Hc) as [[-> Hn]|[-> _]];
        [right | now left].
      split; [reflexivity|]. split; [eauto | now right]. }
  cbn [get_true_param_dists snd fst].
  destruct (fixed_species_data_total (seeded (Z.to_N seed)) _ _ Hg)
    as (sp & g1 & Hsp).
  unfold fixed_params in Hsp. rewrite Hsp. cbn [bind fst snd].
  destruct (get_velocities _ crosses _ sp g1) as [vv|e3] eqn:Hv; cbn [bind].
  - discriminate.
  - intros [= <-]. left. now apply get_velocities_Raise in Hv.
Qed.

End RunErrors.

Lemma GenerativeBase_init_raises_witness :
  UserTree (G:=nat) cherry [] (Name "linear") 12345 = Raise ValueError
  /\ (((12345 < 0)%Z /\ ValueError = ValueError)
      \/ ((0 <= 12345)%Z /\ node_scale_root_height cherry = Raise ValueError)
      \/ ((0 <= 12345)%Z
          /\ exists t,
               node_scale_root_height cherry = Ok t
               /\ (ValueError = KeyError
                   \/ (ValueError = ValueError
                       /\ (exists f, select_model (Name "linear") = Ok f)
                       /\ (@nil nat = [] \/ ntips t < 2))))).
Proof.
  split; [reflexivity|].
  apply (GenerativeBase_init_raises cherry [] (Name "linear") 12345).
  reflexivity.
Defined.

(** ** What the model and the seed do not reach *)

Section RunIndependence.
Context {G : Type} {gen : Generator G} {toytree : ToytreeLib}.

Lemma velocities_columns t crosses params spdata (g : G) vv g' f :
  get_velocities t crosses params spdata g = Ok (vv, g') ->
  let table :=
    zip_rows (v_rows vv) (v_distnorm vv) (v_joint_velo vv)
      (get_logit f (v_joint_velo vv)
         (map (fun r => of_float (dist r)) (v_rows vv))) in
  map pair_of table = v_rows vv
  /\ map distnorm table = v_distnorm vv
  /\ map joint_velo table = v_joint_velo vv
  /\ map expit table
     = get_logit f (v_joint_velo vv) (map (fun r => of_float (dist r)) (v_rows vv)).
Proof.
  intros H table.
  destruct (get_velocities_spec _ _ _ _ _ H) as (_ & R2 & R3).
  cbn [fst] in R2, R3.
  apply zip_rows_columns; try assumption.
  rewrite get_logit_length; [assumption|]. now rewrite length_map.
Qed.

(** The columns of [ridata] that come from the tree alone. *)
Lemma constructed_columns tree0 cl model seed (run : @GenerativeBase G) :
  GenerativeBase_init tree0 cl model seed = Ok run ->
  exists crosses,
    get_crosses (tree run) = Ok crosses
    /\ map pair_of (ridata run)
       = sort_values (crosses ++ nulls (tree run))
    /\ map distnorm (ridata run)
       = (let dists :=
            map (fun r => of_float (dist r))
                (sort_values (crosses ++ nulls (tree run)))
          in map (fun d => div (sub d (mean dists)) (mean dists)) dists).
Proof.
  intros H.
  destruct (GenerativeBase_init_stages _ _ _ _ H)
    as (crosses & rng1 & vv & Ht & _ & _ & _ & Hc & _ & _ & Hv & Hri & _).
  destruct (velocities_columns _ _ _ _ _ (function run) Hv)
    as (C1 & C2 & _).
  destruct (get_velocities_psi _ _ _ _ _ Hv) as (_ & Hrows & Hdn).
  exists crosses. split; [exact Hc|].
  rewrite Hri, C1, C2, Hdn, Hrows. split; reflexivity.
Qed.

(** The model reaches the column [expit] and nothing else: if a run
    is constructed with one model, then it is constructed with every
    model filed in [MODEL_DICT], with the same generator state, tree,
    clades, parameters and [spdata], the same pairs, [distnorm] and
    [joint_velo], and with the [expit] of the other model on the same
    velocities and distances. *)
Theorem model_reaches_expit_only
  (tree0 : TreeNode) (cl : list nat) (m1 m2 : model_arg) (seed : Z)
  (r1 : @GenerativeBase G) (f2 : regression) :
  GenerativeBase_init tree0 cl m1 seed = Ok r1 ->
  select_model m2 = Ok f2 ->
  exists r2,
    GenerativeBase_init tree0 cl m2 seed = Ok r2
    /\ function r2 = f2
    /\ rng r2 = rng r1
    /\ tree r2 = tree r1
    /\ clade_idxs r2 = clade_idxs r1
    /\ group_sizes r2 = group_sizes r1
    /\ groups r2 = groups r1
    /\ params r2 = params r1
    /\ spdata r2 = spdata r1
    /\ map pair_of (ridata r2) = map pair_of (ridata r1)
    /\ map distnorm (ridata r2) = map distnorm (ridata r1)
    /\ map joint_velo (ridata r2) = map joint_velo (ridata r1)
    /\ map expit (ridata r2)
       = get_logit f2 (map joint_velo (ridata r1))
           (map (fun r => of_float (dist (pair_of r))) (ridata r1)).
Proof.
  intros H1 H2.
  destruct (GenerativeBase_init_stages _ _ _ _ H1)
    as (crosses & rng1 & vv & Ht & Hcl & _ & Hg & Hc & Hp & Hsp & Hv & Hri
        & _ & Hseed).
  unfold GenerativeBase_init.
  rewrite (default_rng_total Hseed), Ht. cbn [bind].
  rewrite H2, Hg, Hc. cbn [bind get_true_param_dists fst snd].
  unfold fixed_params in Hsp, Hv. rewrite Hsp. cbn [bind fst snd].
  rewrite Hv. cbn [bind fst snd].
  eexists. split; [reflexivity|].
  cbn [function rng tree clade_idxs group_sizes groups params spdata ridata].
  destruct (velocities_columns _ _ _ _ _ f2 Hv) as (A1 & A2 & A3 & A4).
  destruct (velocities_columns _ _ _ _ _ (function r1) Hv)
    as (B1 & B2 & B3 & _).
  rewrite Hri, A1, A2, A3, A4, B1, B2, B3, Hcl, Hp.
  repeat split; try reflexivity.
  f_equal. rewrite <- B1 at 1. now rewrite map_map.
Qed.

(** The seed reaches the draws and nothing else: if a run is
    constructed with one seed, then it is constructed with every seed
    that is not negative, with the same tree, clades, regression
    function, group sizes, groups and parameters, the same clade for
    every row of [spdata], and the same pairs, distances and
    [distnorm]; with a negative seed nothing is constructed. *)
Theorem seed_reaches_draws_only
  (tree0 : TreeNode) (cl : list nat) (model : model_arg) (s1 s2 : Z)
  (r1 : @GenerativeBase G) :
  GenerativeBase_init tree0 cl model s1 = Ok r1 ->
  ((s2 < 0)%Z -> GenerativeBase_init (G:=G) tree0 cl model s2 = Raise ValueError)
  /\ ((0 <= s2)%Z ->
  exists r2,
    GenerativeBase_init tree0 cl model s2 = Ok r2
    /\ tree r2 = tree r1
    /\ clade_idxs r2 = clade_idxs r1
    /\ function r2 = function r1
    /\ group_sizes r2 = group_sizes r1
    /\ groups r2 = groups r1
    /\ params r2 = params r1
    /\ map gidx (spdata r2) = map gidx (spdata r1)
    /\ map pair_of (ridata r2) = map pair_of (ridata r1)
    /\ map distnorm (ridata r2) = map distnorm (ridata r1)).
Proof.
  intros H1. split.
  { intros Hneg. unfold GenerativeBase_init, default_rng.
    apply Z.ltb_lt in Hneg. now rewrite Hneg. }
  intros Hs2.
  destruct (GenerativeBase_init_stages _ _ _ _ H1)
    as (crosses & rng1 & vv & Ht & Hcl & Hm & Hg & Hc & Hp & Hsp & _).
  destruct (constructed_tips _ _ _ _ H1) as (Hn & Hlab & Htips).
  destruct (get_species_data_spec _ _ _ Hsp) as [Hgidx _].
  destruct (get_groups_inv _ _ Hg) as (sizes & Hne & _ & Hsz & _ & _).
  destruct (@GenerativeBase_init_total _ _ _ tree0 cl model s2 _ _ Hs2 Ht Hm)
    as [r2 H2].
  - exact Hne.
  - intros j Hj. destruct (Forall2_In_l _ Hsz Hj) as (z & _ & n & Hjn & _).
    rewrite Hjn. discriminate.
  - exact Hn.
  - intros i Hi. apply path_to_idx_dict. now apply Hlab.
  - intros gg Hgg. rewrite Hg in Hgg. injection Hgg as <-. cbn [snd].
    rewrite <- Hgidx, length_map. exact Htips.
  - exists r2. split; [exact H2|].
    destruct (GenerativeBase_init_stages _ _ _ _ H2)
      as (crosses' & rng1' & vv' & Ht' & Hcl' & Hm' & Hg' & _ & Hp' & Hsp'
          & _).
    destruct (get_species_data_spec _ _ _ Hsp') as [Hgidx' _].
    assert (Et : tree r2 = tree r1) by congruence.
    rewrite Et in Hg'. rewrite Hg in Hg'. injection Hg' as Egs Egr.
    rewrite Hm in Hm'. injection Hm' as Ef.
    destruct (constructed_columns _ _ _ _ H1) as (c1 & Hc1 & P1 & D1).
    destruct (constructed_columns _ _ _ _ H2) as (c2 & Hc2 & P2 & D2).
    rewrite Et in Hc2, P2, D2.
    rewrite Hc1 in Hc2. injection Hc2 as <-.
    rewrite Hcl, Hcl', Hp, Hp', Hgidx, Hgidx', P1, P2, D1, D2.
    repeat split; congruence.
Qed.

End RunIndependence.

Lemma model_reaches_expit_only_witness :
  exists r1 r2,
    UserTree cherry [2] (Name "linear") 12345 = Ok r1
    /\ UserTree cherry [2] (Name "exponential") 12345 = Ok r2
    /\ map joint_velo (ridata r2) = map joint_velo (ridata r1)
    /\ spdata r2 = spdata r1.
Proof.
  destruct cherry_linear_run as (r1 & E & _).
  destruct (model_reaches_expit_only cherry [2] (Name "linear")
              (Name "exponential") 12345 (r1:=r1) (f2:=Expon_f) E eq_refl)
    as (r2 & H2 & _ & _ & _ & _ & _ & _ & _ & Hsp & _ & _ & Hjv & _).
  exists r1, r2. repeat split; assumption.
Defined.

Lemma seed_reaches_draws_only_witness :
  exists r1 r2,
    UserTree cherry [2] (Name "linear") 12345 = Ok r1
    /\ UserTree cherry [2] (Name "linear") 7 = Ok r2
    /\ map distnorm (ridata r2) = map distnorm (ridata r1)
    /\ groups r2 = groups r1.
Proof.
  destruct cherry_linear_run as (r1 & E & _).
  destruct (seed_reaches_draws_only cherry [2] (Name "linear") 12345 7 (r1:=r1) E)
    as [_ Hpos].
  destruct (Hpos ltac:(lia))
    as (r2 & H2 & _ & _ & _ & _ & Hg & _ & _ & _ & Hd).
  exists r1, r2. repeat split; assumption.
Defined.

(** ** The parameters of the clades *)

Lemma INR_inject_Z n : Q2R (inject_Z (Z.of_nat n)) = INR n.
Proof.
  unfold Q2R, inject_Z. cbn. rewrite <- INR_IZR_INZ. lra.
Qed.

(** The entries of [np.linspace(start, stop, num)] lie between [start]
    and [stop]. *)
Lemma linspace_between start stop num :
  (start <= stop)%Q ->
  Forall (real_between (Q2R start) (Q2R stop)) (linspace start stop num).
Proof.
  intros Hle. apply Qreals.Qle_Rle in Hle.
  unfold linspace. apply Forall_forall. intros x Hx.
  apply in_map_iff in Hx. destruct Hx as (i & <- & Hi).
  apply in_seq in Hi. unfold of_Q, real_between.
  rewrite Qreals.Q2R_plus, Qreals.Q2R_mult, INR_inject_Z.
  destruct (Nat.eq_dec num 1) as [->|Hn].
  - assert (i = 0) as -> by lia. cbn [INR]. lra.
  - assert (Hk : (0 < INR (num - 1))%R) by (apply lt_0_INR; lia).
    rewrite Qreals.Q2R_div.
    2:{ intros Hz. apply Qreals.Qeq_eqR in Hz.
        rewrite INR_inject_Z, Q2R_zero in Hz. lra. }
    rewrite Qreals.Q2R_minus, INR_inject_Z.
    assert (Hi0 : (0 <= INR i)%R) by apply pos_INR.
    assert (Hik : (INR i <= INR (num - 1))%R) by (apply le_INR; lia).
    set (k := INR (num - 1)) in *. set (x := INR i) in *.
    set (a := Q2R start) in *. set (b := Q2R stop) in *.
    replace (a + x * ((b - a) / k))%R with (a + (x / k) * (b - a))%R
      by (field; lra).
    assert (H0 : (0 <= x / k)%R).
    { apply Rmult_le_pos; [lra|]. left. now apply Rinv_0_lt_compat. }
    assert (H1 : (x / k <= 1)%R).
    { apply (Rmult_le_reg_r k); [exact Hk|].
      replace (x / k * k)%R with x by (field; lra). lra. }
    split; nra.
Qed.

Lemma draw_each_Forall {G A B : Type} (draw : G -> A -> B * G)
  (P : B -> Prop) g l :
  (forall g a, P (fst (draw g a))) ->
  Forall P (fst (draw_each draw g l)).
Proof.
  intros H. revert g. induction l as [|a r IH]; intros g; cbn; [constructor|].
  pose proof (H g a) as Ha. destruct (draw g a) as [b g1].
  pose proof (IH g1) as Hr. destruct (draw_each draw g1 r) as [bs g2].
  cbn in *. constructor; assumption.
Qed.

Lemma np_abs_valid_scale x : valid_scale (np_abs x).
Proof.
  destruct x; cbn; try exact I. apply Rabs_pos.
Qed.

Section Parameters.
Context {G : Type} {gen : Generator G}.

(** In both modes [get_true_param_dists] returns one mean and one
    standard deviation per anchor, and no standard deviation that
    [rng.normal] would refuse as a scale.  The fixed mode, the one the
    constructor uses, leaves the generator untouched, sets beta to 10
    and returns means between -0.5 and 0.5 and standard deviations
    between 0.05 and 0.25; the random mode draws beta first and then
    one mean and one standard deviation per anchor. *)
Theorem get_true_param_dists_spec (random : bool) (g : G) (cl : list nat) :
  let p := fst (get_true_param_dists random g cl) in
  List.length (psi_means p) = List.length cl
  /\ List.length (psi_stds p) = List.length cl
  /\ Forall valid_scale (psi_stds p)
  /\ (if random then
        beta p = fst (rng_uniform g (Fin 3, Fin 5))
      else
        snd (get_true_param_dists random g cl) = g
        /\ beta p = Fin 10
        /\ Forall (real_between (- (1 / 2)) (1 / 2)) (psi_means p)
        /\ Forall (real_between (5 / 100) (25 / 100)) (psi_stds p)).
Proof.
  destruct random; cbn [get_true_param_dists].
  - destruct (rng_uniform g (Fin 3, Fin 5)) as [b g1]. cbn [fst].
    pose proof (draw_each_length
                  (fun g (_ : nat) => rng_uniform g (Fin 0, Fin 2)) g1 cl)
      as Lm.
    destruct (draw_each (fun g (_ : nat) => rng_uniform g (Fin 0, Fin 2)) g1 cl)
      as [means g2].
    pose proof (draw_each_length
                  (fun g (_ : nat) =>
                     let '(x, g1) := rng_normal g (Fin 0, Fin 1) in
                     (np_abs x, g1)) g2 cl) as Ls.
    pose proof (draw_each_Forall
                  (fun g (_ : nat) =>
                     let '(x, g1) := rng_normal g (Fin 0, Fin 1) in
                     (np_abs x, g1)) valid_scale g2 cl) as Vs.
    destruct (draw_each _ g2 cl) as [stds g3].
    cbn [fst psi_means psi_stds beta] in *.
    repeat split; try assumption.
    apply Vs. intros g' _. destruct (rng_normal g' (Fin 0, Fin 1)).
    apply np_abs_valid_scale.
  - cbn [fst snd psi_means psi_stds beta]. rewrite !linspace_length.
    assert (Hm : Forall (real_between (- (1 / 2)) (1 / 2))
                   (linspace (-1 # 2) (1 # 2) (List.length cl))).
    { pose proof (@linspace_between (-1 # 2) (1 # 2) (List.length cl)) as L.
      replace (Q2R (-1 # 2)) with (- (1 / 2))%R in L
        by (unfold Q2R; cbn; lra).
      replace (Q2R (1 # 2)) with (1 / 2)%R in L by (unfold Q2R; cbn; lra).
      apply L. discriminate. }
    assert (Hs : Forall (real_between (5 / 100) (25 / 100))
                   (linspace (5 # 100) (25 # 100) (List.length cl))).
    { pose proof (@linspace_between (5 # 100) (25 # 100) (List.length cl)) as L.
      replace (Q2R (5 # 100)) with (5 / 100)%R in L by (unfold Q2R; cbn; lra).
      replace (Q2R (25 # 100)) with (25 / 100)%R in L
        by (unfold Q2R; cbn; lra).
      apply L. discriminate. }
    repeat split; try assumption.
    eapply Forall_impl; [|exact Hs].
    intros [r| | |]; cbn; try contradiction. lra.
Qed.

End Parameters.

(** ** [asymp_f] *)

(** [asymp_f] does not read its intercept; at distance 0 it is 0 for
    every real velocity; and it stays within [0, 1] whenever velocity
    and distance are real numbers that do not differ in sign. *)
Theorem asymp_f_range (v d : R) (intercept : npfloat) :
  (forall (velocity distance intercept' : npfloat),
     asymp_f velocity distance intercept
     = asymp_f velocity distance intercept')
  /\ asymp_f (Fin v) (Fin 0) intercept = Fin 0
  /\ ((0 <= v * d)%R ->
      real_between 0 1 (asymp_f (Fin v) (Fin d) intercept)).
Proof.
  split; [|split].
  - reflexivity.
  - unfold asymp_f. cbn. f_equal. rewrite Rmult_0_r, exp_0. lra.
  - intros Hvd. pose proof (exp_pos (- v * d)) as Hp.
    assert (He : (exp (- v * d) <= 1)%R).
    { destruct (Req_dec (v * d) 0) as [Hz|Hnz].
      - replace (- v * d)%R with 0%R by lra. rewrite exp_0. lra.
      - rewrite <- exp_0. left. apply exp_increasing. lra. }
    unfold asymp_f. cbn. lra.
Qed.

(** ** [BaseLogisticModel] on the tables of a generated run *)

Lemma unique_from_seen seen x k l :
  In x seen ->
  Logistic.unique_from seen (repeat x k ++ l) = Logistic.unique_from seen l.
Proof.
  intros Hin. induction k as [|k IH]; [reflexivity|].
  cbn [repeat app Logistic.unique_from].
  replace (existsb (Nat.eqb x) seen) with true; [exact IH|].
  symmetry. apply existsb_exists. exists x. split; [exact Hin|].
  apply Nat.eqb_refl.
Qed.

Lemma unique_from_blocks seen s sizes :
  (forall x, In x seen -> x < s) ->
  Forall (fun z => 1 <= z) sizes ->
  Logistic.unique_from seen (blocks s sizes) = seq s (List.length sizes).
Proof.
  intros Hseen Hpos. revert seen s Hseen.
  induction Hpos as [|z sizes Hz _ IH]; intros seen s Hseen; [reflexivity|].
  rewrite blocks_cons. destruct z as [|z]; [lia|].
  cbn [repeat app Logistic.unique_from List.length seq].
  replace (existsb (Nat.eqb s) seen) with false.
  - f_equal. rewrite unique_from_seen by now left.
    apply IH. intros x [<-|Hx]; [lia|]. specialize (Hseen x Hx). lia.
  - symmetry. apply not_true_is_false. intros He.
    apply existsb_exists in He. destruct He as (y & Hy & Hey).
    apply Nat.eqb_eq in Hey. subst y. specialize (Hseen s Hy). lia.
Qed.

Section FitOnRun.
Context {G : Type} {gen : Generator G} {toytree : ToytreeLib}.

(** [BaseLogisticModel] accepts exactly the model names the generator
    accepts and selects the same function for them; given the tree and
    [spdata] of a constructed run, it numbers the clades 0, 1, ... up
    to the number of anchors of the run, which are the clade numbers
    of [group_sizes]. *)
Theorem fit_on_generated_run
  (tree0 : TreeNode) (cl : list nat) (model : model_arg) (seed : Z)
  (run : @GenerativeBase G) (obs : list observation) (name : string) :
  GenerativeBase_init tree0 cl model seed = Ok run ->
  match Logistic.BaseLogisticModel_init (tree run) (spdata run) obs name with
  | Ok fit =>
      Logistic.clades fit = seq 0 (List.length cl)
      /\ Logistic.clades fit = map fst (group_sizes run)
      /\ select_model (Name name) = Ok (Logistic.function fit)
      /\ (model = Name name -> Logistic.function fit = function run)
      /\ Logistic.ridata fit = obs
  | Raise e => e = KeyError /\ select_model (Name name) = Raise KeyError
  end.
Proof.
  intros H.
  destruct (GenerativeBase_init_stages _ _ _ _ H)
    as (crosses & rng1 & vv & _ & _ & Hm & Hg & _ & _ & Hsp & _).
  destruct (get_species_data_spec _ _ _ Hsp) as [Hgidx _].
  destruct (get_groups_inv _ _ Hg) as (sizes & _ & Hlen & Hsz & Hgs & Hgr).
  assert (Hpos : Forall (fun z => 1 <= z) sizes).
  { apply Forall_forall. intros z Hz.
    destruct (Forall2_In_r _ Hsz Hz) as (j & _ & n & _ & ->).
    apply len_positive. }
  unfold Logistic.BaseLogisticModel_init.
  change Logistic.functions with MODEL_DICT.
  unfold select_model.
  destruct (dict_get MODEL_DICT name) as [f|] eqn:D; cbn [lookup_or bind].
  - cbn [Logistic.clades Logistic.function Logistic.ridata].
    assert (Hcl : map fst (enumerate (Logistic.Series_unique
                                        (map gidx (spdata run))))
                  = seq 0 (List.length cl)).
    { unfold enumerate. rewrite combine_seq_fst.
      unfold Logistic.Series_unique. rewrite Hgidx, Hgr.
      rewrite unique_from_blocks; [|intros x []|exact Hpos].
      now rewrite length_seq, Hlen. }
    split; [exact Hcl|]. split.
    + rewrite Hcl, Hgs. unfold enumerate.
      now rewrite combine_seq_fst, Hlen.
    + split; [reflexivity|]. split; [|reflexivity].
      intros ->. unfold select_model in Hm. rewrite D in Hm.
      cbn in Hm. now injection Hm.
  - split; reflexivity.
Qed.

End FitOnRun.

Lemma fit_on_generated_run_witness :
  exists run fit,
    UserTree balanced4 [5; 4] (Name "linear") 12345 = Ok run
    /\ Logistic.BaseLogisticModel_init (tree run) (spdata run) [] "linear"
       = Ok fit
    /\ Logistic.clades fit = [0; 1]
    /\ Logistic.function fit = function run.
Proof.
  destruct (balanced4_run (or_introl eq_refl)) as [run E].
  pose proof (fit_on_generated_run balanced4 [5; 4] (Name "linear") 12345
                (run:=run) [] "linear" E) as H.
  destruct (Logistic.BaseLogisticModel_init (tree run) (spdata run) [] "linear")
    as [fit|e] eqn:F.
  - exists run, fit. destruct H as (H1 & _ & _ & H4 & _).
    split; [exact E|]. split; [exact F|].
    split; [exact H1 | now apply H4].
  - exfalso. destruct H as [_ H]. discriminate H.
Defined.

(** ** [viz.py]: the heatmap and the scatterplot *)

Lemma same_cell_eq a b : Viz.same_cell a b = true <-> a = b.
Proof.
  unfold Viz.same_cell. destruct a as [a1 a2], b as [b1 b2]. cbn [fst snd].
  rewrite andb_true_iff, !Z.eqb_eq. split.
  - intros [-> ->]. reflexivity.
  - intros [= -> ->]. split; reflexivity.
Qed.

Lemma cell_fill_snoc n l o cell :
  Viz.cell_fill n (l ++ [o]) cell
  = if Viz.same_cell (Viz.cell_of n o) cell then Viz.color_of (RI o)
    else Viz.cell_fill n l cell.
Proof.
  unfold Viz.cell_fill, Viz.heatmap_assignments.
  rewrite map_app, fold_left_app. reflexivity.
Qed.

Lemma color_of_not_lightgrey v : Viz.color_of v <> Viz.lightgrey.
Proof. unfold Viz.color_of. destruct (v =? 0)%Z; discriminate. Qed.

Lemma cell_of_key n o o' :
  Viz.cell_of n o = Viz.cell_of n o' ->
  key (pair_of (row_of o)) = key (pair_of (row_of o')).
Proof.
  unfold Viz.cell_of, key. intros [= H0 H1].
  f_equal; lia.
Qed.

Lemma cell_fill_untouched n l cell :
  Viz.cell_fill n l cell = Viz.lightgrey
  <-> forall o, In o l -> Viz.cell_of n o <> cell.
Proof.
  induction l as [|o l IH] using rev_ind.
  - split; [intros _ o [] | reflexivity].
  - rewrite cell_fill_snoc.
    destruct (Viz.same_cell (Viz.cell_of n o) cell) eqn:E.
    + apply same_cell_eq in E. split.
      * intros H. now apply color_of_not_lightgrey in H.
      * intros H. exfalso. apply (H o); [|exact E].
        apply in_app_iff. right. now left.
    + rewrite IH. split.
      * intros H x Hx. apply in_app_iff in Hx. destruct Hx as [Hx|[<-|[]]].
        -- now apply H.
        -- intros Hc. apply same_cell_eq in Hc. congruence.
      * intros H x Hx. apply H, in_app_iff. now left.
Qed.

Lemma cell_fill_last n l o :
  NoDup (map (fun o => key (pair_of (row_of o))) l) ->
  In o l ->
  Viz.cell_fill n l (Viz.cell_of n o) = Viz.color_of (RI o).
Proof.
  induction l as [|o' l IH] using rev_ind; intros Hnd Hin; [destruct Hin|].
  rewrite cell_fill_snoc.
  rewrite map_app in Hnd. cbn [map] in Hnd.
  apply NoDup_remove in Hnd. rewrite app_nil_r in Hnd.
  destruct Hnd as [Hnd Hnot].
  apply in_app_iff in Hin. destruct Hin as [Hin|[<-|[]]].
  - destruct (Viz.same_cell (Viz.cell_of n o') (Viz.cell_of n o)) eqn:E.
    + exfalso. apply same_cell_eq, cell_of_key in E. apply Hnot.
      rewrite E. apply in_map_iff. now exists o.
    + now apply IH.
  - now rewrite (proj2 (same_cell_eq _ _) eq_refl).
Qed.

(** The heatmap of a table of [n] tips.  A cell keeps the light grey
    it starts with exactly when no observation stands on it.  When no
    pair occurs twice, the cell of an observation is red if its [RI]
    is not 0 and black if it is 0.  An observation on a pair
    [sidx0 <= sidx1 < n] stands on a cell of the table, on the
    anti-diagonal through the corners or beyond it; so when every
    observation is on such a pair, as in the tables of the generator,
    the cells on the near side of the anti-diagonal stay light grey:
    the mirrored assignment is not made. *)
Theorem heatmap_cells (n : nat) (table : list observation) :
  (forall cell,
     Viz.cell_fill (Z.of_nat n) table cell = Viz.lightgrey
     <-> forall o, In o table -> Viz.cell_of (Z.of_nat n) o <> cell)
  /\ (NoDup (map (fun o => key (pair_of (row_of o))) table) ->
      forall o, In o table ->
        Viz.cell_fill (Z.of_nat n) table (Viz.cell_of (Z.of_nat n) o)
        = (if (RI o =? 0)%Z then Viz.black else Viz.red))
  /\ (forall o,
        sidx0 (pair_of (row_of o)) <= sidx1 (pair_of (row_of o)) ->
        sidx1 (pair_of (row_of o)) < n ->
        let cell := Viz.cell_of (Z.of_nat n) o in
        (0 <= fst cell < Z.of_nat n
         /\ 0 <= snd cell < Z.of_nat n
         /\ Z.of_nat n - 1 <= fst cell + snd cell)%Z)
  /\ ((forall o, In o table ->
         sidx0 (pair_of (row_of o)) <= sidx1 (pair_of (row_of o))) ->
      forall r c, (r + c < Z.of_nat n - 1)%Z ->
        Viz.cell_fill (Z.of_nat n) table (r, c) = Viz.lightgrey).
Proof.
  split; [|split; [|split]].
  - intros cell. apply cell_fill_untouched.
  - intros Hnd o Ho. now apply cell_fill_last.
  - intros o H0 H1. unfold Viz.cell_of. cbn [fst snd]. lia.
  - intros Hle r c Hrc. apply cell_fill_untouched.
    intros o Ho. specialize (Hle o Ho). unfold Viz.cell_of.
    intros [= Hr Hc]. lia.
Qed.



Section ScatterFacts.
Context {S : Type} {glob : Viz.GlobalUniform S}.



End ScatterFacts.

(** ** [__main__.py]: what [generate] comes to *)

Section CommandLineFacts.
Context {G : Type} {gen : Generator G} {toytree : ToytreeLib}.
Context {S : Type} {glob : RandomState S} {reseeds : ToytreeGlobal S}.

(** [generate] never gets to a table.  With a tree path it announces
    the work and stops, and the process-global generator is left as it
    was.  With the empty path it raises, and leaves the global
    generator as [bdtree] left it: IndexError when the partitioner runs
    out of anchors; else ValueError for a negative seed; else what the
    scaling of the tree raises; and otherwise KeyError, because the
    model it hands to [RandomTree] is a member of [Models] and
    [MODEL_DICT] is keyed by strings. *)
Theorem generate_never_samples (tree : string) (ncrosses ntips nclades : Z)
  (model : Models) (name_prefix : string) (seed : Z) (s : S) :
  generate (G:=G) tree ncrosses ntips nclades model name_prefix seed s
  = if (tree =? "")%string then
      (Raise (match get_clade_idxs (get_bd_tree ntips) (Some nclades) with
              | Raise _ => IndexError
              | Ok _ =>
                  if (seed <? 0)%Z then ValueError
                  else match node_scale_root_height (get_bd_tree ntips) with
                       | Raise e => e
                       | Ok _ => KeyError
                       end
              end),
       bdtree_leaves ntips 666 s)
    else (Ok None, s).
Proof.
  unfold generate. destruct (tree =? "")%string; [|reflexivity].
  unfold RandomTree.
  assert (H0 : Forall (fun x => idx_dict (get_bd_tree ntips) x <> None)
                 [idx (get_bd_tree ntips)])
    by (constructor; [apply root_label | constructor]).
  pose proof (expand_loop_nodes (get_bd_tree ntips)
                (Z.to_nat (nclades - 1)) H0) as H.
  cbn [get_clade_idxs].
  destruct (expand_loop (get_bd_tree ntips) (Z.to_nat (nclades - 1))
              [idx (get_bd_tree ntips)]) as [cl|e]; cbn [bind].
  - unfold GenerativeBase_init, default_rng.
    destruct (seed <? 0)%Z; [reflexivity|]. cbn [bind].
    destruct (node_scale_root_height (get_bd_tree ntips)); reflexivity.
  - now rewrite H.
Qed.

End CommandLineFacts.

(** ** The root as the only anchor *)

Lemma idx_dict_root t : idx_dict t (idx t) = Some t.
Proof.
  unfold idx_dict. destruct t as [i d cs]. cbn [traverse find idx].
  now rewrite Nat.eqb_refl.
Qed.

Lemma get_groups_root t :
  get_groups t [idx t] = Ok ([(0, ntips t)], repeat 0 (ntips t)).
Proof.
  unfold get_groups, get_group_sizes. cbn [mapM].
  rewrite idx_dict_root. cbn. now rewrite app_nil_r.
Qed.

Section RootAnchor.
Context {G : Type} {gen : Generator G} {toytree : ToytreeLib}.

(** A run constructed with the root of the scaled tree as its only
    anchor has one clade, numbered 0, that holds every tip: [groups] is
    one 0 per tip and [spdata] has exactly one row per tip, each in
    clade 0. *)
Theorem root_anchor_single_clade
  (tree0 t : TreeNode) (model : model_arg) (seed : Z)
  (run : @GenerativeBase G) :
  node_scale_root_height tree0 = Ok t ->
  GenerativeBase_init tree0 [idx t] model seed = Ok run ->
  group_sizes run = [(0, ntips (tree run))]
  /\ groups run = repeat 0 (ntips (tree run))
  /\ map gidx (spdata run) = repeat 0 (ntips (tree run))
  /\ List.length (spdata run) = ntips (tree run).
Proof.
  intros Hscale H.
  destruct (GenerativeBase_init_stages _ _ _ _ H)
    as (crosses & rng1 & vv & Ht & _ & _ & Hg & _ & _ & Hsp & _).
  destruct (get_species_data_spec _ _ _ Hsp) as [Hgidx _].
  assert (Et : t = tree run) by congruence. subst t.
  rewrite get_groups_root in Hg.
  injection Hg as Hgs Hgr. rewrite <- Hgs, <- Hgr.
  split; [reflexivity|]. split; [reflexivity|].
  rewrite <- Hgr in Hgidx. split; [exact Hgidx|].
  now rewrite <- (length_map gidx), Hgidx, repeat_length.
Qed.

End RootAnchor.

Lemma root_anchor_single_clade_witness :
  exists run,
    UserTree balanced4 [6] (Name "linear") 12345 = Ok run
    /\ groups run = repeat 0 (ntips (tree run))
    /\ List.length (spdata run) = ntips (tree run).
Proof.
  destruct (balanced4_run (or_intror eq_refl)) as [run E].
  exists run. split; [exact E|].
  assert (Hs : node_scale_root_height balanced4 = Ok balanced4)
    by reflexivity.
  destruct (root_anchor_single_clade balanced4 (Name "linear") 12345 Hs E)
    as (_ & Hg & _ & Hl).
  split; assumption.
Defined.

(** ** The heatmap of a full table *)

Lemma with_RI_rows (rows : list ridata_row) (ri : list Z) :
  List.length ri = List.length rows ->
  map row_of (with_RI rows ri) = rows.
Proof.
  unfold with_RI. revert ri.
  induction rows as [|r rows IH]; intros [|z ri] H; cbn in *;
    try discriminate; [reflexivity|].
  injection H as H. now rewrite IH.
Qed.

Section FullTable.
Context {G : Type} {gen : Generator G} {toytree : ToytreeLib}.
Context {S : Type} {glob : RandomState S}.

Lemma sample_observations_all (self : @GenerativeBase G) (s : S) table :
  fst (fst (sample_observations self None s)) = Ok table ->
  map row_of table = ridata self.
Proof.
  unfold sample_observations, np_random_binomial.
  destruct (forallb valid_p (map expit (ridata self))); [|discriminate].
  pose proof (draw_each_length binomial1 s (map expit (ridata self))) as L.
  destruct (draw_each binomial1 s (map expit (ridata self))) as [ri s1].
  cbn [fst] in *. intros [= <-]. apply with_RI_rows.
  now rewrite L, length_map.
Qed.

(** The heatmap drawn from the whole table of a constructed run, as
    [sample_observations()] returns it: within the table of [n] by [n]
    cells, a cell stays light grey exactly when it lies before the
    anti-diagonal through the corners; every other cell is coloured by
    an observation. *)
Theorem full_table_heatmap
  (tree0 : TreeNode) (cl : list nat) (model : model_arg) (seed : Z)
  (run : @GenerativeBase G) (s : S) (table : list observation)
  (r c : nat) :
  GenerativeBase_init tree0 cl model seed = Ok run ->
  fst (fst (sample_observations run None s)) = Ok table ->
  r < ntips (tree run) -> c < ntips (tree run) ->
  Viz.cell_fill (Z.of_nat (ntips (tree run))) table (Z.of_nat r, Z.of_nat c)
  = Viz.lightgrey
  <-> r + c < ntips (tree run) - 1.
Proof.
  intros H Ht Hr Hc.
  pose proof (sample_observations_all _ _ Ht) as Hrows.
  destruct (constructed_columns _ _ _ _ H) as (crosses & Hcr & HP & _).
  set (n := ntips (tree run)) in *.
  rewrite cell_fill_untouched. split.
  - intros Hno.
    destruct (Nat.lt_ge_cases (r + c) (n - 1)) as [Hlt|Hge]; [exact Hlt|].
    exfalso.
    destruct (@table_complete (tree run) crosses (n - 1 - r) c Hcr)
      as (x & Hx & Hk); [lia | exact Hc |].
    rewrite <- HP in Hx. apply in_map_iff in Hx.
    destruct Hx as (row & <- & Hrow).
    rewrite <- Hrows in Hrow. apply in_map_iff in Hrow.
    destruct Hrow as (o & <- & Ho).
    apply (Hno o Ho). unfold key in Hk. injection Hk as K0 K1.
    unfold Viz.cell_of. rewrite K0, K1. f_equal. lia.
  - intros Hlt o Ho Hcell.
    assert (Hin : In (pair_of (row_of o))
                     (sort_values (crosses ++ nulls (tree run)))).
    { rewrite <- HP. apply in_map. rewrite <- Hrows. now apply in_map. }
    unfold Viz.cell_of in Hcell. injection Hcell as C0 C1.
    destruct (table_row_origin _ _ Hcr Hin) as [(A & B & _)|(A & B & _)];
      fold n in B; lia.
Qed.

End FullTable.

Lemma full_table_heatmap_witness :
  exists run table,
    UserTree cherry [2] (Name "linear") 12345 = Ok run
    /\ fst (fst (sample_observations run None 0)) = Ok table
    /\ (Viz.cell_fill (Z.of_nat (ntips (tree run))) table
          (Z.of_nat 0, Z.of_nat 0) = Viz.lightgrey
        <-> 0 + 0 < ntips (tree run) - 1).
Proof.
  destruct cherry_linear_run_valid as (run & E & _ & Hv & _).
  destruct (sample_observations_full run (nsamples:=None) 0 Hv
              (or_introl eq_refl))
    as [T _].
  exists run. eexists. split; [exact E|]. split; [exact T|].
  destruct (GenerativeBase_init_inv _ _ _ _ E) as (Htree & _).
  cbn in Htree. injection Htree as Htree.
  apply (full_table_heatmap cherry [2] (Name "linear") 12345
           (run:=run) 0 (r:=0) (c:=0) E T);
    rewrite <- Htree; cbn; lia.
Defined.

(** ** The logarithmic model and [sample_observations] *)

Lemma fold_add_nan l : fold_left add l NaN = NaN.
Proof. induction l as [|x l IH]; cbn; [reflexivity | exact IH]. Qed.

Lemma fold_add_has_nan l a : In NaN l -> fold_left add l a = NaN.
Proof.
  revert a. induction l as [|x l IH]; intros a Hin; [destruct Hin|].
  cbn. destruct Hin as [->|Hin]; [|now apply IH].
  replace (add a NaN) with NaN by (destruct a; reflexivity).
  apply fold_add_nan.
Qed.

(** A sum over floats none of which is nan, started from a float that
    is not nan: with an infinity of one sign only among them the sum is
    that infinity, with both it is nan. *)
Lemma fold_add_infinite l a :
  Forall (fun x => x <> NaN) l -> a <> NaN ->
  ((a = PInf \/ In PInf l) -> ~ (a = NInf \/ In NInf l) ->
   fold_left add l a = PInf)
  /\ ((a = NInf \/ In NInf l) -> ~ (a = PInf \/ In PInf l) ->
      fold_left add l a = NInf)
  /\ ((a = PInf \/ In PInf l) -> (a = NInf \/ In NInf l) ->
      fold_left add l a = NaN).
Proof.
  intros Hl. revert a.
  induction Hl as [|x l Hx _ IH]; intros a Ha.
  - cbn. repeat split.
    + intros [->|[]] _. reflexivity.
    + intros [->|[]] _. reflexivity.
    + intros [->|[]] [E|[]]. discriminate E.
  - cbn [fold_left].
    destruct a as [r| | |], x as [q| | |]; try contradiction; cbn [add];
      match goal with
      | |- context [fold_left add l NaN] =>
          repeat split; intros H1 H2; cbn [In] in *;
          first [ apply fold_add_nan | exfalso; intuition congruence ]
      | |- context [fold_left add l ?acc] =>
          destruct (IH acc ltac:(discriminate)) as (P & N & B);
          repeat split; intros H1 H2; cbn [In] in *;
          first [ solve [apply P; intuition congruence]
                | solve [apply N; intuition congruence]
                | solve [apply B; intuition congruence]
                | solve [exfalso; intuition congruence] ]
      end.
Qed.

Lemma In_PInf_dec (v : list npfloat) : In PInf v \/ ~ In PInf v.
Proof.
  destruct (existsb (fun x => match x with PInf => true | _ => false end) v)
    eqn:E.
  - left. apply existsb_exists in E. destruct E as (x & Hx & Hp).
    destruct x; try discriminate. exact Hx.
  - right. intros H. apply Bool.not_true_iff_false in E. apply E.
    apply existsb_exists. now exists PInf.
Qed.

Lemma In_NInf_dec (v : list npfloat) : In NInf v \/ ~ In NInf v.
Proof.
  destruct (existsb (fun x => match x with NInf => true | _ => false end) v)
    eqn:E.
  - left. apply existsb_exists in E. destruct E as (x & Hx & Hp).
    destruct x; try discriminate. exact Hx.
  - right. intros H. apply Bool.not_true_iff_false in E. apply E.
    apply existsb_exists. now exists NInf.
Qed.

(** Which infinities a list of floats holds, when it holds one. *)
Lemma in_dec_inf (v : list npfloat) :
  In PInf v \/ In NInf v ->
  (In PInf v /\ In NInf v)
  \/ (In PInf v /\ ~ In NInf v)
  \/ (~ In PInf v /\ In NInf v).
Proof.
  intros H. destruct (In_PInf_dec v), (In_NInf_dec v); tauto.
Qed.

(** The standard deviation of values that hold an infinity is nan. *)
Lemma std_infinite values :
  In PInf values \/ In NInf values -> std values = NaN.
Proof.
  intros Hinf. unfold std.
  set (v := filter (fun x => negb (isnan x)) values).
  assert (Hv : Forall (fun x => x <> NaN) v).
  { apply Forall_forall. intros x Hx. apply filter_In in Hx.
    destruct Hx as [_ Hx]. intros ->. discriminate Hx. }
  assert (Hin : In PInf v \/ In NInf v).
  { destruct Hinf as [H|H]; [left | right]; apply filter_In; now split. }
  destruct (List.length v <=? 1) eqn:L; [reflexivity|].
  apply Nat.leb_gt in L.
  assert (Hc : Rsign (INR (List.length v)) = Pos)
    by (apply Rsign_pos, lt_0_INR; lia).
  assert (Hnan : In NaN (map (fun x => square (sub (div (sum v)
                                 (of_nat (List.length v))) x)) v)).
  { unfold sum.
    destruct (@fold_add_infinite v (Fin 0) Hv ltac:(discriminate))
      as (P & N & B).
    destruct (in_dec_inf v Hin) as [[Hp Hn]|[[Hp Hn]|[Hp Hn]]].
    - rewrite B by (now right). apply in_map_iff.
      destruct Hin as [H|H]; eexists; (split; [|exact H]); reflexivity.
    - rewrite P; [|now right|intros [E|H]; [discriminate | contradiction]].
      apply in_map_iff. exists PInf. split; [|exact Hp].
      unfold of_nat, div. rewrite Hc. reflexivity.
    - rewrite N; [|now right|intros [E|H]; [discriminate | contradiction]].
      apply in_map_iff. exists NInf. split; [|exact Hn].
      unfold of_nat, div. rewrite Hc. reflexivity. }
  unfold sum at 1. rewrite (@fold_add_has_nan _ (Fin 0) Hnan). reflexivity.
Qed.

Section LogarithmicRuns.
Context {G : Type} {gen : Generator G} {toytree : ToytreeLib}.
Context {S : Type} {glob : RandomState S}.

(** In a run constructed with the logarithmic function the row of the
    tip 0 with itself has the [expit] nan. *)
Lemma logarithmic_expit_nan tree0 cl model seed (run : @GenerativeBase G) :
  GenerativeBase_init tree0 cl model seed = Ok run ->
  function run = Logar_f ->
  exists r, In r (ridata run) /\ expit r = NaN.
Proof.
  intros H Hf.
  destruct (GenerativeBase_init_inv _ _ _ _ H)
    as (_ & _ & _ & _ & (crosses & Hc & Hrows) & _).
  destruct (get_crosses_spec _ Hc) as [Hn _].
  destruct (@table_complete (tree run) crosses 0 0 Hc) as (x & Hx & Hk);
    [lia | lia |].
  rewrite <- Hrows in Hx. apply in_map_iff in Hx.
  destruct Hx as (r & <- & Hr).
  assert (Hd : dist (pair_of r) = 0%float).
  { assert (Hin : In (pair_of r) (sort_values (crosses ++ nulls (tree run))))
      by (rewrite <- Hrows; now apply in_map).
    unfold key in Hk. injection Hk as K0 K1.
    destruct (table_row_origin _ _ Hc Hin) as [(Hlt & _)|(_ & _ & Hd)];
      [lia | exact Hd]. }
  exists r. split; [exact Hr|].
  rewrite (expit_of_row _ _ _ _ H r Hr), shift_of_scores, Hf.
  set (values := map (score_of Logar_f) (ridata run)).
  assert (Hs : In (score_of Logar_f r) values) by (now apply in_map).
  assert (Hscore : ~ finite (score_of Logar_f r)).
  { unfold score_of, dist_of. rewrite Hd, of_float_zero.
    unfold call. apply logar_f_zero_not_finite. }
  destruct (score_of Logar_f r) as [q| | |] eqn:E.
  - exfalso. apply Hscore. exact I.
  - rewrite (std_infinite values) by (now left).
    replace (div (mean values) NaN) with NaN
      by (destruct (mean values); reflexivity).
    reflexivity.
  - rewrite (std_infinite values) by (now right).
    replace (div (mean values) NaN) with NaN
      by (destruct (mean values); reflexivity).
    reflexivity.
  - reflexivity.
Qed.

(** No run constructed with the logarithmic function can be sampled:
    the rows at distance 0 get the score -inf, inf or nan, so the mean
    over the standard deviation is nan or their own score is, their
    [expit] is nan, and [np.random.binomial] raises ValueError before a
    draw is made or the table is written. *)
Theorem logarithmic_run_cannot_be_sampled
  (tree0 : TreeNode) (cl : list nat) (model : model_arg) (seed : Z)
  (run : @GenerativeBase G) (nsamples : option Z) (s : S) :
  GenerativeBase_init tree0 cl model seed = Ok run ->
  function run = Logar_f ->
  sample_observations run nsamples s = (Raise ValueError, run, s).
Proof.
  intros H Hf. apply sample_observations_invalid.
  destruct (logarithmic_expit_nan _ _ _ _ H Hf) as (r & Hr & He).
  destruct (forallb valid_p (map expit (ridata run))) eqn:E; [|reflexivity].
  exfalso. rewrite forallb_forall in E.
  specialize (E (expit r) (in_map expit _ _ Hr)).
  rewrite He in E. discriminate E.
Qed.

End LogarithmicRuns.

Lemma logarithmic_run_cannot_be_sampled_witness :
  exists run,
    UserTree cherry [2] (Name "logarithmic") 12345 = Ok run
    /\ sample_observations run (Some 2%Z) 0 = (Raise ValueError, run, 0).
Proof.
  eexists. split; [reflexivity|].
  match goal with
  | |- sample_observations ?r _ _ = _ =>
      assert (E : UserTree cherry [2] (Name "logarithmic") 12345 = Ok r)
        by reflexivity;
      apply (logarithmic_run_cannot_be_sampled cherry [2] (Name "logarithmic")
               12345 (Some 2%Z) 0 E)
  end.
  reflexivity.
Defined.
